(** * Cockpit assistant inference runtime: KV cache, prefix cache, engine and sampler

    A shallow embedding of the C++ sources under [cpp/src] (kv_cache.cpp,
    inference_engine.cpp, sampler.cpp, tokenizer.cpp) together with the
    properties of the natural-language specification that they satisfy or
    violate (Part II) and further properties of the code (Part III).

    Conventions.
    - [int] and [int32_t] values are integers of [Z]; every conversion into
      such a type is written with its two's-complement wrap-around ([to_int]).
    - [std::vector<T>] is [list T]; [v[i]] is stdpp's lookup [v !! i].
    - [float] is IEEE-754 binary32, computed with the reference
      implementation of [SpecFloat] at precision 24 and maximal exponent 128.
    - What the program obtains from its environment (llama.cpp, the clock,
      libm, the PRNG, other threads) is a parameter of the model. *)

From Stdlib Require Import ZArith String Ascii Lia Bool.
From Stdlib Require Import Floats.SpecFloat.
From coqutil Require Import Byte Word.LittleEndianList.
From stdpp Require Import base list sorting gmap strings.

Local Open Scope Z_scope.

(** * Part I: the embedding *)

(** ** Machine integers *)

Module Int.

Definition INT_MAX : Z := 2 ^ 31 - 1.
Definition INT_MIN : Z := - 2 ^ 31.

(** Conversion to a signed 32-bit [int] (two's-complement wrap-around). *)
Definition to_int (z : Z) : Z := (z + 2 ^ 31) mod 2 ^ 32 - 2 ^ 31.

(** Conversion to a 64-bit [size_t]. *)
Definition to_size_t (z : Z) : Z := z mod 2 ^ 64.

End Int.

Import Int.

(** ** The prefix scan shared by the cache and the engine

    [[
    for (size_t i = 0; i < min_len; i++) {
        if (a[i] == b[i]) { n++; } else { break; }
    }
    ]]
    [scan_prefix] is the loop with [fuel] iterations left, standing at index
    [i] with [n] matches counted so far. *)

Fixpoint scan_prefix (fuel i : nat) (a b : list Z) (n : nat) : nat :=
  match fuel with
  | O => n
  | S fuel' =>
      match a !! i, b !! i with
      | Some x, Some y =>
          if Z.eqb x y then scan_prefix fuel' (S i) a b (S n) else n
      | _, _ => n
      end
  end.

Definition match_prefix (a b : list Z) : nat :=
  scan_prefix (Nat.min (length a) (length b)) 0 a b 0.

(** The same count by recursion on the two sequences. *)
Fixpoint lcp_len (a b : list Z) : nat :=
  match a, b with
  | x :: a', y :: b' => if Z.eqb x y then S (lcp_len a' b') else O
  | _, _ => O
  end.

(** [n] is the length of the longest common prefix of [a] and [b]: some
    common prefix has length [n], and no common prefix is longer. *)
Definition is_lcp_length (n : nat) (a b : list Z) : Prop :=
  (∃ p, length p = n ∧ p `prefix_of` a ∧ p `prefix_of` b) ∧
  (∀ p, p `prefix_of` a → p `prefix_of` b → (length p ≤ n)%nat).

(** ** kv_cache.cpp: KVCacheManager *)

Module KVCacheManager.

Record CacheConfig := {
  n_ctx : Z;
  n_layer : Z;
  n_head : Z;
  head_dim : Z;
  use_fp16 : bool;
}.

Record t := {
  config_ : CacheConfig;
  token_history_ : list Z;
  cached_tokens_ : Z;
}.

Definition create (config : CacheConfig) : t :=
  {| config_ := config; token_history_ := []; cached_tokens_ := 0 |}.

Definition get_cached_tokens (c : t) : Z := cached_tokens_ c.

(** [reusable] is an [int] counter, the result [std::min(reusable,
    cached_tokens_)]. *)
Definition check_reusable (c : t) (new_tokens : list Z) : Z :=
  let reusable := to_int (Z.of_nat (match_prefix new_tokens (token_history_ c))) in
  Z.min reusable (cached_tokens_ c).

Definition update (c : t) (tokens : list Z) : t :=
  {| config_ := config_ c;
     token_history_ := tokens;
     cached_tokens_ := to_int (Z.of_nat (length tokens)) |}.

Definition clear (c : t) : t :=
  {| config_ := config_ c; token_history_ := []; cached_tokens_ := 0 |}.

Definition truncate (c : t) (len : Z) : t :=
  let len := if len <? 0 then 0 else len in
  if len <? cached_tokens_ c then
    {| config_ := config_ c;
       token_history_ := resize (Z.to_nat len) 0 (token_history_ c);
       cached_tokens_ := len |}
  else c.

Definition get_capacity (c : t) : Z := n_ctx (config_ c).

(** [serialize]: the [size_t] count and then the [int32_t] tokens, as the
    two [memcpy] lay them out (little-endian, [size_t] of eight bytes). *)
Definition serialize (c : t) : list byte :=
  le_split 8 (Z.of_nat (length (token_history_ c))) ++
  flat_map (le_split 4) (token_history_ c).

(** The largest size of a [std::vector<int32_t>], [PTRDIFF_MAX /
    sizeof(int32_t)]; [resize] to more raises [std::length_error] and
    leaves the vector as it was. *)
Definition max_size : Z := (2 ^ 63 - 1) / 4.

(** The [int32_t] that the second [memcpy] of [deserialize] leaves in
    [token_history_[i]]. *)
Definition token_at (data : list byte) (i : nat) : Z :=
  to_int (le_combine (take 4 (drop (8 + 4 * i) data))).

(** How [deserialize] ends: with its [bool], or with the exception of
    [token_history_.resize]. *)
Inductive deserialize_result :=
  | Deserialized (ok : bool)
  | ResizeThrew.

(** The sum [sizeof(n_tokens) + n_tokens * sizeof(int32_t)] of the second
    check is computed in [size_t]. *)
Definition deserialize (c : t) (data : list byte) : deserialize_result * t :=
  if Z.of_nat (length data) <? 8 then (Deserialized false, c)
  else
    let n_tokens := le_combine (take 8 data) in
    if Z.of_nat (length data) <? to_size_t (8 + to_size_t (n_tokens * 4))
    then (Deserialized false, c)
    else if max_size <? n_tokens then (ResizeThrew, c)
    else
      (Deserialized true,
       {| config_ := config_ c;
          token_history_ := token_at data <$> seq 0 (Z.to_nat n_tokens);
          cached_tokens_ := to_int n_tokens |}).

(** The class invariant kept by every mutator. *)
Definition consistent (c : t) : Prop :=
  cached_tokens_ c = Z.of_nat (length (token_history_ c)).

End KVCacheManager.

(** ** kv_cache.cpp: PrefixCacheManager *)

Module PrefixCacheManager.

Record PrefixEntry := {
  tokens : list Z;
  cache_data : list byte;
  last_access_time : Z;
  access_count : Z;
}.

Record t := {
  max_entries_ : Z;
  entries_ : list PrefixEntry;
}.

Definition create (max_entries : Z) : t :=
  {| max_entries_ := max_entries; entries_ := [] |}.

Definition size (c : t) : Z := Z.of_nat (length (entries_ c)).

(** The outer loop of [find_prefix] over [entries_[i]], [i] upwards, with
    the running [best_match] ([int]) and [best_match_len] ([size_t]). *)
Fixpoint find_prefix_loop (query : list Z) (es : list PrefixEntry) (i : nat)
    (best_match : Z) (best_match_len : nat) : Z :=
  match es with
  | [] => best_match
  | entry :: es' =>
      let match_len := match_prefix query (tokens entry) in
      if Nat.eqb match_len (length (tokens entry)) && Nat.ltb best_match_len match_len
      then find_prefix_loop query es' (S i) (to_int (Z.of_nat i)) match_len
      else find_prefix_loop query es' (S i) best_match best_match_len
  end.

Definition find_prefix (c : t) (query : list Z) : Z :=
  find_prefix_loop query (entries_ c) 0 (-1) 0.

(** [std::min_element] under [a.last_access_time < b.last_access_time]:
    the candidate moves only to a strictly smaller element. *)
Fixpoint min_element_loop (es : list PrefixEntry) (i smallest : nat)
    (smallest_time : Z) : nat :=
  match es with
  | [] => smallest
  | e :: es' =>
      if last_access_time e <? smallest_time
      then min_element_loop es' (S i) i (last_access_time e)
      else min_element_loop es' (S i) smallest smallest_time
  end.

Definition min_element (es : list PrefixEntry) : nat :=
  match es with
  | [] => 0%nat
  | e :: es' => min_element_loop es' 1 0 (last_access_time e)
  end.

Definition evict_lru (c : t) : t :=
  match entries_ c with
  | [] => c
  | _ :: _ =>
      {| max_entries_ := max_entries_ c;
         entries_ := delete (min_element (entries_ c)) (entries_ c) |}
  end.

(** The test [existing >= 0 && entries_[existing].tokens.size() ==
    tokens.size()] of [add_prefix]: the index of the entry to refresh.
    ([existing] is an index of [entries_] whenever their number is an
    [int]; the lookup has no other outcome then.) *)
Definition find_existing (c : t) (new_tokens : list Z) : option nat :=
  let existing := find_prefix c new_tokens in
  if 0 <=? existing then
    match entries_ c !! Z.to_nat existing with
    | Some e =>
        if Nat.eqb (length (tokens e)) (length new_tokens)
        then Some (Z.to_nat existing) else None
    | None => None
    end
  else None.

Definition refresh (data : list byte) (now : Z) (e : PrefixEntry) : PrefixEntry :=
  {| tokens := tokens e;
     cache_data := data;
     last_access_time := now;
     access_count := to_int (access_count e + 1) |}.

Definition new_entry (new_tokens : list Z) (data : list byte) (now : Z) : PrefixEntry :=
  {| tokens := new_tokens; cache_data := data;
     last_access_time := now; access_count := 1 |}.

(** [now] is the reading of [std::chrono::system_clock] taken by the call. *)
Definition add_prefix (c : t) (new_tokens : list Z) (data : list byte) (now : Z) : t :=
  match find_existing c new_tokens with
  | Some i =>
      {| max_entries_ := max_entries_ c;
         entries_ := alter (refresh data now) i (entries_ c) |}
  | None =>
      let c1 := if max_entries_ c <=? size c then evict_lru c else c in
      {| max_entries_ := max_entries_ c1;
         entries_ := entries_ c1 ++ [new_entry new_tokens data now] |}
  end.

(** What [get_entry] hands back: [nullptr], the address of [entries_[i]],
    or a read outside the vector (undefined behaviour in C++). *)
Inductive entry_ref :=
  | Null
  | EntryAt (i : nat)
  | OutOfBounds.

Definition touch (now : Z) (e : PrefixEntry) : PrefixEntry :=
  {| tokens := tokens e;
     cache_data := cache_data e;
     last_access_time := now;
     access_count := to_int (access_count e + 1) |}.

Definition get_entry (c : t) (index : Z) (now : Z) : entry_ref * t :=
  if (index <? 0) || (to_int (size c) <=? index) then (Null, c)
  else
    match entries_ c !! Z.to_nat index with
    | None => (OutOfBounds, c)
    | Some e =>
        (EntryAt (Z.to_nat index),
         {| max_entries_ := max_entries_ c;
            entries_ := <[Z.to_nat index := touch now e]> (entries_ c) |})
    end.

Definition clear (c : t) : t :=
  {| max_entries_ := max_entries_ c; entries_ := [] |}.

(** A sequence of [add_prefix] calls, each with its tokens, blob and clock
    reading. *)
Definition add_all (calls : list (list Z * list byte * Z)) (c : t) : t :=
  fold_left (λ c call, add_prefix c call.1.1 call.1.2 call.2) calls c.

End PrefixCacheManager.

(** ** IEEE-754 binary32, the C++ [float] *)

Module Float32.

Definition prec : Z := 24.
Definition emax : Z := 128.

Definition float : Type := spec_float.

(** Conversion of an integer, rounding to nearest even. *)
Definition of_Z (z : Z) : float := binary_normalize prec emax z 0 false.

Definition zero : float := S754_zero false.
Definition one : float := of_Z 1.
Definition neg_infinity : float := S754_infinity true.

Definition add : float → float → float := SFadd prec emax.
Definition sub : float → float → float := SFsub prec emax.
Definition mul : float → float → float := SFmul prec emax.
Definition div : float → float → float := SFdiv prec emax.

Definition ltb : float → float → bool := SFltb.
Definition leb : float → float → bool := SFleb.
Definition eqb : float → float → bool := SFeqb.

Definition is_nan (x : float) : bool :=
  match x with
  | S754_nan => true
  | _ => false
  end.

(** [std::signbit]: the sign bit of [x]. A NaN carries none in this
    representation. *)
Definition signbit (x : float) : bool :=
  match x with
  | S754_zero s | S754_infinity s | S754_finite s _ _ => s
  | S754_nan => false
  end.

(** A decimal literal [n/d] with small [n] and [d], such as [0.9f]: the
    correctly rounded quotient is the float nearest to the decimal. *)
Definition ratio (n d : Z) : float := div (of_Z n) (of_Z d).

End Float32.

(** ** sampler.cpp: Sampler *)

Module Sampler.

Record SamplerConfig := {
  temperature : Float32.float;
  top_p : Float32.float;
  top_k : Z;
  repeat_penalty : Float32.float;
  repeat_last_n : Z;
  frequency_penalty : Float32.float;
  presence_penalty : Float32.float;
  seed : Z;
}.

(** What the sampler takes from the C++ standard library: [std::exp] on
    [float], [std::sort] (whose order of equal keys is unspecified;
    [std::partial_sort] is read through it), and a draw of
    [std::discrete_distribution] from the state of the [std::mt19937]. *)
Class Platform := {
  rng : Type;
  std_exp : Float32.float → Float32.float;
  std_sort : ∀ A : Type, (A → A → bool) → list A → list A;
  discrete_distribution : list Float32.float → rng → Z * rng;
}.

(** The comparator is a strict weak ordering on the elements of [l], as
    [std::sort] requires. *)
Definition strict_weak_on {A : Type} (lt : A → A → bool) (l : list A) : Prop :=
  (∀ x, x ∈ l → lt x x = false) ∧
  (∀ x y z, x ∈ l → y ∈ l → z ∈ l →
     lt x y = true → lt y z = true → lt x z = true) ∧
  (∀ x y z, x ∈ l → y ∈ l → z ∈ l →
     lt x y = false → lt y z = false → lt x z = false).

(** What the standard promises of [std::sort] under such a comparator:
    a permutation in which no element is ordered before an earlier one. *)
Definition sorts (P : Platform) : Prop :=
  ∀ (A : Type) (lt : A → A → bool) (l : list A),
    strict_weak_on lt l →
    std_sort A lt l ≡ₚ l ∧
    StronglySorted (λ x y, lt y x = false) (std_sort A lt l).

(** What C promises of [expf]: a result that is never negative (a
    positive number, [+0] after underflow, [+inf], or a NaN). *)
Definition exp_not_negative (P : Platform) : Prop :=
  ∀ x, Float32.signbit (std_exp x) = false.

(** An address of an array of [float], and the memory holding the arrays. *)
Definition loc : Type := positive.
Definition heap : Type := gmap loc (list Float32.float).

Section WithPlatform.

Context {P : Platform}.

Record t := {
  config_ : SamplerConfig;
  rng_ : rng;
}.

Definition get_config (s : t) : SamplerConfig := config_ s.

(** Each stage below rewrites [logits[0 .. vocab_size)] in place; it is
    given as the new content of that window in terms of the old, and
    [vocab_size] is the length of the window. *)

Definition apply_temperature (cfg : SamplerConfig) (logits : list Float32.float)
    : list Float32.float :=
  if Float32.leb (temperature cfg) Float32.zero then logits
  else (λ x, Float32.div x (temperature cfg)) <$> logits.

(** The body of the first loop of [apply_repetition_penalty]. *)
Definition penalize (cfg : SamplerConfig) (logits : list Float32.float) (token : Z)
    : list Float32.float :=
  if (token <? 0) || (Z.of_nat (length logits) <=? token) then logits
  else
    match logits !! Z.to_nat token with
    | Some x =>
        <[Z.to_nat token :=
            if Float32.ltb Float32.zero x
            then Float32.div x (repeat_penalty cfg)
            else Float32.mul x (repeat_penalty cfg)]> logits
    | None => logits
    end.

(** [token_counts[token]] over the window. *)
Definition token_count (window : list Z) (token : Z) : Z :=
  Z.of_nat (length (filter (λ t, t = token) window)).

(** The body of the loop over [token_counts]. *)
Definition penalize_frequency (cfg : SamplerConfig) (window : list Z)
    (logits : list Float32.float) (token : Z) : list Float32.float :=
  if (token <? 0) || (Z.of_nat (length logits) <=? token) then logits
  else
    match logits !! Z.to_nat token with
    | Some x =>
        <[Z.to_nat token :=
            Float32.sub
              (Float32.sub x
                 (Float32.mul (frequency_penalty cfg)
                    (Float32.of_Z (token_count window token))))
              (presence_penalty cfg)]> logits
    | None => logits
    end.

(** The keys of the [std::unordered_map] are visited once each, here in
    the order of the window: the visits write to distinct elements, so
    their order does not matter. *)
Definition apply_repetition_penalty (cfg : SamplerConfig)
    (logits : list Float32.float) (last_tokens : list Z) : list Float32.float :=
  if Float32.eqb (repeat_penalty cfg) Float32.one || bool_decide (last_tokens = [])
  then logits
  else
    let n := to_int (Z.of_nat (length last_tokens)) in
    let start := Z.max 0 (to_int (n - repeat_last_n cfg)) in
    let window := drop (Z.to_nat start) (take (Z.to_nat n) last_tokens) in
    let logits := fold_left (penalize cfg) window logits in
    if negb (Float32.eqb (frequency_penalty cfg) Float32.zero) ||
       negb (Float32.eqb (presence_penalty cfg) Float32.zero)
    then fold_left (penalize_frequency cfg window) (remove_dups window) logits
    else logits.

Definition apply_top_k (cfg : SamplerConfig) (logits : list Float32.float)
    : list Float32.float :=
  if (top_k cfg <=? 0) || (Z.of_nat (length logits) <=? top_k cfg) then logits
  else
    let sorted_logits := std_sort _ (λ a b, Float32.ltb b a) logits in
    match sorted_logits !! Z.to_nat (top_k cfg - 1) with
    | Some threshold =>
        (λ x, if Float32.ltb x threshold then Float32.neg_infinity else x) <$> logits
    | None => logits
    end.

(** The loop of [apply_top_p] that normalises and accumulates: the index
    after the first element with which [cumsum] exceeds [top_p]. *)
Fixpoint cutoff_loop (cfg : SamplerConfig) (sum : Float32.float)
    (probs : list Float32.float) (i : nat) (cumsum : Float32.float) : option nat :=
  match probs with
  | [] => None
  | p :: probs' =>
      let cumsum := Float32.add cumsum (Float32.div p sum) in
      if Float32.ltb (top_p cfg) cumsum then Some (S i)
      else cutoff_loop cfg sum probs' (S i) cumsum
  end.

(** [None]: [logit_idx[0]] is read from an empty vector. *)
Definition apply_top_p (cfg : SamplerConfig) (logits : list Float32.float)
    : option (list Float32.float) :=
  if Float32.leb Float32.one (top_p cfg) then Some logits
  else
    let logit_idx := imap (λ i x, (x, i)) logits in
    let sorted := std_sort _ (λ a b, Float32.ltb b.1 a.1) logit_idx in
    match sorted with
    | [] => None
    | (max_logit, _) :: _ =>
        let probs := (λ a, std_exp (Float32.sub a.1 max_logit)) <$> sorted in
        let sum := fold_left Float32.add probs Float32.zero in
        let cutoff_idx :=
          default (length logits) (cutoff_loop cfg sum probs 0 Float32.zero) in
        Some (fold_left (λ l a, <[a.2 := Float32.neg_infinity]> l)
                (drop cutoff_idx sorted) logits)
    end.

(** [std::max_element] under [<]: the candidate moves only to a strictly
    greater element. *)
Fixpoint max_element_loop (l : list Float32.float) (i largest : nat)
    (largest_val : Float32.float) : nat :=
  match l with
  | [] => largest
  | x :: l' =>
      if Float32.ltb largest_val x
      then max_element_loop l' (S i) i x
      else max_element_loop l' (S i) largest largest_val
  end.

Definition max_element (l : list Float32.float) : nat :=
  match l with
  | [] => 0%nat
  | x :: l' => max_element_loop l' 1 0 x
  end.

(** [None]: the end iterator [std::max_element] gives for an empty range
    is dereferenced. *)
Definition softmax (logits : list Float32.float) : option (list Float32.float) :=
  match logits !! max_element logits with
  | None => None
  | Some max_val =>
      let exps := (λ x, std_exp (Float32.sub x max_val)) <$> logits in
      let sum := fold_left Float32.add exps Float32.zero in
      Some ((λ x, Float32.div x sum) <$> exps)
  end.

(** [sample] on the content of [logits[0 .. vocab_size)]: the token, the
    content left behind and the sampler afterwards. *)
Definition sample_window (s : t) (logits : list Float32.float) (last_tokens : list Z)
    : option (Z * list Float32.float * t) :=
  let cfg := config_ s in
  let logits := apply_repetition_penalty cfg logits last_tokens in
  let logits := apply_temperature cfg logits in
  let logits := apply_top_k cfg logits in
  match apply_top_p cfg logits with
  | None => None
  | Some logits =>
      if Float32.leb (temperature cfg) Float32.zero then
        Some (to_int (Z.of_nat (max_element logits)), logits, s)
      else
        match softmax logits with
        | None => None
        | Some probs =>
            let '(token, g) := discrete_distribution probs (rng_ s) in
            Some (token, probs, {| config_ := cfg; rng_ := g |})
        end
  end.

(** [sample(logits, vocab_size, last_tokens)] on the memory [m]. [None]
    stands for a call without defined behaviour: no array at [logits], an
    array shorter than [vocab_size], a negative [vocab_size], or one of
    the reads above. *)
Definition sample (s : t) (logits : loc) (vocab_size : Z) (last_tokens : list Z)
    (m : heap) : option (Z * t * heap) :=
  match m !! logits with
  | None => None
  | Some arr =>
      if (vocab_size <? 0) || (Z.of_nat (length arr) <? vocab_size) then None
      else
        let n := Z.to_nat vocab_size in
        match sample_window s (take n arr) last_tokens with
        | None => None
        | Some (token, window, s') =>
            Some (token, s', <[logits := window ++ drop n arr]> m)
        end
  end.

(** [sample_with_prob]: the vector [logits_copy] lives at a fresh address
    from its construction to the return. *)
Definition sample_with_prob (s : t) (logits : loc) (vocab_size : Z)
    (last_tokens : list Z) (m : heap) : option (Z * Float32.float * t * heap) :=
  match m !! logits with
  | None => None
  | Some arr =>
      if (vocab_size <? 0) || (Z.of_nat (length arr) <? vocab_size) then None
      else
        let logits_copy := fresh (dom m) in
        let m := <[logits_copy := take (Z.to_nat vocab_size) arr]> m in
        match sample s logits_copy vocab_size last_tokens m with
        | None => None
        | Some (token, s', m) =>
            if token <? 0 then None
            else
              match m !! logits_copy ≫= (λ v, v !! Z.to_nat token) with
              | None => None
              | Some out_prob => Some (token, out_prob, s', delete logits_copy m)
              end
        end
  end.

(** [get_top_k_tokens] on the content of [logits[0 .. vocab_size)]: the
    tokens in the first [k] places of the sorted pairs, each with its
    share of the exponentials of these [k]. [std::partial_sort] leaves in
    its first [k] places what a sort leaves there. [None]: [k] is negative
    ([logit_idx.begin() + k] lies before the vector), or [logit_idx[0]] is
    read from an empty vector. *)
Definition get_top_k_tokens (logits : list Float32.float) (k : Z)
    : option (list (Z * Float32.float)) :=
  let logit_idx := imap (λ i x, (x, to_int (Z.of_nat i))) logits in
  let k := Z.min k (Z.of_nat (length logits)) in
  if k <? 0 then None
  else
    let sorted := std_sort _ (λ a b, Float32.ltb b.1 a.1) logit_idx in
    match sorted with
    | [] => None
    | (max_logit, _) :: _ =>
        let result :=
          (λ a, (a.2, std_exp (Float32.sub a.1 max_logit))) <$>
          take (Z.to_nat k) sorted in
        let sum := fold_left Float32.add result.*2 Float32.zero in
        Some ((λ r, (r.1, Float32.div r.2 sum)) <$> result)
    end.

End WithPlatform.

Arguments t : clear implicits.

End Sampler.

(** ** sampler.cpp: GreedySampler *)

Module GreedySampler.

(** [sample] on the content of [logits[0 .. vocab_size)]: the distance
    from [logits] to [std::max_element], as an [int32_t]. *)
Definition sample (logits : list Float32.float) : Z :=
  to_int (Z.of_nat (Sampler.max_element logits)).

End GreedySampler.

(** ** inference_engine.cpp: LLMEngine *)

Module LLMEngine.

Record Message := {
  role : string;
  content : string;
}.

Record GenerationConfig := {
  temperature : Float32.float;
  top_p : Float32.float;
  top_k : Z;
  max_tokens : Z;
  repeat_penalty : Float32.float;
  stop_sequences : list string;
}.

Record EngineConfig := {
  model_path : string;
  n_ctx : Z;
  n_batch : Z;
  n_gpu_layers : Z;
  n_threads : Z;
  use_mmap : bool;
  use_mlock : bool;
  chat_template : string;
}.

Record EngineStats := {
  tokens_generated : Z;
  generation_time_ms : Float32.float;
  tokens_per_second : Float32.float;
  prompt_tokens : Z;
  context_tokens : Z;
}.

(** What the engine asks of its collaborators, in the order asked: the
    llama.cpp calls that change the attention state, and the stream
    callback. A batch is a list of (token, position, logits flag). *)
Inductive event :=
  | KvSeqRm (p0 p1 : Z)
  | KvClear
  | Decode (batch : list (Z * Z * bool))
  | Callback (piece : string) (is_end : bool).

(** The engine: [Impl]'s [token_history] and [n_past], the members
    [stop_flag_] and [stats_], whether model and context are loaded, and
    the events emitted so far (oldest first). *)
Record t := {
  initialized : bool;
  config : EngineConfig;
  token_history : list Z;
  n_past : Z;
  stop_flag_ : bool;
  stats_ : EngineStats;
  trace : list event;
}.

(** What one call of [generate_stream] meets outside the engine. *)
Record World := {
  (** [format_messages] followed by [tokenizer.encode]. *)
  encode_prompt : list Message → list Z;
  is_eos_token : Z → bool;
  decode_token : Z → string;
  (** [llama_decode] accepts the prompt batch. *)
  prompt_decode_ok : list (Z * Z * bool) → bool;
  (** [stop_generation()] has been called, by the callback or another
      thread, when iteration [i] polls the flag. *)
  stop_requested : nat → bool;
  (** [sampler.sample] at iteration [i] over the logits of the backend,
      with [generated_tokens] as its window. *)
  sample : nat → list Z → Z;
  (** [llama_decode] accepts the single-token batch of iteration [i]. *)
  token_decode_ok : nat → Z → bool;
  (** [end_time - start_time] in whole milliseconds. *)
  elapsed_ms : Z;
}.

Definition set_stop_flag (b : bool) (e : t) : t :=
  {| initialized := initialized e; config := config e;
     token_history := token_history e; n_past := n_past e;
     stop_flag_ := b; stats_ := stats_ e; trace := trace e |}.

Definition set_n_past (n : Z) (e : t) : t :=
  {| initialized := initialized e; config := config e;
     token_history := token_history e; n_past := n;
     stop_flag_ := stop_flag_ e; stats_ := stats_ e; trace := trace e |}.

Definition set_token_history (h : list Z) (e : t) : t :=
  {| initialized := initialized e; config := config e;
     token_history := h; n_past := n_past e;
     stop_flag_ := stop_flag_ e; stats_ := stats_ e; trace := trace e |}.

Definition set_stats (st : EngineStats) (e : t) : t :=
  {| initialized := initialized e; config := config e;
     token_history := token_history e; n_past := n_past e;
     stop_flag_ := stop_flag_ e; stats_ := st; trace := trace e |}.

Definition emit (ev : event) (e : t) : t :=
  {| initialized := initialized e; config := config e;
     token_history := token_history e; n_past := n_past e;
     stop_flag_ := stop_flag_ e; stats_ := stats_ e; trace := trace e ++ [ev] |}.

Definition set_prompt_tokens (n : Z) (st : EngineStats) : EngineStats :=
  {| tokens_generated := tokens_generated st;
     generation_time_ms := generation_time_ms st;
     tokens_per_second := tokens_per_second st;
     prompt_tokens := n;
     context_tokens := context_tokens st |}.

(** Why the generation loop was left. *)
Inductive exit_reason :=
  | MaxTokens
  | Cancelled
  | EosToken
  | StopSequence
  | DecodeFailed.

(** How [generate_stream] ends: an exception; a write past the end of the
    prompt batch, after which the behaviour is undefined; or the returned
    text (with, for reference, why the loop was left, at which iteration,
    and the local [generated_tokens]). *)
Inductive gen_result :=
  | Threw (what : string)
  | BatchOverrun
  | Returned (text : string) (why : exit_reason) (iteration : nat)
      (generated : list Z).

(** The locals of the loop beside the engine. *)
Record loop_state := {
  eng : t;
  result : string;
  generated_tokens : list Z;
}.

(** The scan over [config.stop_sequences]: the position [result.find]
    gives for the first stop sequence found in [result]. *)
Fixpoint find_stop (result : string) (stops : list string) : option nat :=
  match stops with
  | [] => None
  | stop_seq :: stops' =>
      match String.index 0 stop_seq result with
      | Some pos => Some pos
      | None => find_stop result stops'
      end
  end.

(** One pass through the body of the [for] loop at iteration [i]: [inl]
    when it breaks, [inr] when it falls through to [i++]. *)
Definition loop_body (w : World) (callback : bool) (cfg : GenerationConfig)
    (i : nat) (s : loop_state) : (exit_reason * loop_state) + loop_state :=
  let e := set_stop_flag (stop_flag_ (eng s) || stop_requested w i) (eng s) in
  if stop_flag_ e then
    inl (Cancelled, {| eng := e; result := result s;
                       generated_tokens := generated_tokens s |})
  else
    let new_token := sample w i (generated_tokens s) in
    if is_eos_token w new_token then
      inl (EosToken, {| eng := e; result := result s;
                        generated_tokens := generated_tokens s |})
    else
      let token_text := decode_token w new_token in
      let result1 := (result s ++ token_text)%string in
      match find_stop result1 (stop_sequences cfg) with
      | Some pos =>
          inl (StopSequence,
               {| eng := e; result := String.substring 0 pos result1;
                  generated_tokens := generated_tokens s |})
      | None =>
          let e := if callback then emit (Callback token_text false) e else e in
          let generated := generated_tokens s ++ [new_token] in
          let e := set_token_history (token_history e ++ [new_token]) e in
          let e := emit (Decode [(new_token, n_past e, true)]) e in
          if token_decode_ok w i new_token then
            inr {| eng := set_n_past (to_int (n_past e + 1)) e;
                   result := result1; generated_tokens := generated |}
          else
            inl (DecodeFailed,
                 {| eng := e; result := result1; generated_tokens := generated |})
      end.

(** [for (int i = 0; i < config.max_tokens; i++)] with [fuel] iterations
    left. *)
Fixpoint generate_loop (w : World) (callback : bool) (cfg : GenerationConfig)
    (fuel i : nat) (s : loop_state) : exit_reason * nat * loop_state :=
  match fuel with
  | O => (MaxTokens, i, s)
  | S fuel' =>
      match loop_body w callback cfg i s with
      | inl (why, s') => (why, i, s')
      | inr s' => generate_loop w callback cfg fuel' (S i) s'
      end
  end.

(** The prompt batch: the tokens from [n_past] on at their positions, the
    logits flag on the last one. *)
Definition prompt_batch (n_past : Z) (new_tokens : list Z) : list (Z * Z * bool) :=
  imap (λ i tok, (tok, n_past + Z.of_nat i,
                  Nat.eqb (S i) (length new_tokens))) new_tokens.

Definition final_stats (w : World) (e : t) (generated : list Z) : EngineStats :=
  let n := to_int (Z.of_nat (length generated)) in
  let ms := Float32.of_Z (elapsed_ms w) in
  {| tokens_generated := n;
     generation_time_ms := ms;
     tokens_per_second :=
       Float32.div (Float32.of_Z n) (Float32.div ms (Float32.of_Z 1000));
     prompt_tokens := prompt_tokens (stats_ e);
     context_tokens := n_past e |}.

(** How the part of [generate_stream] before the loop ends the call, when
    it does: with an exception, or by overrunning the prompt batch. *)
Inductive prepare_failure :=
  | Exception (what : string)
  | Overrun.

(** [generate_stream] up to the loop: the checks, the reuse of the
    cached prefix and the decoding of the rest of the prompt. [inl] is how
    the call ends here, [inr] the engine as the loop finds it.

    [llama_batch_init(n_batch, 0, 1)] allocates room for [n_batch] tokens
    and [llama_batch_add] stores each new token in the next slot without
    looking at that size: with more new tokens than [n_batch] (always, when
    [n_batch] is not positive) the loop writes past the allocation before
    [llama_decode] is reached. The engine paired with [Overrun] is the one
    before the first such write; what follows it is undefined. *)
Definition prepare (w : World) (messages : list Message) (e : t)
    : (prepare_failure * t) + t :=
  if negb (initialized e) then inl (Exception "Engine not initialized", e)
  else
    let e := set_stop_flag false e in
    let tokens := encode_prompt w messages in
    let e := set_stats (set_prompt_tokens (to_int (Z.of_nat (length tokens)))
                          (stats_ e)) e in
    if to_size_t (n_ctx (config e)) <=? Z.of_nat (length tokens) then
      inl (Exception "Prompt too long for context window", e)
    else
      let n_reuse := to_int (Z.of_nat (match_prefix tokens (token_history e))) in
      let e := if n_reuse <? n_past e
               then set_n_past n_reuse (emit (KvSeqRm n_reuse (-1)) e)
               else e in
      if n_past e <? to_int (Z.of_nat (length tokens)) then
        let new_tokens := drop (Z.to_nat (n_past e)) tokens in
        if n_batch (config e) <? Z.of_nat (length new_tokens) then
          inl (Overrun, e)
        else
          let batch := prompt_batch (n_past e) new_tokens in
          let e := emit (Decode batch) e in
          if prompt_decode_ok w batch
          then inr (set_token_history tokens
                      (set_n_past (to_int (Z.of_nat (length tokens))) e))
          else inl (Exception "Failed to decode prompt", e)
      else inr (set_token_history tokens e).

Definition generate_stream (w : World) (messages : list Message)
    (callback : bool) (cfg : GenerationConfig) (e : t) : gen_result * t :=
  match prepare w messages e with
  | inl (Exception what, e) => (Threw what, e)
  | inl (Overrun, e) => (BatchOverrun, e)
  | inr e =>
      let '(why, i, s) :=
        generate_loop w callback cfg (Z.to_nat (max_tokens cfg)) 0
          {| eng := e; result := ""; generated_tokens := [] |} in
      let e := if callback then emit (Callback "" true) (eng s) else eng s in
      let e := set_stats (final_stats w e (generated_tokens s)) e in
      (Returned (result s) why i (generated_tokens s), e)
  end.

Definition generate (w : World) (messages : list Message)
    (cfg : GenerationConfig) (e : t) : gen_result * t :=
  generate_stream w messages false cfg e.

Definition stop_generation (e : t) : t := set_stop_flag true e.

Definition clear_cache (e : t) : t :=
  if initialized e then
    set_token_history [] (set_n_past 0 (emit KvClear e))
  else e.

Definition get_stats (e : t) : EngineStats := stats_ e.

(** [stats_ = EngineStats()]: every statistic at its initial value. *)
Definition reset_stats (e : t) : t :=
  set_stats {| tokens_generated := 0;
               generation_time_ms := Float32.zero;
               tokens_per_second := Float32.zero;
               prompt_tokens := 0;
               context_tokens := 0 |} e.

(** [pimpl_] is null only in an engine that has been moved from; the
    engines of this model hold their [Impl]. *)
Definition get_context_usage (e : t) : Z := n_past e.

Definition get_max_context (e : t) : Z := n_ctx (config e).

(** *** Session files

    The file system is the content of each path that can be opened for
    reading, and whether a path can be opened for writing. Once a stream is
    open its writes succeed: the code never looks at their outcome. *)
Record FileSystem := {
  files : gmap string (list byte);
  writable : string → bool;
}.

(** [length] many [int32_t] in memory, little-endian. *)
Definition bytes_of_tokens (toks : list Z) : list byte :=
  flat_map (le_split 4) toks.

Fixpoint tokens_of_bytes (n : nat) (bs : list byte) : list Z :=
  match n with
  | O => []
  | S n' => to_int (le_combine (take 4 bs)) :: tokens_of_bytes n' (drop 4 bs)
  end.

Definition save_session (fs : FileSystem) (path : string) (e : t)
    : bool * FileSystem :=
  if negb (initialized e) then (false, fs)
  else if negb (writable fs path) then (false, fs)
  else
    let size := Z.of_nat (length (token_history e)) in
    (true,
     {| files := <[path := le_split 8 size ++ bytes_of_tokens (token_history e)]>
                   (files fs);
        writable := writable fs |}).

(** [file.read] into the vector after [resize(size)]: the bytes the file
    still has overwrite the front of the vector's memory, the rest of it
    stays as [resize] left it. *)
Definition read_into (body : list byte) (size : nat) (history : list Z) : list Z :=
  let memory := bytes_of_tokens (resize size 0 history) in
  let got := take (4 * size) body in
  tokens_of_bytes size (got ++ drop (length got) memory).

(** How [load_session] ends: with its [bool], or with the
    [std::length_error] of [token_history.resize(size)] for a [size] beyond
    what a [std::vector<int32_t>] can hold ([KVCacheManager.max_size]); the
    vector, and with it the engine, is then as before the call. (Memory
    for a vector within that size is taken to be there.) *)
Inductive load_result :=
  | Loaded (ok : bool)
  | ResizeThrew.

(** [None] stands for undefined behaviour: a file shorter than the
    eight-byte length leaves [size] uninitialised. *)
Definition load_session (fs : FileSystem) (path : string) (e : t)
    : option (load_result * t) :=
  if negb (initialized e) then Some (Loaded false, e)
  else
    match files fs !! path with
    | None => Some (Loaded false, e)
    | Some bytes =>
        if (length bytes <? 8)%nat then None
        else
          let size := le_combine (take 8 bytes) in
          if KVCacheManager.max_size <? size then Some (ResizeThrew, e)
          else
            let e := set_token_history
                       (read_into (drop 8 bytes) (Z.to_nat size) (token_history e)) e in
            Some (Loaded true, clear_cache e)
    end.

(** The value of [token_history] right before [load_session] calls
    [clear_cache]. *)
Definition loaded_tokens (bytes : list byte) (history : list Z) : list Z :=
  read_into (drop 8 bytes) (Z.to_nat (le_combine (take 8 bytes))) history.

End LLMEngine.

(** ** tokenizer.cpp: Tokenizer *)

Module Tokenizer.

Inductive ChatTemplateType :=
  | AUTO
  | CHATML
  | LLAMA2
  | LLAMA3
  | QWEN
  | CUSTOM.

Record SpecialTokens := {
  bos_token : Z;
  eos_token : Z;
  pad_token : Z;
  unk_token : Z;
  im_start : Z;
  im_end : Z;
}.

(** The model behind the [void*]: what llama.cpp answers for it. *)
Record llama_model := {
  llama_n_vocab : Z;
  llama_token_bos : Z;
  llama_token_eos : Z;
  llama_token_pad : Z;
  (** [llama_token_to_piece] into the buffer of 256 bytes, by token and
      [special] flag; [None] when it returns a negative count. *)
  llama_token_to_piece : Z → bool → option string;
}.

Record t := {
  llama_model_ : option llama_model;
  vocab_size_ : Z;
  special_tokens_ : SpecialTokens;
  template_type_ : ChatTemplateType;
  custom_template_ : string;
}.

(** The default-constructed tokenizer. *)
Definition create : t :=
  {| llama_model_ := None;
     vocab_size_ := 0;
     special_tokens_ :=
       {| bos_token := 1; eos_token := 2; pad_token := 0; unk_token := 0;
          im_start := -1; im_end := -1 |};
     template_type_ := AUTO;
     custom_template_ := "" |}.

Definition decode_token (tk : t) (token : Z) : string :=
  match llama_model_ tk with
  | None => ""
  | Some model => default "" (llama_token_to_piece model token true)
  end.

Definition get_token_text (tk : t) (token : Z) : string :=
  match llama_model_ tk with
  | None => ""
  | Some model => default "" (llama_token_to_piece model token false)
  end.

Definition is_special_token (tk : t) (token : Z) : bool :=
  let sp := special_tokens_ tk in
  (token =? bos_token sp) || (token =? eos_token sp) || (token =? pad_token sp) ||
  (token =? im_start sp) || (token =? im_end sp).

Definition is_eos_token (tk : t) (token : Z) : bool :=
  let sp := special_tokens_ tk in
  (token =? eos_token sp) || (token =? im_end sp).

Definition decode (tk : t) (tokens : list Z) (skip_special : bool) : string :=
  fold_left
    (λ result token,
       if skip_special && is_special_token tk token then result
       else (result ++ decode_token tk token)%string)
    tokens "".

(** [text.find(needle) != std::string::npos]. *)
Definition contains (needle text : string) : bool :=
  match String.index 0 needle text with
  | Some _ => true
  | None => false
  end.

(** The loop of [detect_template_type] over the first tokens of the
    vocabulary, standing at token [i] with [fuel] tokens to go. *)
Fixpoint detect_loop (tk : t) (fuel : nat) (i : Z) : ChatTemplateType :=
  match fuel with
  | O => CHATML
  | S fuel' =>
      let token_text := get_token_text tk i in
      if contains "[INST]" token_text then LLAMA2
      else if contains "<|start_header_id|>" token_text then LLAMA3
      else detect_loop tk fuel' (i + 1)
  end.

Definition detect_template_type (tk : t) : ChatTemplateType :=
  if (0 <=? im_start (special_tokens_ tk)) && (0 <=? im_end (special_tokens_ tk))
  then CHATML
  else detect_loop tk (Z.to_nat (Z.min (vocab_size_ tk) 10000)) 0.

(** The loop of [init_from_llama_model] that looks the ChatML tokens up
    by their text. *)
Fixpoint find_chatml_loop (tk : t) (fuel : nat) (i : Z) (sp : SpecialTokens)
    : SpecialTokens :=
  match fuel with
  | O => sp
  | S fuel' =>
      let token_text := get_token_text tk i in
      let sp :=
        if String.eqb token_text "<|im_start|>" then
          {| bos_token := bos_token sp; eos_token := eos_token sp;
             pad_token := pad_token sp; unk_token := unk_token sp;
             im_start := i; im_end := im_end sp |}
        else if String.eqb token_text "<|im_end|>" then
          {| bos_token := bos_token sp; eos_token := eos_token sp;
             pad_token := pad_token sp; unk_token := unk_token sp;
             im_start := im_start sp; im_end := i |}
        else sp in
      find_chatml_loop tk fuel' (i + 1) sp
  end.

Definition init_from_llama_model (tk : t) (model : llama_model) : t :=
  let tk :=
    {| llama_model_ := Some model;
       vocab_size_ := llama_n_vocab model;
       special_tokens_ :=
         {| bos_token := llama_token_bos model;
            eos_token := llama_token_eos model;
            pad_token := llama_token_pad model;
            unk_token := unk_token (special_tokens_ tk);
            im_start := im_start (special_tokens_ tk);
            im_end := im_end (special_tokens_ tk) |};
       template_type_ := template_type_ tk;
       custom_template_ := custom_template_ tk |} in
  let tk :=
    {| llama_model_ := llama_model_ tk;
       vocab_size_ := vocab_size_ tk;
       special_tokens_ :=
         find_chatml_loop tk (Z.to_nat (vocab_size_ tk)) 0 (special_tokens_ tk);
       template_type_ := template_type_ tk;
       custom_template_ := custom_template_ tk |} in
  {| llama_model_ := llama_model_ tk;
     vocab_size_ := vocab_size_ tk;
     special_tokens_ := special_tokens_ tk;
     template_type_ := detect_template_type tk;
     custom_template_ := custom_template_ tk |}.

Definition set_chat_template (tk : t) (type : ChatTemplateType) : t :=
  {| llama_model_ := llama_model_ tk;
     vocab_size_ := vocab_size_ tk;
     special_tokens_ := special_tokens_ tk;
     template_type_ := type;
     custom_template_ := custom_template_ tk |}.

Definition set_custom_template (tk : t) (template_str : string) : t :=
  {| llama_model_ := llama_model_ tk;
     vocab_size_ := vocab_size_ tk;
     special_tokens_ := special_tokens_ tk;
     template_type_ := CUSTOM;
     custom_template_ := template_str |}.

(** The line feed of the C++ string literals. *)
Definition nl : string := String (ascii_of_nat 10) "".

(** Each template writes to a [std::ostringstream]; a message is a pair
    of role and content. *)
Definition apply_chatml_template (messages : list (string * string))
    (add_generation_prompt : bool) : string :=
  let ss :=
    fold_left
      (λ ss m, ss ++ "<|im_start|>" ++ m.1 ++ nl ++ m.2 ++ "<|im_end|>" ++ nl)%string
      messages ""%string in
  if add_generation_prompt then (ss ++ "<|im_start|>assistant" ++ nl)%string else ss.

(** The locals of [apply_llama2_template]. *)
Record llama2_state := {
  ss : string;
  first_user : bool;
  system_msg : string;
}.

Definition llama2_step (st : llama2_state) (m : string * string) : llama2_state :=
  if String.eqb m.1 "system" then
    {| ss := ss st; first_user := first_user st; system_msg := m.2 |}
  else if String.eqb m.1 "user" then
    {| ss :=
         (ss st ++ "<s>[INST] " ++
          (if first_user st && negb (String.eqb (system_msg st) "")
           then "<<SYS>>" ++ nl ++ system_msg st ++ nl ++ "<</SYS>>" ++ nl ++ nl
           else "") ++
          m.2 ++ " [/INST]")%string;
       first_user := false;
       system_msg := system_msg st |}
  else if String.eqb m.1 "assistant" then
    {| ss := (ss st ++ " " ++ m.2 ++ " </s>")%string;
       first_user := first_user st;
       system_msg := system_msg st |}
  else st.

Definition apply_llama2_template (messages : list (string * string))
    (add_generation_prompt : bool) : string :=
  ss (fold_left llama2_step messages
        {| ss := ""; first_user := true; system_msg := "" |}).

Definition apply_llama3_template (messages : list (string * string))
    (add_generation_prompt : bool) : string :=
  let ss :=
    fold_left
      (λ ss m, ss ++ "<|start_header_id|>" ++ m.1 ++ "<|end_header_id|>" ++ nl ++ nl ++
               m.2 ++ "<|eot_id|>")%string
      messages "<|begin_of_text|>"%string in
  if add_generation_prompt
  then (ss ++ "<|start_header_id|>assistant<|end_header_id|>" ++ nl ++ nl)%string
  else ss.

Definition apply_qwen_template (messages : list (string * string))
    (add_generation_prompt : bool) : string :=
  apply_chatml_template messages add_generation_prompt.

Definition apply_chat_template (tk : t) (messages : list (string * string))
    (add_generation_prompt : bool) : string :=
  match template_type_ tk with
  | CHATML | QWEN => apply_chatml_template messages add_generation_prompt
  | LLAMA2 => apply_llama2_template messages add_generation_prompt
  | LLAMA3 => apply_llama3_template messages add_generation_prompt
  | CUSTOM => apply_chatml_template messages add_generation_prompt
  | AUTO => apply_chatml_template messages add_generation_prompt
  end.

End Tokenizer.

(** [LLMEngine::Impl::format_messages]: the messages as pairs, through
    the chat template with the generation prompt. *)
Definition format_messages (tokenizer : Tokenizer.t) (messages : list LLMEngine.Message)
    : string :=
  Tokenizer.apply_chat_template tokenizer
    ((λ msg, (LLMEngine.role msg, LLMEngine.content msg)) <$> messages) true.

(** ** The order of binary32 and the greedy choice

    Every float that is not a NaN has a place in the lexicographic order of
    its [float_key]; [Float32.ltb] is that order. *)

Definition float_key (x : Float32.float) : Z * Z * Z :=
  match x with
  | S754_nan => (0, 0, 0)
  | S754_infinity true => (-2, 0, 0)
  | S754_infinity false => (2, 0, 0)
  | S754_zero _ => (0, 0, 0)
  | S754_finite false m e => (1, e, Z.pos m)
  | S754_finite true m e => (-1, - e, - Z.pos m)
  end.

Definition key_lt (a b : Z * Z * Z) : Prop :=
  a.1.1 < b.1.1 ∨
  (a.1.1 = b.1.1 ∧ (a.1.2 < b.1.2 ∨ (a.1.2 = b.1.2 ∧ a.2 < b.2))).

Definition no_nan (l : list Float32.float) : Prop :=
  Forall (λ x, Float32.is_nan x = false) l.

(** No element of [l] is greater than [x]. *)
Definition dominates (x : Float32.float) (l : list Float32.float) : Prop :=
  ∀ y, y ∈ l → Float32.ltb x y = false.

(** [i] is the index of a maximum element of [l]. *)
Definition is_max_index (l : list Float32.float) (i : nat) : Prop :=
  ∃ x, l !! i = Some x ∧ dominates x l.

(** [l'] is [l] with some elements replaced by minus infinity, a maximum
    of [l] standing untouched: what the top-k and top-p filters do. *)
Definition thinned (l l' : list Float32.float) : Prop :=
  Forall2 (λ x x', x' = x ∨ x' = Float32.neg_infinity) l l' ∧
  ∃ i x, l !! i = Some x ∧ l' !! i = Some x ∧ dominates x l.

(** ** The specification's reading of the softmax

    The sum of [l] on top of [acc], added up in index order. *)
Fixpoint float_sum (acc : Float32.float) (l : list Float32.float) : Float32.float :=
  match l with
  | [] => acc
  | y :: l' => float_sum (Float32.add acc y) l'
  end.

(** [probs] are the softmax probabilities of the logits [x]: with [M] a
    greatest element of [x], [probs[i]] is [exp(x[i] - M)] divided by the
    sum of these exponentials over the whole of [x]. *)
Definition is_softmax (P : Sampler.Platform) (x probs : list Float32.float) : Prop :=
  ∃ M, M ∈ x ∧ dominates M x ∧
    length probs = length x ∧
    ∀ (i : nat) y, x !! i = Some y →
      probs !! i =
      Some (Float32.div
              (Sampler.std_exp (Float32.sub y M))
              (float_sum Float32.zero ((λ z, Sampler.std_exp (Float32.sub z M)) <$> x))).

(** ** A platform for the examples

    An insertion sort (one of the orders [std::sort] may produce), an
    exponential by a Taylor polynomial of degree four at [x / 256] raised
    to the power 256, and a discrete distribution that inverts the
    cumulative weights at the next value of a linear congruential
    generator. *)

Fixpoint insert_sorted {A : Type} (lt : A → A → bool) (x : A) (l : list A) : list A :=
  match l with
  | [] => [x]
  | y :: l' => if lt y x then y :: insert_sorted lt x l' else x :: l
  end.

Definition insertion_sort (A : Type) (lt : A → A → bool) (l : list A) : list A :=
  foldr (insert_sorted lt) [] l.

Definition exp_by_squaring (x : Float32.float) : Float32.float :=
  match x with
  | S754_infinity true => Float32.zero
  | S754_infinity false => x
  | _ =>
      let t := Float32.div x (Float32.of_Z 256) in
      let t2 := Float32.mul t t in
      let poly :=
        Float32.add Float32.one
          (Float32.add t
             (Float32.add (Float32.div t2 (Float32.of_Z 2))
                (Float32.add (Float32.div (Float32.mul t2 t) (Float32.of_Z 6))
                   (Float32.div (Float32.mul t2 t2) (Float32.of_Z 24))))) in
      Nat.iter 8 (λ y, Float32.mul y y) poly
  end.

Fixpoint pick_index (target : Float32.float) (weights : list Float32.float)
    (i : nat) (cumsum : Float32.float) : nat :=
  match weights with
  | [] => Nat.pred i
  | p :: weights' =>
      let cumsum := Float32.add cumsum p in
      if Float32.ltb target cumsum then i
      else pick_index target weights' (S i) cumsum
  end.

Definition lcg_draw (weights : list Float32.float) (g : Z) : Z * Z :=
  let g' := (1103515245 * g + 12345) mod 2 ^ 31 in
  let u := Float32.div (Float32.of_Z g') (Float32.of_Z (2 ^ 31)) in
  let total := fold_left Float32.add weights Float32.zero in
  (Z.of_nat (pick_index (Float32.mul u total) weights 0 Float32.zero), g').

Definition example_platform : Sampler.Platform :=
  {| Sampler.rng := Z;
     Sampler.std_exp := exp_by_squaring;
     Sampler.std_sort := insertion_sort;
     Sampler.discrete_distribution := lcg_draw |}.

(** The configuration of the repository's sampler tests ([top_p = 0.9],
    [top_k = 40], [seed = 42]) with the given temperature and repetition
    penalty. *)
Definition sampler_config0 (temperature repeat_penalty : Float32.float)
    : Sampler.SamplerConfig :=
  {| Sampler.temperature := temperature;
     Sampler.top_p := Float32.ratio 9 10;
     Sampler.top_k := 40;
     Sampler.repeat_penalty := repeat_penalty;
     Sampler.repeat_last_n := 64;
     Sampler.frequency_penalty := Float32.zero;
     Sampler.presence_penalty := Float32.zero;
     Sampler.seed := 42 |}.

(** Greedy decoding with both filters switched off ([top_k = 0],
    [top_p = 1]) and a repetition penalty of 2. *)
Definition sampler_config_greedy_penalty : Sampler.SamplerConfig :=
  {| Sampler.temperature := Float32.zero;
     Sampler.top_p := Float32.one;
     Sampler.top_k := 0;
     Sampler.repeat_penalty := Float32.of_Z 2;
     Sampler.repeat_last_n := 64;
     Sampler.frequency_penalty := Float32.zero;
     Sampler.presence_penalty := Float32.zero;
     Sampler.seed := 42 |}.

Definition example_sampler (cfg : Sampler.SamplerConfig) : Sampler.t example_platform :=
  @Sampler.Build_t example_platform cfg 42.

(** The logits of the greedy test, [0.1, 0.5, 0.2, 0.9, 0.3]. *)
Definition logits_greedy_test : list Float32.float :=
  [Float32.ratio 1 10; Float32.ratio 5 10; Float32.ratio 2 10;
   Float32.ratio 9 10; Float32.ratio 3 10].

(** The logits [-1, 2]. *)
Definition logits_m1_2 : list Float32.float := [Float32.of_Z (-1); Float32.of_Z 2].

(** The logits [3, 2]: a repetition penalty of 2 on token 0 turns them
    into [1.5, 2]. *)
Definition logits_3_2 : list Float32.float := [Float32.of_Z 3; Float32.of_Z 2].

(** A memory with the array [arr] at address 1. *)
Definition heap_with (arr : list Float32.float) : Sampler.heap := {[ 1%positive := arr ]}.

(** The token a call of [sample] returned, if it returned. *)
Definition sampled (P : Sampler.Platform)
    (r : option (Z * Sampler.t P * Sampler.heap)) : option Z :=
  (λ x, x.1.1) <$> r.

(** The memory a call left behind, if it returned. *)
Definition heap_after {A : Type} (r : option (A * Sampler.heap)) : option Sampler.heap :=
  snd <$> r.

(** ** The specification's reading of the prefix store

    [find_prefix_claim es query r] is the sentence of the specification about
    [find_prefix]: [r] is the index of the longest entry among those whose
    tokens are a prefix of [query], a tie going to the most recent
    [last_access_time], and [r] is [-1] when no entry's tokens are a prefix
    of [query]. *)

Definition find_prefix_claim (es : list PrefixCacheManager.PrefixEntry)
    (query : list Z) (r : Z) : Prop :=
  (r = -1 ∧
   ∀ e, e ∈ es → ¬ PrefixCacheManager.tokens e `prefix_of` query) ∨
  (∃ i e, r = Z.of_nat i ∧ es !! i = Some e ∧
     PrefixCacheManager.tokens e `prefix_of` query ∧
     ∀ j e', es !! j = Some e' →
       PrefixCacheManager.tokens e' `prefix_of` query →
       (length (PrefixCacheManager.tokens e') ≤ length (PrefixCacheManager.tokens e))%nat ∧
       (length (PrefixCacheManager.tokens e') = length (PrefixCacheManager.tokens e) →
        PrefixCacheManager.last_access_time e' ≤ PrefixCacheManager.last_access_time e)).

(** The same sentence with the entries that hold an empty token sequence
    left out: [r] is the index of the longest entry among those whose
    non-empty tokens are a prefix of [query], a tie going to the most
    recent [last_access_time], and [r] is [-1] when no entry with
    non-empty tokens is a prefix of [query]. *)
Definition find_prefix_nonempty_claim (es : list PrefixCacheManager.PrefixEntry)
    (query : list Z) (r : Z) : Prop :=
  (r = -1 ∧
   ∀ e, e ∈ es → PrefixCacheManager.tokens e ≠ [] →
        ¬ PrefixCacheManager.tokens e `prefix_of` query) ∨
  (∃ i e, r = Z.of_nat i ∧ es !! i = Some e ∧
     PrefixCacheManager.tokens e ≠ [] ∧
     PrefixCacheManager.tokens e `prefix_of` query ∧
     ∀ j e', es !! j = Some e' →
       PrefixCacheManager.tokens e' `prefix_of` query →
       (length (PrefixCacheManager.tokens e') ≤ length (PrefixCacheManager.tokens e))%nat ∧
       (length (PrefixCacheManager.tokens e') = length (PrefixCacheManager.tokens e) →
        PrefixCacheManager.last_access_time e' ≤ PrefixCacheManager.last_access_time e)).

(** The cache states of a program: what the calls of the public
    interface make of the store that the constructor built. *)
Inductive cache_call :=
  | AddPrefix (tokens : list Z) (cache_data : list byte) (now : Z)
  | GetEntry (index : Z) (now : Z)
  | Clear.

Definition run_call (c : PrefixCacheManager.t) (call : cache_call)
    : PrefixCacheManager.t :=
  match call with
  | AddPrefix toks data now => PrefixCacheManager.add_prefix c toks data now
  | GetEntry index now => (PrefixCacheManager.get_entry c index now).2
  | Clear => PrefixCacheManager.clear c
  end.

Definition run_calls (calls : list cache_call) (c : PrefixCacheManager.t)
    : PrefixCacheManager.t :=
  fold_left run_call calls c.

(** No non-empty token sequence occurs at two places of [ts]. *)
Definition distinct_nonempty (ts : list (list Z)) : Prop :=
  ∀ (i j : nat) t, ts !! i = Some t → ts !! j = Some t → t ≠ [] → i = j.

(** ** The course of a generation, told from outside

    [sampled_tokens w k] are the tokens the sampler yields in the first [k]
    iterations, each drawn with its predecessors as the window. *)
Fixpoint sampled_tokens (w : LLMEngine.World) (k : nat) : list Z :=
  match k with
  | O => []
  | S k' =>
      let g := sampled_tokens w k' in
      g ++ [LLMEngine.sample w k' g]
  end.

(** The pieces of a token sequence, concatenated. *)
Fixpoint pieces (w : LLMEngine.World) (toks : list Z) : string :=
  match toks with
  | [] => ""
  | tok :: toks' => (LLMEngine.decode_token w tok ++ pieces w toks')%string
  end.

(** The events of committing the tokens [toks], the first at position
    [pos]: the callback (when there is one) and the single-token batch. *)
Fixpoint commit_events (w : LLMEngine.World) (callback : bool) (pos : Z)
    (toks : list Z) : list LLMEngine.event :=
  match toks with
  | [] => []
  | tok :: toks' =>
      (if callback
       then [LLMEngine.Callback (LLMEngine.decode_token w tok) false] else []) ++
      LLMEngine.Decode [(tok, pos, true)] ::
      commit_events w callback (pos + 1) toks'
  end.

(** The loop has committed exactly the tokens [g] on top of the history
    [hist0], the positions from [n0] on and the trace [tr0] it started
    with, and the backend has taken [n] positions. *)
Definition committed (w : LLMEngine.World) (callback : bool)
    (hist0 : list Z) (n0 : Z) (tr0 : list LLMEngine.event)
    (g : list Z) (n : Z) (s : LLMEngine.loop_state) : Prop :=
  LLMEngine.generated_tokens s = g ∧
  LLMEngine.token_history (LLMEngine.eng s) = hist0 ++ g ∧
  LLMEngine.n_past (LLMEngine.eng s) = n ∧
  LLMEngine.trace (LLMEngine.eng s) = tr0 ++ commit_events w callback n0 g.

(** What holds when the loop is left at iteration [k] for the reason
    [why]. Only a failed decode leaves a token in the history that the
    backend has not taken; a stop sequence leaves the token that completed
    it out of everything. *)
Definition loop_exit (w : LLMEngine.World) (callback : bool)
    (cfg : LLMEngine.GenerationConfig)
    (hist0 : list Z) (n0 : Z) (tr0 : list LLMEngine.event)
    (why : LLMEngine.exit_reason) (k : nat) (s : LLMEngine.loop_state) : Prop :=
  let g := sampled_tokens w k in
  match why with
  | LLMEngine.DecodeFailed =>
      committed w callback hist0 n0 tr0 (sampled_tokens w (S k)) (n0 + Z.of_nat k) s
  | LLMEngine.StopSequence =>
      committed w callback hist0 n0 tr0 g (n0 + Z.of_nat k) s ∧
      ∃ pos,
        LLMEngine.find_stop
          (pieces w g ++ LLMEngine.decode_token w (LLMEngine.sample w k g))%string
          (LLMEngine.stop_sequences cfg) = Some pos ∧
        LLMEngine.result s =
          String.substring 0 pos
            (pieces w g ++ LLMEngine.decode_token w (LLMEngine.sample w k g))%string
  | _ =>
      committed w callback hist0 n0 tr0 g (n0 + Z.of_nat k) s ∧
      LLMEngine.result s = pieces w g
  end.

(** No [int] of the generation overflows: the context size is a
    non-negative [int] and leaves room for [max_tokens] more positions. *)
Definition ints_in_range (e : LLMEngine.t) (cfg : LLMEngine.GenerationConfig) : Prop :=
  0 ≤ LLMEngine.n_ctx (LLMEngine.config e) ∧
  LLMEngine.n_ctx (LLMEngine.config e) + Z.max 0 (LLMEngine.max_tokens cfg) ≤ INT_MAX.

(** Inputs of the examples. *)
Definition cache_config0 : KVCacheManager.CacheConfig :=
  {| KVCacheManager.n_ctx := 1024; KVCacheManager.n_layer := 32;
     KVCacheManager.n_head := 32; KVCacheManager.head_dim := 128;
     KVCacheManager.use_fp16 := true |}.

Definition blob0 : list byte := [Byte.x01].

(** A store of capacity ten after [add_prefix({}, blob)] at time 1. *)
Definition store_with_empty_prefix : PrefixCacheManager.t :=
  PrefixCacheManager.add_prefix (PrefixCacheManager.create 10) [] blob0 1.

(** The store of the repository's LRU test: capacity two, prefixes [{1}]
    and [{2}] added at times 1 and 2. *)
Definition store_lru_test : PrefixCacheManager.t :=
  PrefixCacheManager.add_all [([1], blob0, 1); ([2], blob0, 2)]
    (PrefixCacheManager.create 2).

Definition stats0 : LLMEngine.EngineStats :=
  {| LLMEngine.tokens_generated := 0;
     LLMEngine.generation_time_ms := Float32.zero;
     LLMEngine.tokens_per_second := Float32.zero;
     LLMEngine.prompt_tokens := 0;
     LLMEngine.context_tokens := 0 |}.

(** A freshly constructed engine with context size [n_ctx]. *)
Definition engine0 (n_ctx : Z) : LLMEngine.t :=
  {| LLMEngine.initialized := true;
     LLMEngine.config :=
       {| LLMEngine.model_path := "model.gguf"; LLMEngine.n_ctx := n_ctx;
          LLMEngine.n_batch := 512; LLMEngine.n_gpu_layers := 35;
          LLMEngine.n_threads := 4; LLMEngine.use_mmap := true;
          LLMEngine.use_mlock := false; LLMEngine.chat_template := "" |};
     LLMEngine.token_history := [];
     LLMEngine.n_past := 0;
     LLMEngine.stop_flag_ := false;
     LLMEngine.stats_ := stats0;
     LLMEngine.trace := [] |}.

(** The same engine after a turn that left the history [1, 2, 3]. *)
Definition engine123 : LLMEngine.t :=
  LLMEngine.set_n_past 3 (LLMEngine.set_token_history [1; 2; 3] (engine0 8)).

(** A freshly constructed engine with context size 8 and batch size
    [n_batch]. *)
Definition engine_n_batch (n_batch : Z) : LLMEngine.t :=
  {| LLMEngine.initialized := true;
     LLMEngine.config :=
       {| LLMEngine.model_path := "model.gguf"; LLMEngine.n_ctx := 8;
          LLMEngine.n_batch := n_batch; LLMEngine.n_gpu_layers := 35;
          LLMEngine.n_threads := 4; LLMEngine.use_mmap := true;
          LLMEngine.use_mlock := false; LLMEngine.chat_template := "" |};
     LLMEngine.token_history := [];
     LLMEngine.n_past := 0;
     LLMEngine.stop_flag_ := false;
     LLMEngine.stats_ := stats0;
     LLMEngine.trace := [] |}.

(** The default [GenerationConfig] with [max_tokens] set. *)
Definition generation_config0 (max_tokens : Z) : LLMEngine.GenerationConfig :=
  {| LLMEngine.temperature := Float32.ratio 7 10;
     LLMEngine.top_p := Float32.ratio 9 10;
     LLMEngine.top_k := 40;
     LLMEngine.max_tokens := max_tokens;
     LLMEngine.repeat_penalty := Float32.ratio 11 10;
     LLMEngine.stop_sequences := ["<|im_end|>"; "<|endoftext|>"; "</s>"] |}.

Definition hello : list LLMEngine.Message :=
  [{| LLMEngine.role := "user"; LLMEngine.content := "hello" |}].

(** A world whose prompt is [1, 2, 3], whose sampler yields token 7 (piece
    [a]) and whose backend refuses every single-token batch. *)
Definition world_decode_fails : LLMEngine.World :=
  {| LLMEngine.encode_prompt := λ _, [1; 2; 3];
     LLMEngine.is_eos_token := λ tok, tok =? 0;
     LLMEngine.decode_token := λ _, "a";
     LLMEngine.prompt_decode_ok := λ _, true;
     LLMEngine.stop_requested := λ _, false;
     LLMEngine.sample := λ _ _, 7;
     LLMEngine.token_decode_ok := λ _ _, false;
     LLMEngine.elapsed_ms := 20 |}.

(** A world whose sampler yields token 7 (piece [</]) and then token 8
    (piece [s>]), completing the stop sequence [</s>] in the second
    iteration; the backend accepts every batch. *)
Definition world_stop_sequence : LLMEngine.World :=
  {| LLMEngine.encode_prompt := λ _, [1; 2; 3];
     LLMEngine.is_eos_token := λ tok, tok =? 0;
     LLMEngine.decode_token := λ tok, if tok =? 7 then "</" else "s>";
     LLMEngine.prompt_decode_ok := λ _, true;
     LLMEngine.stop_requested := λ _, false;
     LLMEngine.sample := λ i _, if Nat.eqb i 0 then 7 else 8;
     LLMEngine.token_decode_ok := λ _ _, true;
     LLMEngine.elapsed_ms := 20 |}.

(** A world whose sampler yields the end-of-sequence token at once, within
    the millisecond in which the call began. *)
Definition world_instant_eos : LLMEngine.World :=
  {| LLMEngine.encode_prompt := λ _, [1; 2; 3];
     LLMEngine.is_eos_token := λ tok, tok =? 0;
     LLMEngine.decode_token := λ _, "a";
     LLMEngine.prompt_decode_ok := λ _, true;
     LLMEngine.stop_requested := λ _, false;
     LLMEngine.sample := λ _ _, 0;
     LLMEngine.token_decode_ok := λ _ _, true;
     LLMEngine.elapsed_ms := 0 |}.

(** A world whose prompt is [1, 2, 9]: it leaves the history [1, 2, 3]
    after two tokens. *)
Definition world_prompt_129 : LLMEngine.World :=
  {| LLMEngine.encode_prompt := λ _, [1; 2; 9];
     LLMEngine.is_eos_token := λ tok, tok =? 0;
     LLMEngine.decode_token := λ _, "a";
     LLMEngine.prompt_decode_ok := λ _, true;
     LLMEngine.stop_requested := λ _, false;
     LLMEngine.sample := λ _ _, 0;
     LLMEngine.token_decode_ok := λ _ _, true;
     LLMEngine.elapsed_ms := 20 |}.

(** A model with a vocabulary of three tokens, whose texts are [[INST]],
    [<|im_start|>] and [<|im_end|>]. *)
Definition model_inst_chatml : Tokenizer.llama_model :=
  {| Tokenizer.llama_n_vocab := 3;
     Tokenizer.llama_token_bos := 1;
     Tokenizer.llama_token_eos := 2;
     Tokenizer.llama_token_pad := 0;
     Tokenizer.llama_token_to_piece := λ token _,
       if token =? 0 then Some "[INST]"
       else if token =? 1 then Some "<|im_start|>"
       else if token =? 2 then Some "<|im_end|>"
       else None |}.

(** A conversation with a message of a role that Llama 2 does not know. *)
Definition messages_with_tool : list (string * string) :=
  [("system", "be brief"); ("tool", "42"); ("user", "hi"); ("assistant", "hello")].

(** The tokenizer of a model whose every token has the piece [a], as in
    [world_decode_fails]. *)
Definition tokenizer_all_a : Tokenizer.t :=
  Tokenizer.init_from_llama_model Tokenizer.create
    {| Tokenizer.llama_n_vocab := 8;
       Tokenizer.llama_token_bos := 1;
       Tokenizer.llama_token_eos := 0;
       Tokenizer.llama_token_pad := 0;
       Tokenizer.llama_token_to_piece := λ _ _, Some "a" |}.

(** A file system with no file yet, in which every path can be created. *)
Definition empty_disk : LLMEngine.FileSystem :=
  {| LLMEngine.files := ∅; LLMEngine.writable := λ _, true |}.

(** ** The generation loop, told by what it keeps

    [callbacks tr] are the calls of the stream callback recorded in the
    trace [tr], in order, each with its piece and its [is_end] flag. *)
Definition callbacks (tr : list LLMEngine.event) : list (string * bool) :=
  omap (λ ev, match ev with
              | LLMEngine.Callback piece is_end => Some (piece, is_end)
              | _ => None
              end) tr.

(** The calls that stream the tokens [toks]: one per token with its
    piece, when there is a callback at all. *)
Definition streamed (w : LLMEngine.World) (callback : bool) (toks : list Z)
    : list (string * bool) :=
  if callback then (λ tok, (LLMEngine.decode_token w tok, false)) <$> toks else [].

(** What holds whenever the loop, entered with the engine [e0], stands at
    the head of iteration [i]. *)
Definition loop_keeps (w : LLMEngine.World) (callback : bool) (e0 : LLMEngine.t)
    (i : nat) (s : LLMEngine.loop_state) : Prop :=
  let g := LLMEngine.generated_tokens s in
  length g = i ∧
  LLMEngine.result s = pieces w g ∧
  LLMEngine.token_history (LLMEngine.eng s) = LLMEngine.token_history e0 ++ g ∧
  callbacks (LLMEngine.trace (LLMEngine.eng s)) =
    callbacks (LLMEngine.trace e0) ++ streamed w callback g ∧
  Forall (λ tok, LLMEngine.is_eos_token w tok = false) g ∧
  LLMEngine.stats_ (LLMEngine.eng s) = LLMEngine.stats_ e0 ∧
  LLMEngine.stop_flag_ (LLMEngine.eng s) = false ∧
  (∀ j : nat, (j < i)%nat → LLMEngine.stop_requested w j = false).

(** What holds when the loop is left at iteration [k] for the reason
    [why]. *)
Definition loop_left (w : LLMEngine.World) (callback : bool) (e0 : LLMEngine.t)
    (why : LLMEngine.exit_reason) (k : nat) (s : LLMEngine.loop_state) : Prop :=
  let g := LLMEngine.generated_tokens s in
  length g = (match why with LLMEngine.DecodeFailed => S k | _ => k end) ∧
  (why ≠ LLMEngine.StopSequence → LLMEngine.result s = pieces w g) ∧
  LLMEngine.token_history (LLMEngine.eng s) = LLMEngine.token_history e0 ++ g ∧
  callbacks (LLMEngine.trace (LLMEngine.eng s)) =
    callbacks (LLMEngine.trace e0) ++ streamed w callback g ∧
  Forall (λ tok, LLMEngine.is_eos_token w tok = false) g ∧
  LLMEngine.stats_ (LLMEngine.eng s) = LLMEngine.stats_ e0 ∧
  (∀ j : nat, (j < k)%nat → LLMEngine.stop_requested w j = false) ∧
  (why ≠ LLMEngine.Cancelled → why ≠ LLMEngine.MaxTokens →
   LLMEngine.stop_requested w k = false).

(** A float that is a number: neither an infinity nor a NaN. *)
Definition is_finite (x : Float32.float) : bool :=
  match x with
  | S754_zero _ | S754_finite _ _ _ => true
  | S754_infinity _ | S754_nan => false
  end.

(** Greedy decoding with every stage switched off: no penalty
    ([repeat_penalty = 1]), [top_k = 0], [top_p = 1]. *)
Definition sampler_config_plain_greedy : Sampler.SamplerConfig :=
  {| Sampler.temperature := Float32.zero;
     Sampler.top_p := Float32.one;
     Sampler.top_k := 0;
     Sampler.repeat_penalty := Float32.one;
     Sampler.repeat_last_n := 64;
     Sampler.frequency_penalty := Float32.zero;
     Sampler.presence_penalty := Float32.zero;
     Sampler.seed := 42 |}.

(** The configuration of the repository's top-k test: [top_k = 2] at
    temperature 1. *)
Definition sampler_config_top_2 : Sampler.SamplerConfig :=
  {| Sampler.temperature := Float32.one;
     Sampler.top_p := Float32.ratio 9 10;
     Sampler.top_k := 2;
     Sampler.repeat_penalty := Float32.ratio 11 10;
     Sampler.repeat_last_n := 64;
     Sampler.frequency_penalty := Float32.zero;
     Sampler.presence_penalty := Float32.zero;
     Sampler.seed := 42 |}.

(** The cache of the repository's tests after [update({1, 2, 3, 4, 5})]. *)
Definition cache12345 : KVCacheManager.t :=
  KVCacheManager.update (KVCacheManager.create cache_config0) [1; 2; 3; 4; 5].

(** * Part II: properties *)

(** ** Machine integers *)

Lemma to_int_small z : INT_MIN ≤ z ≤ INT_MAX → to_int z = z.
Proof.
  unfold to_int, INT_MIN, INT_MAX. intros Hz.
  rewrite Z.mod_small; lia.
Qed.

Lemma to_int_range z : INT_MIN ≤ to_int z ≤ INT_MAX.
Proof.
  unfold to_int, INT_MIN, INT_MAX.
  pose proof (Z.mod_pos_bound (z + 2 ^ 31) (2 ^ 32)). lia.
Qed.

(** Wrapping a non-negative count never yields more than the count. *)
Lemma to_int_le_nonneg z : 0 ≤ z → to_int z ≤ z.
Proof.
  unfold to_int. intros Hz.
  pose proof (Z.mod_le (z + 2 ^ 31) (2 ^ 32)). lia.
Qed.

Lemma to_size_t_small z : 0 ≤ z < 2 ^ 64 → to_size_t z = z.
Proof. unfold to_size_t. intros Hz. now rewrite Z.mod_small. Qed.

Lemma max_size_value : KVCacheManager.max_size = 2 ^ 61 - 1.
Proof. reflexivity. Qed.

Lemma to_int_of_nat (n : nat) : Z.of_nat n ≤ INT_MAX → to_int (Z.of_nat n) = Z.of_nat n.
Proof. intros Hn. apply to_int_small. unfold INT_MIN. lia. Qed.

(** ** The prefix scan *)

Lemma scan_prefix_lcp fuel : ∀ i a b n,
  (Nat.min (length (drop i a)) (length (drop i b)) ≤ fuel)%nat →
  scan_prefix fuel i a b n = (n + lcp_len (drop i a) (drop i b))%nat.
Proof.
  induction fuel as [|fuel IH]; intros i a b n Hfuel; simpl.
  - destruct (drop i a), (drop i b); simpl in *; lia.
  - destruct (a !! i) as [x|] eqn:Ha.
    + destruct (b !! i) as [y|] eqn:Hb.
      * rewrite (drop_S a x i Ha), (drop_S b y i Hb) in *. simpl in *.
        destruct (Z.eqb x y); [|lia].
        rewrite IH by lia. lia.
      * apply lookup_ge_None in Hb. rewrite (drop_ge b i Hb).
        destruct (drop i a); simpl; lia.
    + apply lookup_ge_None in Ha. rewrite (drop_ge a i Ha). simpl. lia.
Qed.

Lemma match_prefix_lcp a b : match_prefix a b = lcp_len a b.
Proof.
  unfold match_prefix. rewrite scan_prefix_lcp; rewrite ?drop_0; lia.
Qed.

Lemma lcp_len_le_l a : ∀ b, (lcp_len a b ≤ length a)%nat.
Proof.
  induction a as [|x a IH]; intros [|y b]; simpl; try lia.
  destruct (Z.eqb x y); [specialize (IH b)|]; lia.
Qed.

Lemma lcp_len_le_r a : ∀ b, (lcp_len a b ≤ length b)%nat.
Proof.
  induction a as [|x a IH]; intros [|y b]; simpl; try lia.
  destruct (Z.eqb x y); [specialize (IH b)|]; lia.
Qed.

Lemma lcp_len_take a : ∀ b, take (lcp_len a b) a = take (lcp_len a b) b.
Proof.
  induction a as [|x a IH]; intros [|y b]; simpl; try reflexivity.
  destruct (Z.eqb_spec x y) as [->|]; simpl; [|reflexivity].
  now rewrite IH.
Qed.

Lemma lcp_len_max a : ∀ b p,
  p `prefix_of` a → p `prefix_of` b → (length p ≤ lcp_len a b)%nat.
Proof.
  induction a as [|x a IH]; intros b p [ka Ha] [kb Hb].
  - destruct p; [simpl; lia | discriminate].
  - destruct p as [|z p]; [simpl; lia|].
    simpl in Ha. injection Ha as <- ->.
    destruct b as [|y b]; [discriminate|].
    simpl in Hb. injection Hb as -> ->.
    simpl. rewrite Z.eqb_refl.
    assert (length p ≤ lcp_len (p ++ ka) (p ++ kb))%nat; [|lia].
    apply IH; eexists; reflexivity.
Qed.

Lemma lcp_len_is_lcp a b : is_lcp_length (lcp_len a b) a b.
Proof.
  split.
  - exists (take (lcp_len a b) a). split; [|split].
    + rewrite length_take. pose proof (lcp_len_le_l a b). lia.
    + apply prefix_take.
    + rewrite lcp_len_take. apply prefix_take.
  - intros p. apply lcp_len_max.
Qed.

Lemma is_lcp_length_unique n m a b :
  is_lcp_length n a b → is_lcp_length m a b → n = m.
Proof.
  intros [(p & Hp & Hpa & Hpb) Hn] [(q & Hq & Hqa & Hqb) Hm].
  specialize (Hn q Hqa Hqb). specialize (Hm p Hpa Hpb). lia.
Qed.

Lemma is_lcp_length_sym n a b : is_lcp_length n a b → is_lcp_length n b a.
Proof.
  intros [(p & Hp & Ha & Hb) Hmax]. split.
  - exists p. auto.
  - intros q Hqb Hqa. auto.
Qed.

(** An entry is matched in full exactly when it is a prefix of the query. *)
Lemma match_prefix_full_iff (query toks : list Z) :
  match_prefix query toks = length toks ↔ toks `prefix_of` query.
Proof.
  rewrite match_prefix_lcp. split.
  - intros Hlen. pose proof (lcp_len_take query toks) as Htake.
    rewrite Hlen, firstn_all in Htake. rewrite <- Htake. apply prefix_take.
  - intros Hpre.
    pose proof (lcp_len_max query toks toks Hpre (reflexivity _)).
    pose proof (lcp_len_le_r query toks). lia.
Qed.

(** ** KVCacheManager *)

Lemma update_consistent c toks :
  Z.of_nat (length toks) ≤ INT_MAX →
  KVCacheManager.consistent (KVCacheManager.update c toks).
Proof.
  intros Hlen. unfold KVCacheManager.consistent. simpl.
  now apply to_int_of_nat.
Qed.

Lemma clear_consistent c : KVCacheManager.consistent (KVCacheManager.clear c).
Proof. reflexivity. Qed.

Lemma truncate_consistent c len :
  KVCacheManager.consistent c →
  KVCacheManager.consistent (KVCacheManager.truncate c len).
Proof.
  unfold KVCacheManager.consistent, KVCacheManager.truncate. intros Hc.
  destruct (Z.ltb_spec len 0); simpl.
  - destruct (Z.ltb_spec 0 (KVCacheManager.cached_tokens_ c)); simpl; [|assumption].
    now rewrite length_resize.
  - destruct (Z.ltb_spec len (KVCacheManager.cached_tokens_ c)); simpl; [|assumption].
    rewrite length_resize. lia.
Qed.

(** In a consistent state whose history fits an [int], the cap by
    [cached_tokens_] never bites. *)
Lemma check_reusable_consistent c query :
  KVCacheManager.consistent c →
  Z.of_nat (length (KVCacheManager.token_history_ c)) ≤ INT_MAX →
  KVCacheManager.check_reusable c query =
  Z.of_nat (lcp_len query (KVCacheManager.token_history_ c)).
Proof.
  unfold KVCacheManager.consistent, KVCacheManager.check_reusable.
  intros Hc Hlen. rewrite match_prefix_lcp, Hc.
  pose proof (lcp_len_le_r query (KVCacheManager.token_history_ c)).
  rewrite to_int_of_nat by lia. lia.
Qed.

(** Whatever the state, the result is never more than the common prefix. *)
Lemma check_reusable_never_more c query :
  KVCacheManager.check_reusable c query ≤
  Z.of_nat (lcp_len query (KVCacheManager.token_history_ c)).
Proof.
  unfold KVCacheManager.check_reusable. rewrite match_prefix_lcp.
  pose proof (to_int_le_nonneg
    (Z.of_nat (lcp_len query (KVCacheManager.token_history_ c)))).
  lia.
Qed.

(** C7. For every stored token history [H] (stored by [update]; its length
    is an [int]) and every query [Q], [check_reusable Q] is the length of
    the longest common prefix of [H] and [Q]. *)
Theorem check_reusable_longest_common_prefix
    (c : KVCacheManager.t) (H Q : list Z) :
  Z.of_nat (length H) ≤ INT_MAX →
  ∃ n : nat,
    KVCacheManager.check_reusable (KVCacheManager.update c H) Q = Z.of_nat n ∧
    is_lcp_length n H Q.
Proof.
  intros Hlen. exists (lcp_len Q H). split.
  - now rewrite check_reusable_consistent by (try apply update_consistent; assumption).
  - apply is_lcp_length_sym, lcp_len_is_lcp.
Qed.

(** The repository's test: history [1..5], query [1,2,3,6,7]. *)
Lemma check_reusable_longest_common_prefix_witness :
  ∃ n : nat,
    KVCacheManager.check_reusable
      (KVCacheManager.update (KVCacheManager.create cache_config0) [1; 2; 3; 4; 5])
      [1; 2; 3; 6; 7] = Z.of_nat n ∧
    is_lcp_length n [1; 2; 3; 4; 5] [1; 2; 3; 6; 7].
Proof.
  apply check_reusable_longest_common_prefix. vm_compute. discriminate.
Defined.

Example check_reusable_test :
  KVCacheManager.check_reusable
    (KVCacheManager.update (KVCacheManager.create cache_config0) [1; 2; 3; 4; 5])
    [1; 2; 3; 6; 7] = 3.
Proof. reflexivity. Qed.

(** ** PrefixCacheManager: find_prefix *)

(** What the loop returns from index [i] on, with [best_match] and
    [best_match_len] as they stand: either nothing longer turns up, or the
    first of the longest entries that do. *)
Lemma find_prefix_loop_spec query es : ∀ i best blen,
  let r := PrefixCacheManager.find_prefix_loop query es i best blen in
  (r = best ∧
   ∀ e, e ∈ es → PrefixCacheManager.tokens e `prefix_of` query →
        (length (PrefixCacheManager.tokens e) ≤ blen)%nat) ∨
  (∃ k e, r = to_int (Z.of_nat (i + k)) ∧ es !! k = Some e ∧
     PrefixCacheManager.tokens e `prefix_of` query ∧
     (blen < length (PrefixCacheManager.tokens e))%nat ∧
     ∀ j e', es !! j = Some e' →
       PrefixCacheManager.tokens e' `prefix_of` query →
       (length (PrefixCacheManager.tokens e') ≤ length (PrefixCacheManager.tokens e))%nat ∧
       (length (PrefixCacheManager.tokens e') = length (PrefixCacheManager.tokens e) →
        (k ≤ j)%nat)).
Proof.
  induction es as [|e es IH]; intros i best blen; simpl.
  - left. split; [reflexivity|]. intros e He. inversion He.
  - destruct (Nat.eqb_spec (match_prefix query (PrefixCacheManager.tokens e))
                (length (PrefixCacheManager.tokens e))) as [Hfull|Hpart]; simpl.
    + pose proof (proj1 (match_prefix_full_iff _ _) Hfull) as Hpre.
      rewrite Hfull.
      destruct (Nat.ltb_spec blen (length (PrefixCacheManager.tokens e))) as [Hlt|Hge];
        cbn [andb].
      * right.
        destruct (IH (S i) (to_int (Z.of_nat i)) (length (PrefixCacheManager.tokens e)))
          as [[-> Hrest] | (k & e2 & -> & Hk & Hpre2 & Hlen2 & Hmax)].
        -- exists 0%nat, e. rewrite Nat.add_0_r.
           split; [reflexivity|]. split; [reflexivity|]. split; [exact Hpre|].
           split; [exact Hlt|]. intros j e' Hj Hpre'.
           destruct j as [|j]; simpl in Hj; [injection Hj as <-; lia|].
           assert (length (PrefixCacheManager.tokens e') ≤
                   length (PrefixCacheManager.tokens e))%nat; [|lia].
           apply Hrest; [|assumption]. eapply list_elem_of_lookup_2; eassumption.
        -- exists (S k), e2. replace (i + S k)%nat with (S i + k)%nat by lia.
           split; [reflexivity|]. split; [exact Hk|]. split; [exact Hpre2|].
           split; [lia|]. intros j e' Hj Hpre'.
           destruct j as [|j]; simpl in Hj; [injection Hj as <-; lia|].
           destruct (Hmax j e' Hj Hpre'). lia.
      * destruct (IH (S i) best blen)
          as [[-> Hrest] | (k & e2 & -> & Hk & Hpre2 & Hlen2 & Hmax)].
        -- left. split; [reflexivity|]. intros e' [->|He']%elem_of_cons Hpre'; [lia|].
           now apply Hrest.
        -- right. exists (S k), e2. replace (i + S k)%nat with (S i + k)%nat by lia.
           split; [reflexivity|]. split; [exact Hk|]. split; [exact Hpre2|].
           split; [exact Hlen2|]. intros j e' Hj Hpre'.
           destruct j as [|j]; simpl in Hj; [injection Hj as <-; lia|].
           destruct (Hmax j e' Hj Hpre'). lia.
    + assert (¬ PrefixCacheManager.tokens e `prefix_of` query) as Hnpre
        by (intros Hpre; apply Hpart; now apply match_prefix_full_iff).
      destruct (IH (S i) best blen)
        as [[-> Hrest] | (k & e2 & -> & Hk & Hpre2 & Hlen2 & Hmax)].
      * left. split; [reflexivity|].
        intros e' [->|He']%elem_of_cons Hpre'; [contradiction|]. now apply Hrest.
      * right. exists (S k), e2. replace (i + S k)%nat with (S i + k)%nat by lia.
        split; [reflexivity|]. split; [exact Hk|]. split; [exact Hpre2|].
        split; [exact Hlen2|]. intros j e' Hj Hpre'.
        destruct j as [|j]; simpl in Hj; [injection Hj as <-; contradiction|].
        destruct (Hmax j e' Hj Hpre'). lia.
Qed.

(** [find_prefix] with the indices read as naturals: nothing but entries
    with empty tokens is a prefix of the query, or the result is the
    first of the longest entries that are. *)
Lemma find_prefix_cases (c : PrefixCacheManager.t) (query : list Z) :
  PrefixCacheManager.size c ≤ INT_MAX →
  (PrefixCacheManager.find_prefix c query = -1 ∧
   ∀ e, e ∈ PrefixCacheManager.entries_ c →
        PrefixCacheManager.tokens e `prefix_of` query →
        PrefixCacheManager.tokens e = []) ∨
  (∃ (i : nat) e,
     PrefixCacheManager.find_prefix c query = Z.of_nat i ∧
     PrefixCacheManager.entries_ c !! i = Some e ∧
     PrefixCacheManager.tokens e ≠ [] ∧
     PrefixCacheManager.tokens e `prefix_of` query ∧
     ∀ (j : nat) e', PrefixCacheManager.entries_ c !! j = Some e' →
       PrefixCacheManager.tokens e' `prefix_of` query →
       (length (PrefixCacheManager.tokens e') ≤ length (PrefixCacheManager.tokens e))%nat ∧
       (length (PrefixCacheManager.tokens e') = length (PrefixCacheManager.tokens e) →
        (i ≤ j)%nat)).
Proof.
  unfold PrefixCacheManager.size, PrefixCacheManager.find_prefix. intros Hsize.
  destruct (find_prefix_loop_spec query (PrefixCacheManager.entries_ c) 0 (-1) 0)
    as [[Hr Hnone] | (k & e & Hr & Hk & Hpre & Hlen & Hmax)].
  - left. split; [exact Hr|]. intros e He Hpre.
    specialize (Hnone e He Hpre).
    destruct (PrefixCacheManager.tokens e); [reflexivity | simpl in Hnone; lia].
  - right. exists k, e. simpl in Hr.
    pose proof (lookup_lt_Some _ _ _ Hk).
    rewrite to_int_of_nat in Hr by lia.
    split; [exact Hr|]. split; [exact Hk|]. split; [|split; [exact Hpre | exact Hmax]].
    intros Hnil. rewrite Hnil in Hlen. simpl in Hlen. lia.
Qed.

Example find_prefix_lru_test :
  PrefixCacheManager.find_prefix store_lru_test [2; 4; 5] = 1.
Proof. reflexivity. Qed.

(** C5 as stated fails: after [add_prefix({}, blob)] the store holds an
    entry whose (empty) token sequence is a prefix of every query, and
    [find_prefix] still answers [-1]. *)
Lemma find_prefix_misses_empty_entry :
  ¬ find_prefix_claim (PrefixCacheManager.entries_ store_with_empty_prefix) [1]
      (PrefixCacheManager.find_prefix store_with_empty_prefix [1]).
Proof.
  change (PrefixCacheManager.find_prefix store_with_empty_prefix [1]) with (-1).
  intros [[_ Hnone] | (i & e & Hi & _)]; [|lia].
  apply (Hnone (PrefixCacheManager.new_entry [] blob0 1)).
  - apply list_elem_of_here.
  - apply prefix_nil.
Qed.

(** ** PrefixCacheManager: eviction and capacity *)

Lemma min_element_loop_spec es : ∀ i s st,
  let r := PrefixCacheManager.min_element_loop es i s st in
  (r = s ∧ ∀ e, e ∈ es → st ≤ PrefixCacheManager.last_access_time e) ∨
  (∃ k e, r = (i + k)%nat ∧ es !! k = Some e ∧
     PrefixCacheManager.last_access_time e < st ∧
     ∀ e', e' ∈ es →
       PrefixCacheManager.last_access_time e ≤ PrefixCacheManager.last_access_time e').
Proof.
  induction es as [|e es IH]; intros i s st; simpl.
  - left. split; [reflexivity|]. intros e He. inversion He.
  - destruct (Z.ltb_spec (PrefixCacheManager.last_access_time e) st) as [Hlt|Hge].
    + right.
      destruct (IH (S i) i (PrefixCacheManager.last_access_time e))
        as [[-> Hrest] | (k & e2 & -> & Hk & Hlt2 & Hmin)].
      * exists 0%nat, e. rewrite Nat.add_0_r. repeat split; try assumption.
        intros e' [->|He']%elem_of_cons; [lia | now apply Hrest].
      * exists (S k), e2. replace (i + S k)%nat with (S i + k)%nat by lia.
        repeat split; try assumption; try lia.
        intros e' [->|He']%elem_of_cons; [lia | now apply Hmin].
    + destruct (IH (S i) s st) as [[-> Hrest] | (k & e2 & -> & Hk & Hlt2 & Hmin)].
      * left. split; [reflexivity|].
        intros e' [->|He']%elem_of_cons; [lia | now apply Hrest].
      * right. exists (S k), e2. replace (i + S k)%nat with (S i + k)%nat by lia.
        repeat split; try assumption.
        intros e' [->|He']%elem_of_cons; [lia | now apply Hmin].
Qed.

(** [std::min_element] points at an entry whose [last_access_time] no
    other entry undercuts. *)
Lemma min_element_spec es :
  es ≠ [] →
  ∃ e, es !! PrefixCacheManager.min_element es = Some e ∧
       ∀ e', e' ∈ es →
         PrefixCacheManager.last_access_time e ≤ PrefixCacheManager.last_access_time e'.
Proof.
  destruct es as [|e0 es]; [congruence|]. intros _. simpl.
  destruct (min_element_loop_spec es 1 0 (PrefixCacheManager.last_access_time e0))
    as [[-> Hrest] | (k & e & -> & Hk & Hlt & Hmin)].
  - exists e0. split; [reflexivity|].
    intros e' [->|He']%elem_of_cons; [lia | now apply Hrest].
  - exists e. split; [exact Hk|].
    intros e' [->|He']%elem_of_cons; [lia | now apply Hmin].
Qed.

Lemma evict_lru_length c :
  PrefixCacheManager.entries_ c ≠ [] →
  length (PrefixCacheManager.entries_ (PrefixCacheManager.evict_lru c)) =
  (length (PrefixCacheManager.entries_ c) - 1)%nat.
Proof.
  intros Hne. destruct (min_element_spec _ Hne) as (e & He & _).
  unfold PrefixCacheManager.evict_lru.
  destruct (PrefixCacheManager.entries_ c) eqn:Hes; [congruence|].
  cbn [PrefixCacheManager.entries_]. apply length_delete. eauto.
Qed.

Lemma add_prefix_max_entries c toks data now :
  PrefixCacheManager.max_entries_ (PrefixCacheManager.add_prefix c toks data now) =
  PrefixCacheManager.max_entries_ c.
Proof.
  unfold PrefixCacheManager.add_prefix, PrefixCacheManager.evict_lru.
  destruct (PrefixCacheManager.find_existing c toks); [reflexivity|].
  destruct (_ <=? _); [|reflexivity].
  destruct (PrefixCacheManager.entries_ c); reflexivity.
Qed.

(** One call keeps the store within a capacity of at least one. *)
Lemma add_prefix_bounded c toks data now :
  1 ≤ PrefixCacheManager.max_entries_ c →
  PrefixCacheManager.size c ≤ PrefixCacheManager.max_entries_ c →
  PrefixCacheManager.size (PrefixCacheManager.add_prefix c toks data now) ≤
  PrefixCacheManager.max_entries_ c.
Proof.
  unfold PrefixCacheManager.add_prefix. intros Hmax Hsize.
  destruct (PrefixCacheManager.find_existing c toks) as [i|].
  - unfold PrefixCacheManager.size in *. cbn [PrefixCacheManager.entries_].
    now rewrite length_alter.
  - cbv zeta.
    destruct (Z.leb_spec (PrefixCacheManager.max_entries_ c) (PrefixCacheManager.size c))
      as [Hfull|Hroom];
      unfold PrefixCacheManager.size in *; cbn [PrefixCacheManager.entries_];
      rewrite length_app; simpl.
    + rewrite evict_lru_length; [lia|].
      intros Hnil. rewrite Hnil in Hfull. simpl in Hfull. lia.
    + lia.
Qed.

Lemma add_all_bounded calls : ∀ c,
  1 ≤ PrefixCacheManager.max_entries_ c →
  PrefixCacheManager.size c ≤ PrefixCacheManager.max_entries_ c →
  PrefixCacheManager.size (PrefixCacheManager.add_all calls c) ≤
  PrefixCacheManager.max_entries_ c.
Proof.
  induction calls as [|[[toks data] now] calls IH]; intros c Hmax Hsize; simpl.
  - exact Hsize.
  - change (PrefixCacheManager.size
              (PrefixCacheManager.add_all calls
                 (PrefixCacheManager.add_prefix c toks data now)) ≤
            PrefixCacheManager.max_entries_ c).
    rewrite <- (add_prefix_max_entries c toks data now).
    apply IH; rewrite add_prefix_max_entries; [assumption|].
    now apply add_prefix_bounded.
Qed.

(** An insertion into a full store first erases the entry
    [std::min_element] points at, then appends the new one. *)
Lemma add_prefix_evicts_lru c toks data now :
  PrefixCacheManager.find_existing c toks = None →
  PrefixCacheManager.max_entries_ c ≤ PrefixCacheManager.size c →
  PrefixCacheManager.entries_ c ≠ [] →
  ∃ i e,
    PrefixCacheManager.entries_ c !! i = Some e ∧
    (∀ e', e' ∈ PrefixCacheManager.entries_ c →
       PrefixCacheManager.last_access_time e ≤ PrefixCacheManager.last_access_time e') ∧
    PrefixCacheManager.entries_ (PrefixCacheManager.add_prefix c toks data now) =
    delete i (PrefixCacheManager.entries_ c) ++
    [PrefixCacheManager.new_entry toks data now].
Proof.
  intros Hmiss Hfull Hne.
  destruct (min_element_spec _ Hne) as (e & He & Hmin).
  exists (PrefixCacheManager.min_element (PrefixCacheManager.entries_ c)), e.
  split; [exact He|]. split; [exact Hmin|].
  unfold PrefixCacheManager.add_prefix. rewrite Hmiss.
  destruct (Z.leb_spec (PrefixCacheManager.max_entries_ c) (PrefixCacheManager.size c));
    [|lia].
  unfold PrefixCacheManager.evict_lru.
  destruct (PrefixCacheManager.entries_ c) eqn:Hes; [congruence|]. reflexivity.
Qed.

Lemma add_all_max_entries calls : ∀ c,
  PrefixCacheManager.max_entries_ (PrefixCacheManager.add_all calls c) =
  PrefixCacheManager.max_entries_ c.
Proof.
  induction calls as [|[[toks data] now] calls IH]; intros c; simpl; [reflexivity|].
  change (PrefixCacheManager.max_entries_
            (PrefixCacheManager.add_all calls
               (PrefixCacheManager.add_prefix c toks data now)) =
          PrefixCacheManager.max_entries_ c).
  now rewrite IH, add_prefix_max_entries.
Qed.

(** C8 (amended). For a store constructed with capacity [max_entries >= 1]
    and every sequence of [add_prefix] calls, the number of entries never
    exceeds [max_entries]; and when a further call inserts at capacity, it
    first evicts an entry with the smallest [last_access_time]. *)
Theorem prefix_cache_bounded_lru (max_entries : Z)
    (calls : list (list Z * list byte * Z)) :
  1 ≤ max_entries →
  let c := PrefixCacheManager.add_all calls (PrefixCacheManager.create max_entries) in
  PrefixCacheManager.size c ≤ max_entries ∧
  ∀ toks data now,
    PrefixCacheManager.find_existing c toks = None →
    PrefixCacheManager.size c = max_entries →
    ∃ i e,
      PrefixCacheManager.entries_ c !! i = Some e ∧
      (∀ e', e' ∈ PrefixCacheManager.entries_ c →
         PrefixCacheManager.last_access_time e ≤ PrefixCacheManager.last_access_time e') ∧
      PrefixCacheManager.entries_ (PrefixCacheManager.add_prefix c toks data now) =
      delete i (PrefixCacheManager.entries_ c) ++
      [PrefixCacheManager.new_entry toks data now].
Proof.
  intros Hmax c.
  assert (PrefixCacheManager.max_entries_ c = max_entries) as Hcap
    by (unfold c; now rewrite add_all_max_entries).
  split.
  - change max_entries with
      (PrefixCacheManager.max_entries_ (PrefixCacheManager.create max_entries)).
    apply add_all_bounded; [exact Hmax|]. unfold PrefixCacheManager.size. simpl. lia.
  - intros toks data now Hmiss Hfull.
    apply add_prefix_evicts_lru; [exact Hmiss | lia |].
    intros Hnil. unfold PrefixCacheManager.size in Hfull.
    rewrite Hnil in Hfull. simpl in Hfull. lia.
Qed.

(** The repository's LRU test: a third prefix into the full store of
    capacity two. *)
Lemma prefix_cache_bounded_lru_witness :
  let c := store_lru_test in
  PrefixCacheManager.size c ≤ 2 ∧
  ∀ toks data now,
    PrefixCacheManager.find_existing c toks = None →
    PrefixCacheManager.size c = 2 →
    ∃ i e,
      PrefixCacheManager.entries_ c !! i = Some e ∧
      (∀ e', e' ∈ PrefixCacheManager.entries_ c →
         PrefixCacheManager.last_access_time e ≤ PrefixCacheManager.last_access_time e') ∧
      PrefixCacheManager.entries_ (PrefixCacheManager.add_prefix c toks data now) =
      delete i (PrefixCacheManager.entries_ c) ++
      [PrefixCacheManager.new_entry toks data now].
Proof.
  apply (prefix_cache_bounded_lru 2 [([1], blob0, 1); ([2], blob0, 2)]). lia.
Defined.

Example lru_test_evicts_first :
  PrefixCacheManager.entries_ (PrefixCacheManager.add_prefix store_lru_test [3] blob0 3) =
  [PrefixCacheManager.new_entry [2] blob0 2; PrefixCacheManager.new_entry [3] blob0 3] ∧
  PrefixCacheManager.find_prefix
    (PrefixCacheManager.add_prefix store_lru_test [3] blob0 3) [1; 4; 5] = -1.
Proof. split; reflexivity. Qed.

(** C8 as stated fails for a store of capacity zero: [evict_lru] returns
    at once on the empty vector and the entry is appended all the same. *)
Lemma prefix_cache_capacity_zero_overflows :
  ¬ (PrefixCacheManager.size
       (PrefixCacheManager.add_all [([1], blob0, 1)] (PrefixCacheManager.create 0)) ≤ 0).
Proof. vm_compute. intros H. apply H. reflexivity. Qed.

(** ** PrefixCacheManager: find_prefix on the stores a program builds *)

(** The loop of [find_prefix] reads nothing of an entry but its tokens. *)
Lemma find_prefix_loop_tokens (query : list Z) (es es' : list PrefixCacheManager.PrefixEntry) :
  PrefixCacheManager.tokens <$> es = PrefixCacheManager.tokens <$> es' →
  ∀ i best blen,
    PrefixCacheManager.find_prefix_loop query es i best blen =
    PrefixCacheManager.find_prefix_loop query es' i best blen.
Proof.
  revert es'. induction es as [|e es IH]; intros [|e' es'] Heq; try discriminate.
  - reflexivity.
  - injection Heq as Htok Hrest. intros i best blen. simpl. rewrite Htok.
    destruct (_ && _); now apply IH.
Qed.

(** An entry refreshed in place, by [add_prefix] or by [get_entry], keeps
    its tokens. *)
Lemma fmap_tokens_alter (f : PrefixCacheManager.PrefixEntry → PrefixCacheManager.PrefixEntry)
    (es : list PrefixCacheManager.PrefixEntry) (i : nat) :
  (∀ e, PrefixCacheManager.tokens (f e) = PrefixCacheManager.tokens e) →
  PrefixCacheManager.tokens <$> alter f i es = PrefixCacheManager.tokens <$> es.
Proof.
  intros Hf. rewrite (list_fmap_alter _ f id).
  - apply list_alter_id. reflexivity.
  - apply Forall_forall. intros e _. apply Hf.
Qed.

(** What the test of [add_prefix] finds when it succeeds: the first entry
    that holds exactly the tokens given. *)
Lemma find_existing_Some (c : PrefixCacheManager.t) (T : list Z) (i : nat) :
  PrefixCacheManager.size c ≤ INT_MAX →
  PrefixCacheManager.find_existing c T = Some i →
  ∃ e, PrefixCacheManager.entries_ c !! i = Some e ∧
       PrefixCacheManager.tokens e = T ∧
       PrefixCacheManager.find_prefix c T = Z.of_nat i.
Proof.
  intros Hsize. unfold PrefixCacheManager.find_existing.
  destruct (find_prefix_cases c T Hsize)
    as [[-> _] | (k & e & -> & Hk & _ & Hpre & _)]; [discriminate|].
  destruct (Z.leb_spec 0 (Z.of_nat k)); [|lia].
  rewrite Nat2Z.id, Hk.
  destruct (Nat.eqb_spec (length (PrefixCacheManager.tokens e)) (length T)) as [Hlen|];
    [|discriminate].
  intros [= <-]. exists e. split; [exact Hk|]. split; [|reflexivity].
  apply prefix_length_eq; [exact Hpre | lia].
Qed.

(** When the test fails for a non-empty sequence, no entry holds it. *)
Lemma find_existing_None (c : PrefixCacheManager.t) (T : list Z) :
  PrefixCacheManager.size c ≤ INT_MAX →
  T ≠ [] →
  PrefixCacheManager.find_existing c T = None →
  ∀ e, e ∈ PrefixCacheManager.entries_ c → PrefixCacheManager.tokens e ≠ T.
Proof.
  intros Hsize HT Hnone e He Htok.
  unfold PrefixCacheManager.find_existing in Hnone.
  destruct (find_prefix_cases c T Hsize)
    as [[_ Hempty] | (k & e0 & Hr & Hk & _ & Hpre & Hmax)].
  - apply HT. rewrite <- Htok. apply Hempty; [exact He|]. now rewrite Htok.
  - rewrite Hr in Hnone.
    destruct (Z.leb_spec 0 (Z.of_nat k)); [|lia].
    rewrite Nat2Z.id, Hk in Hnone.
    apply list_elem_of_lookup_1 in He as [j Hj].
    destruct (Hmax j e Hj) as [Hle _]; [now rewrite Htok|].
    pose proof (prefix_length _ _ Hpre) as Hle'. rewrite Htok in Hle.
    destruct (Nat.eqb_spec (length (PrefixCacheManager.tokens e0)) (length T));
      [discriminate | lia].
Qed.

Lemma evict_lru_subseteq (c : PrefixCacheManager.t) e :
  e ∈ PrefixCacheManager.entries_ (PrefixCacheManager.evict_lru c) →
  e ∈ PrefixCacheManager.entries_ c.
Proof.
  unfold PrefixCacheManager.evict_lru.
  destruct (PrefixCacheManager.entries_ c) eqn:Hes; simpl.
  - now rewrite Hes.
  - apply list_elem_of_delete_inv.
Qed.

Lemma evict_lru_size_le (c : PrefixCacheManager.t) :
  PrefixCacheManager.size (PrefixCacheManager.evict_lru c) ≤ PrefixCacheManager.size c.
Proof.
  unfold PrefixCacheManager.size.
  destruct (PrefixCacheManager.entries_ c) eqn:Hes.
  - unfold PrefixCacheManager.evict_lru. rewrite Hes. simpl. rewrite Hes. simpl. lia.
  - rewrite evict_lru_length by (rewrite Hes; discriminate). rewrite Hes. lia.
Qed.

(** The capacity bounds the store, a capacity of zero letting one entry
    in. *)
Lemma add_prefix_size_le (c : PrefixCacheManager.t) toks data now :
  PrefixCacheManager.size c ≤ Z.max 1 (PrefixCacheManager.max_entries_ c) →
  PrefixCacheManager.size (PrefixCacheManager.add_prefix c toks data now) ≤
  Z.max 1 (PrefixCacheManager.max_entries_ c).
Proof.
  unfold PrefixCacheManager.add_prefix. intros Hsize.
  destruct (PrefixCacheManager.find_existing c toks) as [i|].
  - unfold PrefixCacheManager.size in *. cbn [PrefixCacheManager.entries_].
    now rewrite length_alter.
  - cbv zeta.
    destruct (Z.leb_spec (PrefixCacheManager.max_entries_ c) (PrefixCacheManager.size c))
      as [Hfull|Hroom].
    + pose proof (evict_lru_size_le c) as Hle.
      destruct (PrefixCacheManager.entries_ c) as [|e0 es] eqn:Hes.
      * unfold PrefixCacheManager.size, PrefixCacheManager.evict_lru.
        rewrite Hes. cbn [PrefixCacheManager.entries_]. rewrite Hes. simpl. lia.
      * unfold PrefixCacheManager.size in *. cbn [PrefixCacheManager.entries_].
        rewrite length_app, evict_lru_length by (rewrite Hes; discriminate).
        rewrite Hes in *. simpl in *. lia.
    + unfold PrefixCacheManager.size in *. cbn [PrefixCacheManager.entries_].
      rewrite length_app. simpl. lia.
Qed.

Lemma get_entry_tokens (c : PrefixCacheManager.t) (index now : Z) :
  PrefixCacheManager.max_entries_ (PrefixCacheManager.get_entry c index now).2 =
    PrefixCacheManager.max_entries_ c ∧
  PrefixCacheManager.tokens <$>
    PrefixCacheManager.entries_ (PrefixCacheManager.get_entry c index now).2 =
  PrefixCacheManager.tokens <$> PrefixCacheManager.entries_ c.
Proof.
  unfold PrefixCacheManager.get_entry. destruct (_ || _); [split; reflexivity|].
  destruct (PrefixCacheManager.entries_ c !! Z.to_nat index) as [e|] eqn:He;
    [|split; reflexivity].
  split; [reflexivity|]. simpl. rewrite list_fmap_insert. simpl.
  apply list_insert_id. now rewrite list_lookup_fmap, He.
Qed.

Lemma distinct_nonempty_delete (ts : list (list Z)) (k : nat) :
  distinct_nonempty ts → distinct_nonempty (delete k ts).
Proof.
  intros Hd i j t Hi Hj Ht. rewrite list_lookup_delete in Hi, Hj.
  specialize (Hd _ _ t Hi Hj Ht).
  destruct (decide (i < k)%nat), (decide (j < k)%nat); lia.
Qed.

Lemma distinct_nonempty_snoc (ts : list (list Z)) (t : list Z) :
  distinct_nonempty ts → (t ≠ [] → t ∉ ts) → distinct_nonempty (ts ++ [t]).
Proof.
  intros Hd Hnew i j t' Hi Hj Ht.
  apply lookup_snoc_Some in Hi as [[_ Hi] | [-> <-]];
    apply lookup_snoc_Some in Hj as [[_ Hj] | [-> Heq]].
  - exact (Hd _ _ _ Hi Hj Ht).
  - subst t'. exfalso. apply (Hnew Ht). eapply list_elem_of_lookup_2, Hi.
  - exfalso. apply (Hnew Ht). eapply list_elem_of_lookup_2, Hj.
  - reflexivity.
Qed.

(** [add_prefix] never stores a non-empty token sequence a second time:
    it finds the entry that holds it and refreshes that one. *)
Lemma add_prefix_distinct (c : PrefixCacheManager.t) (T : list Z)
    (data : list byte) (now : Z) :
  PrefixCacheManager.size c ≤ INT_MAX →
  distinct_nonempty (PrefixCacheManager.tokens <$> PrefixCacheManager.entries_ c) →
  distinct_nonempty
    (PrefixCacheManager.tokens <$>
       PrefixCacheManager.entries_ (PrefixCacheManager.add_prefix c T data now)).
Proof.
  intros Hsize Hd. unfold PrefixCacheManager.add_prefix.
  destruct (PrefixCacheManager.find_existing c T) as [i|] eqn:Hex.
  - simpl. now rewrite fmap_tokens_alter.
  - cbv zeta. simpl. rewrite fmap_app. apply distinct_nonempty_snoc.
    + destruct (_ <=? _); [|exact Hd].
      unfold PrefixCacheManager.evict_lru.
      destruct (PrefixCacheManager.entries_ c) eqn:Hes; simpl.
      * now rewrite Hes.
      * rewrite list_fmap_delete. now apply distinct_nonempty_delete.
    + intros HT Hin. apply list_elem_of_fmap in Hin as (e & Htok & He).
      eapply (find_existing_None c T Hsize HT Hex e); [|now symmetry].
      destruct (_ <=? _); [now apply evict_lru_subseteq | exact He].
Qed.

(** What every call keeps: the capacity, the bound on the number of
    entries, and the distinctness of the non-empty token sequences. *)
Lemma run_calls_keeps (calls : list cache_call) : ∀ c : PrefixCacheManager.t,
  PrefixCacheManager.max_entries_ c ≤ INT_MAX →
  PrefixCacheManager.size c ≤ Z.max 1 (PrefixCacheManager.max_entries_ c) →
  distinct_nonempty (PrefixCacheManager.tokens <$> PrefixCacheManager.entries_ c) →
  PrefixCacheManager.size (run_calls calls c) ≤ INT_MAX ∧
  distinct_nonempty
    (PrefixCacheManager.tokens <$> PrefixCacheManager.entries_ (run_calls calls c)).
Proof.
  induction calls as [|call calls IH]; intros c Hcap Hsize Hd.
  - change (run_calls [] c) with c. split; [unfold INT_MAX in *; lia | exact Hd].
  - change (run_calls (call :: calls) c) with (run_calls calls (run_call c call)).
    assert (Hsize0 : PrefixCacheManager.size c ≤ INT_MAX) by (unfold INT_MAX in *; lia).
    destruct call as [toks data now | index now |]; cbn [run_call].
    + apply IH; rewrite ?add_prefix_max_entries;
        [exact Hcap | now apply add_prefix_size_le | now apply add_prefix_distinct].
    + destruct (get_entry_tokens c index now) as [Hmax Htok].
      apply IH; rewrite ?Hmax, ?Htok; [exact Hcap | | exact Hd].
      unfold PrefixCacheManager.size in *.
      rewrite <- (length_fmap PrefixCacheManager.tokens), Htok, length_fmap. exact Hsize.
    + apply IH; [exact Hcap | unfold PrefixCacheManager.size; simpl; lia |].
      intros i j t Hi. discriminate Hi.
Qed.

(** C5 (amended). In every cache state, that is after any sequence of
    calls on a store constructed with a capacity of at most [INT_MAX],
    [find_prefix T] returns the index of the longest entry among those
    whose non-empty tokens are a prefix of [T], a tie going to the most
    recent [last_access_time], and [-1] when no entry with non-empty
    tokens is a prefix of [T]. There is in fact no tie to break: no two
    entries of such a store hold the same non-empty tokens, so the entry
    returned is strictly longer than every other candidate. *)
Theorem find_prefix_longest_nonempty_prefix (max_entries : Z)
    (calls : list cache_call) (query : list Z) :
  max_entries ≤ INT_MAX →
  let c := run_calls calls (PrefixCacheManager.create max_entries) in
  find_prefix_nonempty_claim (PrefixCacheManager.entries_ c) query
    (PrefixCacheManager.find_prefix c query) ∧
  ∀ (i j : nat) e e',
    PrefixCacheManager.entries_ c !! i = Some e →
    PrefixCacheManager.entries_ c !! j = Some e' →
    PrefixCacheManager.tokens e ≠ [] →
    PrefixCacheManager.tokens e `prefix_of` query →
    PrefixCacheManager.tokens e' `prefix_of` query →
    length (PrefixCacheManager.tokens e) = length (PrefixCacheManager.tokens e') →
    i = j.
Proof.
  intros Hcap c.
  destruct (run_calls_keeps calls (PrefixCacheManager.create max_entries))
    as [Hsize Hd].
  { exact Hcap. }
  { unfold PrefixCacheManager.size. simpl. lia. }
  { intros i j t Hi. discriminate Hi. }
  fold c in Hsize, Hd.
  assert (Hties : ∀ (i j : nat) e e',
    PrefixCacheManager.entries_ c !! i = Some e →
    PrefixCacheManager.entries_ c !! j = Some e' →
    PrefixCacheManager.tokens e ≠ [] →
    PrefixCacheManager.tokens e `prefix_of` query →
    PrefixCacheManager.tokens e' `prefix_of` query →
    length (PrefixCacheManager.tokens e) = length (PrefixCacheManager.tokens e') →
    i = j).
  { intros i j e e' Hi Hj Hne [k1 Hk1] [k2 Hk2] Hlen.
    assert (Heq : PrefixCacheManager.tokens e = PrefixCacheManager.tokens e').
    { rewrite Hk2 in Hk1. apply app_inj_1 in Hk1 as [Heq _]; [now symmetry | lia]. }
    apply (Hd i j (PrefixCacheManager.tokens e)); [| | exact Hne].
    - now rewrite list_lookup_fmap, Hi.
    - now rewrite list_lookup_fmap, Hj, Heq. }
  split; [|exact Hties].
  destruct (find_prefix_cases c query Hsize)
    as [[Hr Hempty] | (k & e & Hr & Hk & Hne & Hpre & Hmax)].
  - left. split; [exact Hr|]. intros e He Hne Hpre. now apply Hne, Hempty.
  - right. exists k, e. split; [exact Hr|]. split; [exact Hk|].
    split; [exact Hne|]. split; [exact Hpre|].
    intros j e' Hj Hpre'. split; [now apply (Hmax j e')|].
    intros Hlen.
    assert (k = j) as <- by (now apply (Hties k j e e')).
    rewrite Hk in Hj. injection Hj as <-. lia.
Qed.

(** The store of the LRU test after a read of its first entry. *)
Lemma find_prefix_longest_nonempty_prefix_witness :
  let c := run_calls [AddPrefix [1] blob0 1; AddPrefix [2] blob0 2; GetEntry 0 3]
             (PrefixCacheManager.create 2) in
  find_prefix_nonempty_claim (PrefixCacheManager.entries_ c) [2; 4; 5]
    (PrefixCacheManager.find_prefix c [2; 4; 5]) ∧
  ∀ (i j : nat) e e',
    PrefixCacheManager.entries_ c !! i = Some e →
    PrefixCacheManager.entries_ c !! j = Some e' →
    PrefixCacheManager.tokens e ≠ [] →
    PrefixCacheManager.tokens e `prefix_of` [2; 4; 5] →
    PrefixCacheManager.tokens e' `prefix_of` [2; 4; 5] →
    length (PrefixCacheManager.tokens e) = length (PrefixCacheManager.tokens e') →
    i = j.
Proof.
  apply (find_prefix_longest_nonempty_prefix 2
           [AddPrefix [1] blob0 1; AddPrefix [2] blob0 2; GetEntry 0 3] [2; 4; 5]).
  vm_compute. discriminate.
Defined.

(** ** PrefixCacheManager: get_entry *)

(** C10. [get_entry i] returns a null pointer exactly when [i] is outside
    [0, size); for an index in range it returns the address of
    [entries_[i]] (whose access data it has refreshed), and it never reads
    outside the vector. The size of the vector is an [int], as the cast in
    the bounds check supposes. *)
Theorem get_entry_null_iff_out_of_range
    (c : PrefixCacheManager.t) (index now : Z) :
  PrefixCacheManager.size c ≤ INT_MAX →
  ((PrefixCacheManager.get_entry c index now).1 = PrefixCacheManager.Null ↔
   (index < 0 ∨ PrefixCacheManager.size c ≤ index)) ∧
  (0 ≤ index < PrefixCacheManager.size c →
   ∃ e, PrefixCacheManager.entries_ c !! Z.to_nat index = Some e ∧
        (PrefixCacheManager.get_entry c index now).1 =
          PrefixCacheManager.EntryAt (Z.to_nat index) ∧
        PrefixCacheManager.entries_ (PrefixCacheManager.get_entry c index now).2
          !! Z.to_nat index = Some (PrefixCacheManager.touch now e)) ∧
  (PrefixCacheManager.get_entry c index now).1 ≠ PrefixCacheManager.OutOfBounds.
Proof.
  unfold PrefixCacheManager.get_entry, PrefixCacheManager.size. intros Hsize.
  rewrite to_int_of_nat by exact Hsize.
  destruct (Z.ltb_spec index 0) as [Hneg|Hnn]; simpl.
  { repeat split; try (intros; lia); try discriminate; auto. }
  destruct (Z.leb_spec (Z.of_nat (length (PrefixCacheManager.entries_ c))) index)
    as [Hhi|Hlo]; simpl.
  { repeat split; try (intros; lia); try discriminate; auto. }
  destruct (lookup_lt_is_Some_2 (PrefixCacheManager.entries_ c) (Z.to_nat index))
    as [e He]; [lia|].
  rewrite He. simpl. repeat split; try discriminate; try (intros; lia).
  intros _. exists e. repeat split.
  apply list_lookup_insert_eq. lia.
Qed.

Lemma get_entry_null_iff_out_of_range_witness :
  ((PrefixCacheManager.get_entry store_lru_test 1 7).1 = PrefixCacheManager.Null ↔
   (1 < 0 ∨ PrefixCacheManager.size store_lru_test ≤ 1)) ∧
  (0 ≤ 1 < PrefixCacheManager.size store_lru_test →
   ∃ e, PrefixCacheManager.entries_ store_lru_test !! Z.to_nat 1 = Some e ∧
        (PrefixCacheManager.get_entry store_lru_test 1 7).1 =
          PrefixCacheManager.EntryAt (Z.to_nat 1) ∧
        PrefixCacheManager.entries_ (PrefixCacheManager.get_entry store_lru_test 1 7).2
          !! Z.to_nat 1 = Some (PrefixCacheManager.touch 7 e)) ∧
  (PrefixCacheManager.get_entry store_lru_test 1 7).1 ≠ PrefixCacheManager.OutOfBounds.
Proof.
  apply (get_entry_null_iff_out_of_range store_lru_test 1 7). vm_compute. discriminate.
Defined.

Example get_entry_in_and_out_of_range :
  (PrefixCacheManager.get_entry store_lru_test 1 7).1 = PrefixCacheManager.EntryAt 1 ∧
  (PrefixCacheManager.get_entry store_lru_test 2 7).1 = PrefixCacheManager.Null ∧
  (PrefixCacheManager.get_entry store_lru_test (-1) 7).1 = PrefixCacheManager.Null.
Proof. repeat split. Qed.

(** ** LLMEngine: the generation loop *)

Lemma string_app_assoc (a b c : string) :
  ((a ++ b) ++ c)%string = (a ++ (b ++ c))%string.
Proof.
  induction a as [|x a IH]; [reflexivity|].
  change (String x ((a ++ b) ++ c) = String x (a ++ (b ++ c)))%string.
  now rewrite IH.
Qed.

Lemma string_app_nil_r (a : string) : (a ++ "")%string = a.
Proof.
  induction a as [|x a IH]; [reflexivity|].
  change (String x (a ++ "") = String x a)%string. now rewrite IH.
Qed.

Lemma pieces_snoc w g tok :
  pieces w (g ++ [tok]) = (pieces w g ++ LLMEngine.decode_token w tok)%string.
Proof.
  induction g as [|x g IH]; cbn [pieces app].
  - apply string_app_nil_r.
  - rewrite IH. symmetry. apply string_app_assoc.
Qed.

Lemma commit_events_snoc w cb g : ∀ pos tok,
  commit_events w cb pos (g ++ [tok]) =
  commit_events w cb pos g ++
  (if cb then [LLMEngine.Callback (LLMEngine.decode_token w tok) false] else []) ++
  [LLMEngine.Decode [(tok, pos + Z.of_nat (length g), true)]].
Proof.
  induction g as [|x g IH]; intros pos tok; simpl.
  - now rewrite Z.add_0_r.
  - rewrite IH. rewrite <- !app_assoc. simpl.
    replace (pos + 1 + Z.of_nat (length g)) with (pos + Z.pos (Pos.of_succ_nat (length g)))
      by lia.
    reflexivity.
Qed.

Lemma sampled_tokens_length w k : length (sampled_tokens w k) = k.
Proof.
  induction k as [|k IH]; simpl; [reflexivity|].
  rewrite length_app, IH. simpl. lia.
Qed.

(** One pass through the loop body, from a state that has committed the
    first [i] sampled tokens. *)
Lemma loop_body_step w callback cfg hist0 n0 tr0 (i : nat) (s : LLMEngine.loop_state) :
  INT_MIN ≤ n0 + Z.of_nat i < INT_MAX →
  committed w callback hist0 n0 tr0 (sampled_tokens w i) (n0 + Z.of_nat i) s →
  LLMEngine.result s = pieces w (sampled_tokens w i) →
  match LLMEngine.loop_body w callback cfg i s with
  | inl (why, s') =>
      why ≠ LLMEngine.MaxTokens ∧ loop_exit w callback cfg hist0 n0 tr0 why i s'
  | inr s' =>
      committed w callback hist0 n0 tr0 (sampled_tokens w (S i))
        (n0 + Z.of_nat (S i)) s' ∧
      LLMEngine.result s' = pieces w (sampled_tokens w (S i))
  end.
Proof.
  intros Hrange (Hgen & Hhist & Hpast & Htrace) Hres.
  unfold LLMEngine.loop_body. cbn [LLMEngine.stop_flag_ LLMEngine.set_stop_flag].
  destruct (LLMEngine.stop_flag_ (LLMEngine.eng s) || LLMEngine.stop_requested w i).
  { split; [discriminate|]. simpl. repeat split; assumption. }
  rewrite Hgen.
  destruct (LLMEngine.is_eos_token w _).
  { split; [discriminate|]. simpl. repeat split; assumption. }
  rewrite Hres.
  destruct (LLMEngine.find_stop _ _) as [pos|] eqn:Hstop.
  { split; [discriminate|]. simpl. split; [repeat split; assumption|].
    exists pos. split; [exact Hstop | reflexivity]. }
  cbv zeta.
  destruct callback;
    (destruct (LLMEngine.token_decode_ok w i _);
     [ split; [|cbn [sampled_tokens LLMEngine.result]; now rewrite pieces_snoc]
     | split; [discriminate|]; cbn [loop_exit] ]);
    unfold committed;
    cbn -[to_int commit_events Z.of_nat Z.add app];
    rewrite ?Hpast, Hhist, Htrace, commit_events_snoc, sampled_tokens_length,
      <- ?app_assoc;
    repeat split; try reflexivity; rewrite to_int_small by lia; lia.
Qed.

(** The loop, from a state that has committed the first [i] sampled
    tokens, with [fuel] iterations left. *)
Lemma generate_loop_exit w callback cfg hist0 n0 tr0 (fuel : nat) :
  ∀ (i : nat) (s : LLMEngine.loop_state),
  INT_MIN ≤ n0 + Z.of_nat i →
  n0 + Z.of_nat i + Z.of_nat fuel ≤ INT_MAX →
  committed w callback hist0 n0 tr0 (sampled_tokens w i) (n0 + Z.of_nat i) s →
  LLMEngine.result s = pieces w (sampled_tokens w i) →
  ∃ why k s',
    LLMEngine.generate_loop w callback cfg fuel i s = (why, k, s') ∧
    (i ≤ k ≤ i + fuel)%nat ∧
    loop_exit w callback cfg hist0 n0 tr0 why k s'.
Proof.
  induction fuel as [|fuel IH]; intros i s Hlo Hhi Hcommit Hres; simpl.
  - exists LLMEngine.MaxTokens, i, s. split; [reflexivity|]. split; [lia|].
    simpl. split; assumption.
  - pose proof (loop_body_step w callback cfg hist0 n0 tr0 i s ltac:(lia) Hcommit Hres)
      as Hstep.
    destruct (LLMEngine.loop_body w callback cfg i s) as [[why s']|s'].
    + exists why, i, s'. split; [reflexivity|]. split; [lia|]. apply Hstep.
    + destruct Hstep as [Hcommit' Hres'].
      destruct (IH (S i) s' ltac:(lia) ltac:(lia) Hcommit' Hres')
        as (why & k & s'' & Hloop & Hk & Hexit).
      exists why, k, s''. split; [exact Hloop|]. split; [lia | exact Hexit].
Qed.

(** ** LLMEngine: generate_stream *)

(** When [prepare] hands over to the loop, the history is the prompt and
    the backend has taken exactly as many positions, whatever history and
    [n_past] the call started from. *)
Lemma prepare_ready w msgs e e1 :
  0 ≤ LLMEngine.n_ctx (LLMEngine.config e) ≤ INT_MAX →
  LLMEngine.prepare w msgs e = inr e1 →
  LLMEngine.token_history e1 = LLMEngine.encode_prompt w msgs ∧
  LLMEngine.n_past e1 = Z.of_nat (length (LLMEngine.encode_prompt w msgs)) ∧
  Z.of_nat (length (LLMEngine.encode_prompt w msgs)) <
    LLMEngine.n_ctx (LLMEngine.config e).
Proof.
  intros Hctx. unfold LLMEngine.prepare.
  destruct (LLMEngine.initialized e); [|discriminate]. cbv zeta.
  cbn -[to_int to_size_t Z.of_nat match_prefix].
  rewrite to_size_t_small by (unfold INT_MAX in Hctx; lia).
  set (tokens := LLMEngine.encode_prompt w msgs).
  destruct (Z.leb_spec (LLMEngine.n_ctx (LLMEngine.config e)) (Z.of_nat (length tokens)))
    as [|Hfit]; [discriminate|].
  pose proof (lcp_len_le_l tokens (LLMEngine.token_history e)) as Hlcp.
  rewrite match_prefix_lcp, !to_int_of_nat by lia.
  destruct (Z.ltb_spec (Z.of_nat (lcp_len tokens (LLMEngine.token_history e)))
              (LLMEngine.n_past e)) as [Hcut|Hkeep];
    cbn -[Z.of_nat].
  - destruct (Z.ltb_spec (Z.of_nat (lcp_len tokens (LLMEngine.token_history e)))
                (Z.of_nat (length tokens))).
    + destruct (LLMEngine.n_batch _ <? _); [discriminate|].
      destruct (LLMEngine.prompt_decode_ok w _); [|discriminate].
      intros [= <-]. cbn -[Z.of_nat]. repeat split; try reflexivity; lia.
    + intros [= <-]. cbn -[Z.of_nat]. repeat split; try reflexivity; lia.
  - destruct (Z.ltb_spec (LLMEngine.n_past e) (Z.of_nat (length tokens))).
    + destruct (LLMEngine.n_batch _ <? _); [discriminate|].
      destruct (LLMEngine.prompt_decode_ok w _); [|discriminate].
      intros [= <-]. cbn -[Z.of_nat]. repeat split; try reflexivity; lia.
    + intros [= <-]. cbn -[Z.of_nat]. repeat split; try reflexivity; lia.
Qed.

Lemma prepare_config w msgs e e1 :
  LLMEngine.prepare w msgs e = inr e1 →
  LLMEngine.config e1 = LLMEngine.config e.
Proof.
  unfold LLMEngine.prepare.
  repeat (match goal with
          | |- context [if ?b then _ else _] => destruct b
          end; cbn -[to_int to_size_t Z.of_nat match_prefix]);
    try discriminate; intros [= <-]; reflexivity.
Qed.

(** The engine [generate_stream] leaves behind when the loop was left in
    the state [s]. *)
Lemma generate_stream_returns w msgs callback cfg e e1 :
  ints_in_range e cfg →
  LLMEngine.prepare w msgs e = inr e1 →
  ∃ why k s,
    loop_exit w callback cfg (LLMEngine.token_history e1) (LLMEngine.n_past e1)
      (LLMEngine.trace e1) why k s ∧
    (k ≤ Z.to_nat (LLMEngine.max_tokens cfg))%nat ∧
    LLMEngine.generate_stream w msgs callback cfg e =
    (LLMEngine.Returned (LLMEngine.result s) why k (LLMEngine.generated_tokens s),
     let ef := if callback
               then LLMEngine.emit (LLMEngine.Callback "" true) (LLMEngine.eng s)
               else LLMEngine.eng s in
     LLMEngine.set_stats (LLMEngine.final_stats w ef (LLMEngine.generated_tokens s)) ef).
Proof.
  intros [Hctx Hroom] Hprep.
  destruct (prepare_ready w msgs e e1 ltac:(unfold INT_MAX in *; lia) Hprep)
    as (Hhist & Hpast & Hfit).
  destruct (generate_loop_exit w callback cfg (LLMEngine.token_history e1)
              (LLMEngine.n_past e1) (LLMEngine.trace e1)
              (Z.to_nat (LLMEngine.max_tokens cfg)) 0
              {| LLMEngine.eng := e1; LLMEngine.result := "";
                 LLMEngine.generated_tokens := [] |})
    as (why & k & s & Hloop & Hk & Hexit).
  - unfold INT_MIN. lia.
  - lia.
  - unfold committed. simpl. rewrite !app_nil_r. repeat split; lia.
  - reflexivity.
  - exists why, k, s. split; [exact Hexit|]. split; [lia|].
    unfold LLMEngine.generate_stream. rewrite Hprep, Hloop. reflexivity.
Qed.

(** Every exit but a failed decode leaves as many tokens in the history
    as the backend has taken. *)
Lemma generate_stream_history_matches_n_past w msgs callback cfg e text why k g e' :
  ints_in_range e cfg →
  LLMEngine.generate_stream w msgs callback cfg e =
    (LLMEngine.Returned text why k g, e') →
  why ≠ LLMEngine.DecodeFailed →
  Z.of_nat (length (LLMEngine.token_history e')) = LLMEngine.n_past e'.
Proof.
  intros Hrange Hrun Hwhy.
  destruct (LLMEngine.prepare w msgs e) as [[[what|] e0]|e1] eqn:Hprep.
  1, 2: unfold LLMEngine.generate_stream in Hrun; rewrite Hprep in Hrun; discriminate.
  destruct (prepare_ready w msgs e e1 ltac:(destruct Hrange; unfold INT_MAX in *; lia) Hprep)
    as (Hhist & Hpast & _).
  destruct (generate_stream_returns w msgs callback cfg e e1 Hrange Hprep)
    as (why' & k' & s & Hexit & _ & Hrun').
  rewrite Hrun' in Hrun. injection Hrun as _ <- _ _ <-.
  assert (committed w callback (LLMEngine.token_history e1) (LLMEngine.n_past e1)
            (LLMEngine.trace e1) (sampled_tokens w k')
            (LLMEngine.n_past e1 + Z.of_nat k') s) as (_ & Hh & Hn & _).
  { destruct why'; simpl in Hexit; try apply Hexit. congruence. }
  destruct callback; cbn -[Z.of_nat]; rewrite Hh, Hn, length_app, sampled_tokens_length, Hhist;
    lia.
Qed.

(** C2. A call of [generate_stream] that leaves the loop on a failed
    single-token decode returns with one token more in TokenHistory than
    [n_past] counts: the token was pushed before [llama_decode] refused
    it, and [n_past++] is skipped. (For every other exit the two agree,
    [generate_stream_history_matches_n_past].) *)
Theorem decode_failure_leaves_history_ahead w msgs callback cfg e text k g e' :
  ints_in_range e cfg →
  LLMEngine.generate_stream w msgs callback cfg e =
    (LLMEngine.Returned text LLMEngine.DecodeFailed k g, e') →
  Z.of_nat (length (LLMEngine.token_history e')) = LLMEngine.n_past e' + 1.
Proof.
  intros Hrange Hrun.
  destruct (LLMEngine.prepare w msgs e) as [[[what|] e0]|e1] eqn:Hprep.
  1, 2: unfold LLMEngine.generate_stream in Hrun; rewrite Hprep in Hrun; discriminate.
  destruct (prepare_ready w msgs e e1 ltac:(destruct Hrange; unfold INT_MAX in *; lia) Hprep)
    as (Hhist & Hpast & _).
  destruct (generate_stream_returns w msgs callback cfg e e1 Hrange Hprep)
    as (why' & k' & s & Hexit & _ & Hrun').
  rewrite Hrun' in Hrun. injection Hrun as _ -> _ _ <-.
  destruct Hexit as (_ & Hh & Hn & _).
  destruct callback; cbn -[Z.of_nat sampled_tokens];
    rewrite Hh, Hn, length_app, sampled_tokens_length, Hhist; lia.
Qed.

(** The failing run: prompt [1, 2, 3], token 7 sampled, its decode
    refused. *)
Lemma decode_failure_leaves_history_ahead_witness :
  Z.of_nat (length (LLMEngine.token_history
    (LLMEngine.generate_stream world_decode_fails hello false
       (generation_config0 4) (engine0 8)).2)) =
  LLMEngine.n_past
    (LLMEngine.generate_stream world_decode_fails hello false
       (generation_config0 4) (engine0 8)).2 + 1.
Proof.
  eapply (decode_failure_leaves_history_ahead world_decode_fails hello false
            (generation_config0 4) (engine0 8)).
  - unfold ints_in_range, INT_MAX. simpl. lia.
  - vm_compute. reflexivity.
Defined.

Example decode_failure_run :
  let e' := (LLMEngine.generate_stream world_decode_fails hello false
               (generation_config0 4) (engine0 8)).2 in
  LLMEngine.token_history e' = [1; 2; 3; 7] ∧ LLMEngine.n_past e' = 3.
Proof. split; reflexivity. Qed.

(** C4 (amended). When a generation ends because the running result
    contains a stop sequence, the loop breaks right after truncating the
    result: the sampled token that completed the stop sequence is appended
    neither to [generated_tokens] nor to TokenHistory, no single-token
    batch is submitted for it and [n_past] is not incremented. Here [k] is
    the iteration that sampled the token and [e1] the engine at the head
    of the loop: everything committed stems from the [k] iterations
    before. *)
Theorem stop_sequence_token_not_committed w msgs callback cfg e e1 text k g e' :
  ints_in_range e cfg →
  LLMEngine.prepare w msgs e = inr e1 →
  LLMEngine.generate_stream w msgs callback cfg e =
    (LLMEngine.Returned text LLMEngine.StopSequence k g, e') →
  let full := (pieces w g ++ LLMEngine.decode_token w (LLMEngine.sample w k g))%string in
  (∃ pos, LLMEngine.find_stop full (LLMEngine.stop_sequences cfg) = Some pos ∧
          text = String.substring 0 pos full) ∧
  g = sampled_tokens w k ∧
  LLMEngine.token_history e' = LLMEngine.token_history e1 ++ g ∧
  LLMEngine.n_past e' = LLMEngine.n_past e1 + Z.of_nat k ∧
  LLMEngine.tokens_generated (LLMEngine.stats_ e') = Z.of_nat k ∧
  LLMEngine.trace e' =
    LLMEngine.trace e1 ++ commit_events w callback (LLMEngine.n_past e1) g ++
    (if callback then [LLMEngine.Callback "" true] else []).
Proof.
  intros Hrange Hprep Hrun.
  destruct (generate_stream_returns w msgs callback cfg e e1 Hrange Hprep)
    as (why' & k' & s & Hexit & Hk & Hrun').
  rewrite Hrun' in Hrun. injection Hrun as <- -> -> <- <-.
  destruct Hexit as ((Hg & Hh & Hn & Ht) & pos & Hstop & Hres).
  assert (Z.of_nat k ≤ INT_MAX) as Hkmax.
  { destruct Hrange as [Hctx Hroom]. lia. }
  cbv zeta. rewrite Hg. split; [exists pos; split; assumption|].
  split; [reflexivity|].
  destruct callback;
    cbn -[Z.of_nat sampled_tokens to_int commit_events app];
    rewrite ?Hh, ?Hn, ?Ht, ?Hg, ?sampled_tokens_length, ?to_int_of_nat, <- ?app_assoc,
      ?app_nil_r by exact Hkmax;
    repeat split; reflexivity.
Qed.

(** A run in which the second sampled token completes [</s>]. *)
Lemma stop_sequence_token_not_committed_witness :
  let w := world_stop_sequence in
  let e' := (LLMEngine.generate_stream w hello false (generation_config0 4)
               (engine0 8)).2 in
  let e1 := LLMEngine.set_token_history [1; 2; 3]
              (LLMEngine.set_n_past 3
                 (LLMEngine.emit
                    (LLMEngine.Decode (LLMEngine.prompt_batch 0 [1; 2; 3]))
                    (LLMEngine.set_stats
                       (LLMEngine.set_prompt_tokens 3 stats0) (engine0 8)))) in
  let full := (pieces w [7] ++ LLMEngine.decode_token w (LLMEngine.sample w 1 [7]))%string in
  (∃ pos, LLMEngine.find_stop full
            (LLMEngine.stop_sequences (generation_config0 4)) = Some pos ∧
          "" = String.substring 0 pos full) ∧
  [7] = sampled_tokens w 1 ∧
  LLMEngine.token_history e' = LLMEngine.token_history e1 ++ [7] ∧
  LLMEngine.n_past e' = LLMEngine.n_past e1 + Z.of_nat 1 ∧
  LLMEngine.tokens_generated (LLMEngine.stats_ e') = Z.of_nat 1 ∧
  LLMEngine.trace e' =
    LLMEngine.trace e1 ++ commit_events w false (LLMEngine.n_past e1) [7] ++ [].
Proof.
  intros w e' e1.
  apply (stop_sequence_token_not_committed w hello false (generation_config0 4)
           (engine0 8) e1 "" 1 [7] e').
  - unfold ints_in_range, INT_MAX. simpl. lia.
  - vm_compute. reflexivity.
  - vm_compute. reflexivity.
Defined.

(** C4 as stated fails on that run: token 8 completes the stop sequence
    in the second iteration, and it is neither in [generated_tokens] nor
    in TokenHistory, nor was it decoded; [n_past] counts the prompt and
    token 7 only. *)
Lemma stop_sequence_token_dropped :
  (LLMEngine.generate_stream world_stop_sequence hello false
     (generation_config0 4) (engine0 8)).1 =
    LLMEngine.Returned "" LLMEngine.StopSequence 1 [7] ∧
  LLMEngine.sample world_stop_sequence 1 [7] = 8 ∧
  ¬ 8 ∈ LLMEngine.token_history
          (LLMEngine.generate_stream world_stop_sequence hello false
             (generation_config0 4) (engine0 8)).2 ∧
  LLMEngine.n_past
    (LLMEngine.generate_stream world_stop_sequence hello false
       (generation_config0 4) (engine0 8)).2 = 4 ∧
  LLMEngine.trace
    (LLMEngine.generate_stream world_stop_sequence hello false
       (generation_config0 4) (engine0 8)).2 =
  [LLMEngine.Decode [(1, 0, false); (2, 1, false); (3, 2, true)];
   LLMEngine.Decode [(7, 3, true)]].
Proof.
  repeat split; try reflexivity.
  change (¬ 8 ∈ [1; 2; 3; 7]). rewrite !elem_of_cons, elem_of_nil. lia.
Qed.

(** C6 (amended). When [generate_stream] raises the context overflow,
    [stats_.prompt_tokens] has already been set to the prompt's token
    count; the other four statistics are as before the call, and neither
    TokenHistory, [n_past] nor the backend has been touched. *)
Theorem context_overflow_sets_prompt_tokens_only w msgs callback cfg e e' :
  LLMEngine.generate_stream w msgs callback cfg e =
    (LLMEngine.Threw "Prompt too long for context window", e') →
  LLMEngine.stats_ e' =
    LLMEngine.set_prompt_tokens
      (to_int (Z.of_nat (length (LLMEngine.encode_prompt w msgs))))
      (LLMEngine.stats_ e) ∧
  to_size_t (LLMEngine.n_ctx (LLMEngine.config e)) ≤
    Z.of_nat (length (LLMEngine.encode_prompt w msgs)) ∧
  LLMEngine.token_history e' = LLMEngine.token_history e ∧
  LLMEngine.n_past e' = LLMEngine.n_past e ∧
  LLMEngine.trace e' = LLMEngine.trace e.
Proof.
  unfold LLMEngine.generate_stream, LLMEngine.prepare.
  destruct (LLMEngine.initialized e); cbn -[to_int to_size_t Z.of_nat match_prefix];
    [|discriminate].
  destruct (Z.leb_spec (to_size_t (LLMEngine.n_ctx (LLMEngine.config e)))
              (Z.of_nat (length (LLMEngine.encode_prompt w msgs)))) as [Hover|Hfit].
  - intros [= <-]. cbn -[to_int to_size_t Z.of_nat]. repeat split. exact Hover.
  - repeat (match goal with
            | |- context [if ?b then _ else _] => destruct b
            end; cbn -[to_int to_size_t Z.of_nat match_prefix]);
      try discriminate;
      destruct (LLMEngine.generate_loop _ _ _ _ _ _) as [[? ?] ?]; discriminate.
Qed.

(** A prompt of three tokens against a context of two. *)
Lemma context_overflow_sets_prompt_tokens_only_witness :
  let e' := (LLMEngine.generate_stream world_decode_fails hello false
               (generation_config0 4) (engine0 2)).2 in
  LLMEngine.stats_ e' =
    LLMEngine.set_prompt_tokens
      (to_int (Z.of_nat (length (LLMEngine.encode_prompt world_decode_fails hello))))
      (LLMEngine.stats_ (engine0 2)) ∧
  to_size_t (LLMEngine.n_ctx (LLMEngine.config (engine0 2))) ≤
    Z.of_nat (length (LLMEngine.encode_prompt world_decode_fails hello)) ∧
  LLMEngine.token_history e' = LLMEngine.token_history (engine0 2) ∧
  LLMEngine.n_past e' = LLMEngine.n_past (engine0 2) ∧
  LLMEngine.trace e' = LLMEngine.trace (engine0 2).
Proof.
  intros e'.
  apply (context_overflow_sets_prompt_tokens_only world_decode_fails hello false
           (generation_config0 4) (engine0 2) e').
  vm_compute. reflexivity.
Defined.

(** C6 as stated fails on that call: the overflow is raised and
    [prompt_tokens] has changed from 0 to 3. *)
Lemma context_overflow_changes_stats :
  (LLMEngine.generate_stream world_decode_fails hello false
     (generation_config0 4) (engine0 2)).1 =
    LLMEngine.Threw "Prompt too long for context window" ∧
  LLMEngine.get_stats
    (LLMEngine.generate_stream world_decode_fails hello false
       (generation_config0 4) (engine0 2)).2 ≠
  LLMEngine.get_stats (engine0 2).
Proof. split; [reflexivity|]. vm_compute. discriminate. Qed.

(** ** LLMEngine: session files *)

Lemma bytes_of_tokens_length toks :
  length (LLMEngine.bytes_of_tokens toks) = (4 * length toks)%nat.
Proof.
  unfold LLMEngine.bytes_of_tokens.
  induction toks as [|tok toks IH]; [reflexivity|].
  cbn [flat_map length]. rewrite length_app, length_le_split, IH. lia.
Qed.

Lemma to_int_le_combine_split tok :
  INT_MIN ≤ tok ≤ INT_MAX → to_int (le_combine (le_split 4 tok)) = tok.
Proof.
  unfold INT_MIN, INT_MAX, to_int. intros Htok.
  rewrite le_combine_split. change (Z.of_nat 4 * 8) with 32.
  rewrite Z.add_mod_idemp_l by lia.
  rewrite Z.mod_small; lia.
Qed.

(** Reading back the bytes of a token vector gives the vector. *)
Lemma tokens_of_bytes_of_tokens toks : ∀ rest,
  Forall (λ tok, INT_MIN ≤ tok ≤ INT_MAX) toks →
  LLMEngine.tokens_of_bytes (length toks) (LLMEngine.bytes_of_tokens toks ++ rest) = toks.
Proof.
  unfold LLMEngine.bytes_of_tokens.
  induction toks as [|tok toks IH]; intros rest Hall; [reflexivity|].
  apply Forall_cons_1 in Hall as [Htok Hall].
  cbn [length LLMEngine.tokens_of_bytes flat_map]. rewrite <- app_assoc.
  rewrite take_app_length' by (symmetry; apply length_le_split).
  rewrite drop_app_length' by (symmetry; apply length_le_split).
  now rewrite to_int_le_combine_split, IH.
Qed.

(** What [save_session] leaves on disk. *)
Lemma save_session_writes fs path e fs' :
  LLMEngine.save_session fs path e = (true, fs') →
  LLMEngine.initialized e = true ∧
  LLMEngine.files fs' !! path =
    Some (le_split 8 (Z.of_nat (length (LLMEngine.token_history e))) ++
          LLMEngine.bytes_of_tokens (LLMEngine.token_history e)).
Proof.
  unfold LLMEngine.save_session.
  destruct (LLMEngine.initialized e); [|discriminate].
  destruct (LLMEngine.writable fs path); [|discriminate].
  simpl. intros [= <-]. split; [reflexivity|]. simpl. apply lookup_insert_eq.
Qed.

(** Up to its call of [clear_cache], [load_session] does restore the
    saved history. *)
Lemma loaded_tokens_of_saved (toks history : list Z) :
  Forall (λ tok, INT_MIN ≤ tok ≤ INT_MAX) toks →
  Z.of_nat (length toks) < 2 ^ 64 →
  LLMEngine.loaded_tokens
    (le_split 8 (Z.of_nat (length toks)) ++ LLMEngine.bytes_of_tokens toks) history
  = toks.
Proof.
  intros Hall Hlen. unfold LLMEngine.loaded_tokens, LLMEngine.read_into.
  rewrite take_app_length' by (symmetry; apply length_le_split).
  rewrite drop_app_length' by (symmetry; apply length_le_split).
  rewrite le_combine_split. change (Z.of_nat 8 * 8) with 64.
  rewrite Z.mod_small by lia. rewrite Nat2Z.id.
  rewrite take_ge by (rewrite bytes_of_tokens_length; lia).
  rewrite drop_ge by (rewrite !bytes_of_tokens_length, length_resize; lia).
  now apply tokens_of_bytes_of_tokens.
Qed.

(** C1. Whatever token history was saved, a [load_session] of the file
    that [save_session] wrote returns true with an empty TokenHistory and
    [n_past = 0]: after reading the length and the tokens into the
    history it calls the engine's own [clear_cache], which clears the
    history together with the backend's cache. TokenHistory is not the
    saved sequence unless that was empty. (The saved history is a
    [std::vector<int32_t>]: it holds no more than [max_size] tokens, so
    the [resize] of the load does not throw.) *)
Theorem load_session_after_save_forgets_history fs path e fs' e2 :
  Z.of_nat (length (LLMEngine.token_history e)) ≤ KVCacheManager.max_size →
  LLMEngine.save_session fs path e = (true, fs') →
  LLMEngine.initialized e2 = true →
  ∃ e',
    LLMEngine.load_session fs' path e2 = Some (LLMEngine.Loaded true, e') ∧
    LLMEngine.token_history e' = [] ∧
    LLMEngine.n_past e' = 0.
Proof.
  intros Hvec Hsave Hinit. apply save_session_writes in Hsave as [_ Hfile].
  unfold LLMEngine.load_session. rewrite Hinit, Hfile. simpl negb. cbv iota.
  destruct (Nat.ltb_spec
              (length (le_split 8 (Z.of_nat (length (LLMEngine.token_history e))) ++
                       LLMEngine.bytes_of_tokens (LLMEngine.token_history e))) 8)
    as [Hshort|_].
  { rewrite length_app, length_le_split in Hshort. lia. }
  cbv zeta.
  rewrite take_app_length' by (symmetry; apply length_le_split).
  rewrite le_combine_split. change (Z.of_nat 8 * 8) with 64.
  rewrite max_size_value in *.
  rewrite Z.mod_small by lia.
  destruct (Z.ltb_spec (2 ^ 61 - 1) (Z.of_nat (length (LLMEngine.token_history e))));
    [lia|].
  eexists. split; [reflexivity|].
  unfold LLMEngine.clear_cache. cbn [LLMEngine.initialized LLMEngine.set_token_history].
  rewrite Hinit. split; reflexivity.
Qed.

(** The history [1, 2, 3] saved and loaded again. *)
Lemma load_session_after_save_forgets_history_witness :
  ∃ e',
    LLMEngine.load_session
      (LLMEngine.save_session empty_disk "session.bin" engine123).2
      "session.bin" engine123 = Some (LLMEngine.Loaded true, e') ∧
    LLMEngine.token_history e' = [] ∧
    LLMEngine.n_past e' = 0.
Proof.
  apply (load_session_after_save_forgets_history empty_disk "session.bin" engine123).
  - vm_compute. discriminate.
  - reflexivity.
  - reflexivity.
Defined.

Example saved_session_holds_history :
  LLMEngine.loaded_tokens
    (le_split 8 3 ++ LLMEngine.bytes_of_tokens [1; 2; 3]) [] = [1; 2; 3].
Proof. reflexivity. Qed.

(** ** The order of binary32 *)

Lemma ltb_key x y :
  Float32.is_nan x = false → Float32.is_nan y = false →
  (Float32.ltb x y = true ↔ key_lt (float_key x) (float_key y)).
Proof.
  unfold Float32.ltb, SFltb, SFcompare, key_lt.
  destruct x as [sx|sx| |sx mx ex], y as [sy|sy| |sy my ey]; try discriminate; intros _ _;
    repeat match goal with s : bool |- _ => destruct s end; simpl;
    try (split; intros; first [lia | discriminate | reflexivity]).
  all: change (Pos.compare_cont Eq mx my) with (Pos.compare mx my).
  all: destruct (Z.compare_spec ex ey); destruct (Pos.compare_spec mx my); simpl;
    split; intros; first [lia | discriminate | reflexivity].
Qed.

Lemma ltb_nan_l x y : Float32.is_nan x = true → Float32.ltb x y = false.
Proof. destruct x; try discriminate. reflexivity. Qed.

Lemma ltb_nan_r x y : Float32.is_nan y = true → Float32.ltb x y = false.
Proof. destruct y; try discriminate. destruct x; reflexivity. Qed.

Lemma ltb_irrefl x : Float32.ltb x x = false.
Proof.
  destruct (Float32.is_nan x) eqn:Hx; [now apply ltb_nan_l|].
  destruct (Float32.ltb x x) eqn:Hlt; [|reflexivity].
  apply ltb_key in Hlt; try assumption. unfold key_lt in Hlt. lia.
Qed.

Lemma ltb_trans x y z :
  Float32.ltb x y = true → Float32.ltb y z = true → Float32.ltb x z = true.
Proof.
  intros Hxy Hyz.
  destruct (Float32.is_nan x) eqn:Hx; [now rewrite ltb_nan_l in Hxy|].
  destruct (Float32.is_nan y) eqn:Hy; [now rewrite ltb_nan_r in Hxy|].
  destruct (Float32.is_nan z) eqn:Hz; [now rewrite ltb_nan_r in Hyz|].
  apply ltb_key in Hxy, Hyz; try assumption. apply ltb_key; try assumption.
  unfold key_lt in *. lia.
Qed.

Lemma ltb_asym x y : Float32.ltb x y = true → Float32.ltb y x = false.
Proof.
  intros Hxy. destruct (Float32.ltb y x) eqn:Hyx; [|reflexivity].
  pose proof (ltb_trans _ _ _ Hxy Hyx) as Hxx. now rewrite ltb_irrefl in Hxx.
Qed.

(** [x >= y] and [y >= z] give [x >= z], unless [y] is a NaN. *)
Lemma ltb_neg_trans x y z :
  Float32.is_nan y = false →
  Float32.ltb x y = false → Float32.ltb y z = false → Float32.ltb x z = false.
Proof.
  intros Hy Hxy Hyz.
  destruct (Float32.is_nan x) eqn:Hx; [now apply ltb_nan_l|].
  destruct (Float32.is_nan z) eqn:Hz; [now apply ltb_nan_r|].
  destruct (Float32.ltb x z) eqn:Hxz; [|reflexivity].
  apply ltb_key in Hxz; try assumption.
  assert (¬ key_lt (float_key x) (float_key y)) as Hn1.
  { intros H. apply ltb_key in H; try assumption. congruence. }
  assert (¬ key_lt (float_key y) (float_key z)) as Hn2.
  { intros H. apply ltb_key in H; try assumption. congruence. }
  unfold key_lt in *. lia.
Qed.

Lemma ltb_neg_infinity x : Float32.ltb x Float32.neg_infinity = false.
Proof. destruct x as [[]|[]| |[]]; reflexivity. Qed.

Lemma neg_infinity_least x :
  Float32.is_nan x = false →
  Float32.ltb Float32.neg_infinity x = false → x = Float32.neg_infinity.
Proof. destruct x as [[]|[]| |[]]; try discriminate; reflexivity. Qed.

Lemma eqb_leb x y : Float32.eqb x y = true → Float32.leb x y = true.
Proof.
  unfold Float32.eqb, Float32.leb, SFeqb, SFleb.
  destruct (SFcompare x y) as [[]|]; try discriminate; reflexivity.
Qed.

(** ** The example platform sorts *)

Lemma insert_sorted_perm {A : Type} (lt : A → A → bool) x l :
  insert_sorted lt x l ≡ₚ x :: l.
Proof.
  induction l as [|y l IH]; simpl; [reflexivity|].
  destruct (lt y x); [|reflexivity].
  rewrite IH. apply Permutation_swap.
Qed.

Lemma insertion_sort_perm {A : Type} (lt : A → A → bool) l :
  insertion_sort A lt l ≡ₚ l.
Proof.
  induction l as [|x l IH]; simpl; [reflexivity|].
  rewrite insert_sorted_perm. now rewrite IH.
Qed.

Lemma insert_sorted_sorted {A : Type} (lt : A → A → bool) (dom : list A) x l :
  Sampler.strict_weak_on lt dom → x ∈ dom → l ⊆ dom →
  StronglySorted (λ a b, lt b a = false) l →
  StronglySorted (λ a b, lt b a = false) (insert_sorted lt x l).
Proof.
  intros (Hirr & Htrans & Hneg) Hx.
  induction l as [|y l IH]; intros Hsub Hsorted; simpl.
  - repeat constructor.
  - apply StronglySorted_inv in Hsorted as [Hl Hy].
    assert (y ∈ dom) as Hyd by (apply Hsub; left).
    assert (l ⊆ dom) as Hld by (intros z Hz; apply Hsub; now right).
    destruct (lt y x) eqn:Hyx.
    + constructor; [now apply IH|].
      rewrite insert_sorted_perm. constructor; [|exact Hy].
      destruct (lt x y) eqn:Hxy; [|reflexivity].
      rewrite <- (Hirr x Hx). symmetry. now apply (Htrans x y x).
    + constructor; [now constructor|].
      constructor; [exact Hyx|].
      rewrite Forall_forall in Hy |- *. intros z Hz.
      apply (Hneg z y x); auto.
Qed.

Lemma example_platform_sorts : Sampler.sorts example_platform.
Proof.
  intros A lt l Hswo. split; [apply insertion_sort_perm|]. simpl.
  assert (∀ l', l' ⊆ l →
            StronglySorted (λ a b, lt b a = false) (insertion_sort A lt l')) as Hgen.
  { induction l' as [|x l' IH]; intros Hsub; simpl; [constructor|].
    apply (insert_sorted_sorted lt l); auto.
    - apply Hsub. left.
    - rewrite insertion_sort_perm. intros z Hz. apply Hsub. now right.
    - apply IH. intros z Hz. apply Hsub. now right. }
  now apply Hgen.
Qed.

(** ** Sampler: the greedy choice *)

Lemma max_element_loop_spec l : ∀ i s v,
  let r := Sampler.max_element_loop l i s v in
  (r = s ∧ dominates v l) ∨
  (∃ k x, r = (i + k)%nat ∧ l !! k = Some x ∧
          Float32.ltb v x = true ∧ dominates x l).
Proof.
  unfold dominates.
  induction l as [|x l IH]; intros i s v; simpl.
  - left. split; [reflexivity|]. intros y Hy. inversion Hy.
  - destruct (Float32.ltb v x) eqn:Hvx.
    + right. destruct (IH (S i) i x) as [[-> Hdom] | (k & x2 & -> & Hk & Hlt & Hdom)].
      * exists 0%nat, x. rewrite Nat.add_0_r. repeat split; try assumption.
        intros y [->|Hy]%elem_of_cons; [apply ltb_irrefl | now apply Hdom].
      * exists (S k), x2. replace (i + S k)%nat with (S i + k)%nat by lia.
        repeat split; try assumption.
        -- now apply (ltb_trans v x x2).
        -- intros y [->|Hy]%elem_of_cons; [now apply ltb_asym | now apply Hdom].
    + destruct (IH (S i) s v) as [[-> Hdom] | (k & x2 & -> & Hk & Hlt & Hdom)].
      * left. split; [reflexivity|].
        intros y [->|Hy]%elem_of_cons; [assumption | now apply Hdom].
      * right. exists (S k), x2. replace (i + S k)%nat with (S i + k)%nat by lia.
        repeat split; try assumption.
        intros y [->|Hy]%elem_of_cons; [|now apply Hdom].
        destruct (Float32.ltb x2 x) eqn:Hxy; [|reflexivity].
        rewrite <- Hvx. symmetry. now apply (ltb_trans v x2 x).
Qed.

(** [std::max_element] finds a maximum of a non-empty range. *)
Lemma max_element_is_max l : l ≠ [] → is_max_index l (Sampler.max_element l).
Proof.
  destruct l as [|x l]; [congruence|]. intros _. unfold is_max_index, dominates. simpl.
  destruct (max_element_loop_spec l 1 0 x) as [[-> Hdom] | (k & x2 & -> & Hk & Hlt & Hdom)].
  - exists x. split; [reflexivity|].
    intros y [->|Hy]%elem_of_cons; [apply ltb_irrefl | now apply Hdom].
  - exists x2. split; [exact Hk|].
    intros y [->|Hy]%elem_of_cons; [now apply ltb_asym | now apply Hdom].
Qed.

(** *** Thinning keeps the maximum *)

Lemma thinned_refl l : l ≠ [] → thinned l l.
Proof.
  intros Hne. split.
  - apply Forall2_same_length_lookup. split; [reflexivity|].
    intros i x y Hx Hy. left. congruence.
  - destruct (max_element_is_max l Hne) as (x & Hx & Hdom).
    exists (Sampler.max_element l), x. auto.
Qed.

Lemma thinned_length l l' : thinned l l' → length l' = length l.
Proof. intros [Hall _]. symmetry. eapply Forall2_length, Hall. Qed.

Lemma thinned_no_nan l l' : no_nan l → thinned l l' → no_nan l'.
Proof.
  unfold no_nan. intros Hl [Hall _]. rewrite Forall_lookup in Hl |- *.
  intros i y Hy. destruct (Forall2_lookup_r _ _ _ _ _ Hall Hy) as (x & Hx & [->| ->]).
  - eapply Hl, Hx.
  - reflexivity.
Qed.

Lemma dominates_trans x y l :
  Float32.is_nan y = false →
  Float32.ltb x y = false → dominates y l → dominates x l.
Proof. intros Hy Hxy Hdom z Hz. apply (ltb_neg_trans x y z); auto. Qed.

Lemma thinned_trans l l1 l2 :
  no_nan l → thinned l l1 → thinned l1 l2 → thinned l l2.
Proof.
  intros Hnan [Hall1 (i & x & Hxi & Hxi1 & Hxdom)] [Hall2 (j & y & Hyj1 & Hyj2 & Hydom)].
  split.
  { eapply Forall2_trans; [|exact Hall1|exact Hall2].
    intros a b c [->| ->] [->| ->]; auto. }
  assert (Float32.is_nan x = false) as Hxnan.
  { unfold no_nan in Hnan. rewrite Forall_lookup in Hnan. eapply Hnan, Hxi. }
  assert (Float32.ltb y x = false) as Hyx.
  { apply Hydom. eapply list_elem_of_lookup_2, Hxi1. }
  destruct (Forall2_lookup_r _ _ _ _ _ Hall1 Hyj1) as (w & Hwj & [->| ->]).
  - exists j, w. repeat split; try assumption.
    now apply (dominates_trans w x).
  - apply neg_infinity_least in Hyx as ->; [|exact Hxnan].
    exists i, Float32.neg_infinity. repeat split; try assumption.
    destruct (Forall2_lookup_l _ _ _ _ _ Hall2 Hxi1) as (z & Hz & [->| ->]); exact Hz.
Qed.

(** An argmax of the thinned array is an argmax of the original. *)
Lemma thinned_argmax l l' r :
  no_nan l → thinned l l' → is_max_index l' r → is_max_index l r.
Proof.
  intros Hnan [Hall (i & x & Hxi & Hxi' & Hxdom)] (y & Hyr & Hydom).
  assert (Float32.is_nan x = false) as Hxnan.
  { unfold no_nan in Hnan. rewrite Forall_lookup in Hnan. eapply Hnan, Hxi. }
  assert (Float32.ltb y x = false) as Hyx.
  { apply Hydom. eapply list_elem_of_lookup_2, Hxi'. }
  destruct (Forall2_lookup_r _ _ _ _ _ Hall Hyr) as (w & Hwr & [->| ->]).
  - exists w. split; [exact Hwr|]. now apply (dominates_trans w x).
  - exists w. split; [exact Hwr|].
    apply neg_infinity_least in Hyx as ->; [|exact Hxnan].
    intros z Hz.
    assert (z = Float32.neg_infinity) as ->.
    { apply neg_infinity_least; [|now apply Hxdom].
      unfold no_nan in Hnan. rewrite Forall_forall in Hnan. now apply Hnan. }
    apply ltb_neg_infinity.
Qed.

(** *** The comparators of the two sorts *)

Lemma float_greater_strict_weak l :
  no_nan l → Sampler.strict_weak_on (λ a b, Float32.ltb b a) l.
Proof.
  unfold no_nan. rewrite Forall_forall. intros Hnan. repeat split.
  - intros x _. apply ltb_irrefl.
  - intros x y z _ _ _ Hyx Hzy. now apply (ltb_trans z y x).
  - intros x y z _ Hy _ Hyx Hzy. apply (ltb_neg_trans z y x); auto.
Qed.

Lemma pair_greater_strict_weak (l : list (Float32.float * nat)) :
  no_nan l.*1 → Sampler.strict_weak_on (λ a b, Float32.ltb b.1 a.1) l.
Proof.
  unfold no_nan. rewrite Forall_forall. intros Hnan. repeat split.
  - intros x _. apply ltb_irrefl.
  - intros x y z _ _ _ Hyx Hzy. now apply (ltb_trans z.1 y.1 x.1).
  - intros x y z _ Hy _ Hyx Hzy. apply (ltb_neg_trans z.1 y.1 x.1); auto.
    apply Hnan. now apply list_elem_of_fmap_2.
Qed.

(** *** The stages of the sampler *)

Lemma penalize_length cfg l token :
  length (Sampler.penalize cfg l token) = length l.
Proof.
  unfold Sampler.penalize. destruct (_ || _); [reflexivity|].
  destruct (l !! _); [apply length_insert | reflexivity].
Qed.

Lemma penalize_frequency_length cfg window l token :
  length (Sampler.penalize_frequency cfg window l token) = length l.
Proof.
  unfold Sampler.penalize_frequency. destruct (_ || _); [reflexivity|].
  destruct (l !! _); [apply length_insert | reflexivity].
Qed.

Lemma fold_left_length {A B : Type} (f : list A → B → list A) (xs : list B) :
  (∀ l x, length (f l x) = length l) →
  ∀ l, length (fold_left f xs l) = length l.
Proof.
  intros Hf. induction xs as [|x xs IH]; intros l; simpl; [reflexivity|].
  now rewrite IH, Hf.
Qed.

Lemma apply_repetition_penalty_length cfg l last_tokens :
  length (Sampler.apply_repetition_penalty cfg l last_tokens) = length l.
Proof.
  unfold Sampler.apply_repetition_penalty.
  destruct (_ || _); [reflexivity|]. cbv zeta.
  destruct (_ || _).
  - rewrite fold_left_length by (intros; apply penalize_frequency_length).
    apply fold_left_length. intros. apply penalize_length.
  - apply fold_left_length. intros. apply penalize_length.
Qed.

(** With [repeat_penalty == 1] or an empty window the stage does nothing. *)
Lemma apply_repetition_penalty_inactive cfg l last_tokens :
  Float32.eqb (Sampler.repeat_penalty cfg) Float32.one = true ∨ last_tokens = [] →
  Sampler.apply_repetition_penalty cfg l last_tokens = l.
Proof.
  unfold Sampler.apply_repetition_penalty. intros [-> | ->]; [reflexivity|].
  now rewrite orb_true_r.
Qed.

Lemma apply_top_k_thinned (P : Sampler.Platform) cfg l :
  Sampler.sorts P → no_nan l → l ≠ [] → thinned l (Sampler.apply_top_k cfg l).
Proof.
  intros Hsort Hnan Hne. unfold Sampler.apply_top_k.
  destruct (_ || _); [now apply thinned_refl|]. cbv zeta.
  destruct (Hsort _ (λ a b, Float32.ltb b a) l (float_greater_strict_weak l Hnan))
    as [Hperm _].
  destruct (Sampler.std_sort _ _ l !! _) as [thr|] eqn:Hthr; [|now apply thinned_refl].
  assert (thr ∈ l) as Hin.
  { rewrite <- Hperm. eapply list_elem_of_lookup_2, Hthr. }
  split.
  - apply Forall2_same_length_lookup. split; [now rewrite length_fmap|].
    intros i x y Hx Hy. rewrite list_lookup_fmap, Hx in Hy. injection Hy as <-.
    destruct (Float32.ltb x thr); auto.
  - destruct (max_element_is_max l Hne) as (x & Hx & Hdom).
    exists (Sampler.max_element l), x. repeat split; try assumption.
    rewrite list_lookup_fmap, Hx. simpl. now rewrite (Hdom thr Hin).
Qed.

Lemma insert_neg_infinity_shape (l : list Float32.float) i :
  Forall2 (λ x x', x' = x ∨ x' = Float32.neg_infinity) l
    (<[i := Float32.neg_infinity]> l).
Proof.
  apply Forall2_same_length_lookup. split; [now rewrite length_insert|].
  intros j x y Hx Hy. apply list_lookup_insert_Some in Hy as [(_ & <- & _) | [_ Hy]].
  - now right.
  - left. congruence.
Qed.

Lemma fold_neg_infinity_shape (idxs : list (Float32.float * nat)) : ∀ l,
  Forall2 (λ x x', x' = x ∨ x' = Float32.neg_infinity) l
    (fold_left (λ l a, <[a.2 := Float32.neg_infinity]> l) idxs l) ∧
  ∀ j, j ∉ idxs.*2 →
    fold_left (λ l a, <[a.2 := Float32.neg_infinity]> l) idxs l !! j = l !! j.
Proof.
  induction idxs as [|a idxs IH]; intros l; simpl.
  - split; [|reflexivity].
    apply Forall2_same_length_lookup. split; [reflexivity|].
    intros i x y Hx Hy. left. congruence.
  - destruct (IH (<[a.2 := Float32.neg_infinity]> l)) as [Hall Hkeep]. split.
    + eapply Forall2_trans; [|apply insert_neg_infinity_shape|exact Hall].
      intros x y z [->| ->] [->| ->]; auto.
    + intros j Hj. apply not_elem_of_cons in Hj as [Hne Hj].
      rewrite Hkeep by exact Hj. now apply list_lookup_insert_ne.
Qed.

Lemma cutoff_loop_pos cfg sum probs : ∀ i cumsum c,
  Sampler.cutoff_loop cfg sum probs i cumsum = Some c → (i < c)%nat.
Proof.
  induction probs as [|p probs IH]; intros i cumsum c; simpl; [discriminate|].
  destruct (Float32.ltb _ _).
  - intros [= <-]. lia.
  - intros Hc. apply IH in Hc. lia.
Qed.

Lemma apply_top_p_thinned (P : Sampler.Platform) cfg l :
  Sampler.sorts P → no_nan l → l ≠ [] →
  ∃ l', Sampler.apply_top_p cfg l = Some l' ∧ thinned l l'.
Proof.
  intros Hsort Hnan Hne. unfold Sampler.apply_top_p.
  destruct (Float32.leb _ _); [eauto using thinned_refl|]. cbv zeta.
  set (pairs := imap (λ i x, (x, i)) l).
  assert (pairs.*1 = l) as Hfst.
  { unfold pairs. rewrite fmap_imap. apply list_eq. intros i.
    rewrite list_lookup_imap. now destruct (l !! i). }
  assert (pairs.*2 = seq 0 (length l)) as Hsnd.
  { unfold pairs. rewrite fmap_imap.
    rewrite <- (list_fmap_id (seq 0 (length l))). apply (imap_seq_0 l id). }
  destruct (Hsort _ (λ a b, Float32.ltb b.1 a.1) pairs) as [Hperm Hsorted].
  { apply pair_greater_strict_weak. now rewrite Hfst. }
  destruct (Sampler.std_sort _ _ pairs) as [|[v0 i0] rest] eqn:Hs.
  { symmetry in Hperm. apply Permutation_nil_r in Hperm.
    apply (f_equal (fmap fst)) in Hperm. rewrite Hfst in Hperm. contradiction. }
  eexists. split; [reflexivity|].
  set (c := default (length l) _).
  assert (∃ c', c = S c') as [c' ->].
  { unfold c. destruct (Sampler.cutoff_loop _ _ _ _ _) as [n|] eqn:Hc; simpl.
    - apply cutoff_loop_pos in Hc. exists (Nat.pred n). lia.
    - destruct l; [congruence|]. simpl. eauto. }
  cbn [drop].
  destruct (fold_neg_infinity_shape (drop c' rest) l) as [Hall Hkeep].
  split; [exact Hall|].
  assert ((v0, i0) ∈ pairs) as Hin by (rewrite <- Hperm; left).
  apply elem_of_lookup_imap_1 in Hin as (i & y & [= -> ->] & Hy).
  exists i, y. repeat split; [exact Hy| |].
  - rewrite Hkeep; [exact Hy|].
    assert (NoDup ((y, i) :: rest).*2) as Hnd.
    { rewrite Hperm, Hsnd. apply NoDup_seq. }
    rewrite fmap_cons in Hnd. apply NoDup_cons in Hnd as [Hnotin _].
    intros Hin. apply Hnotin. rewrite fmap_drop in Hin.
    eapply subseteq_drop, Hin.
  - intros z Hz. apply list_elem_of_lookup_1 in Hz as [j Hj].
    assert ((z, j) ∈ (y, i) :: rest) as Hzin.
    { rewrite Hperm. apply (elem_of_lookup_imap_2 (λ i x, (x, i)) l z j Hj). }
    apply elem_of_cons in Hzin as [[= -> ->] | Hzin]; [apply ltb_irrefl|].
    apply StronglySorted_inv in Hsorted as [_ Hhead].
    rewrite Forall_forall in Hhead. apply (Hhead (z, j) Hzin).
Qed.

(** The greedy path on the window [logits[0 .. vocab_size)]. *)
Lemma sample_window_greedy (P : Sampler.Platform) (s : Sampler.t P) l last_tokens :
  Sampler.sorts P →
  Float32.leb (Sampler.temperature (Sampler.config_ s)) Float32.zero = true →
  l ≠ [] →
  Z.of_nat (length l) ≤ INT_MAX →
  no_nan (Sampler.apply_repetition_penalty (Sampler.config_ s) l last_tokens) →
  ∃ tok left,
    Sampler.sample_window s l last_tokens = Some (Z.of_nat tok, left, s) ∧
    length left = length l ∧
    is_max_index
      (Sampler.apply_repetition_penalty (Sampler.config_ s) l last_tokens) tok.
Proof.
  intros Hsort Htemp Hne Hlen Hnan. unfold Sampler.sample_window. cbv zeta.
  set (pen := Sampler.apply_repetition_penalty (Sampler.config_ s) l last_tokens) in *.
  assert (length pen = length l) as Hpenlen by apply apply_repetition_penalty_length.
  assert (pen ≠ []) as Hpenne.
  { intros Hnil. rewrite Hnil in Hpenlen. destruct l; [congruence | discriminate]. }
  unfold Sampler.apply_temperature. rewrite Htemp.
  pose proof (apply_top_k_thinned P (Sampler.config_ s) pen Hsort Hnan Hpenne) as Hk.
  set (lk := Sampler.apply_top_k (Sampler.config_ s) pen) in *.
  assert (lk ≠ []) as Hlkne.
  { intros Hnil. apply thinned_length in Hk. rewrite Hnil in Hk.
    destruct pen; [congruence | discriminate]. }
  destruct (apply_top_p_thinned P (Sampler.config_ s) lk Hsort
              (thinned_no_nan _ _ Hnan Hk) Hlkne) as (lp & -> & Hp).
  pose proof (thinned_trans _ _ _ Hnan Hk Hp) as Hthin.
  assert (length lp = length l) as Hlplen.
  { rewrite (thinned_length _ _ Hthin). exact Hpenlen. }
  assert (lp ≠ []) as Hlpne.
  { intros Hnil. rewrite Hnil in Hlplen. destruct l; [congruence | discriminate]. }
  pose proof (max_element_is_max lp Hlpne) as Hmax.
  exists (Sampler.max_element lp), lp. split; [|split].
  - destruct Hmax as (x & Hx & _). apply lookup_lt_Some in Hx.
    rewrite to_int_of_nat by lia. reflexivity.
  - exact Hlplen.
  - now apply (thinned_argmax pen lp).
Qed.

(** C3 (amended). For every configuration with [temperature == 0], every
    [last_tokens] window and every logits array of [vocab_size > 0]
    elements, [Sampler::sample] returns the index of a maximum element of
    the logits as [apply_repetition_penalty] has rewritten them (none of
    them a NaN), the greedy argmax of the penalised logits; it is an
    argmax of the input logits when the penalty stage is inactive
    ([repeat_penalty == 1] or an empty window). The top-k and top-p
    filters, which run before the greedy choice, leave it as it is. *)
Theorem sample_greedy_argmax_of_penalised (P : Sampler.Platform) (s : Sampler.t P)
    (logits : Sampler.loc) (vocab_size : Z) (last_tokens : list Z)
    (m : Sampler.heap) (arr : list Float32.float) :
  Sampler.sorts P →
  Float32.eqb (Sampler.temperature (Sampler.config_ s)) Float32.zero = true →
  m !! logits = Some arr →
  0 < vocab_size ≤ Z.of_nat (length arr) →
  vocab_size ≤ INT_MAX →
  let input := take (Z.to_nat vocab_size) arr in
  let penalised :=
    Sampler.apply_repetition_penalty (Sampler.config_ s) input last_tokens in
  no_nan penalised →
  ∃ tok : nat,
    sampled P (Sampler.sample s logits vocab_size last_tokens m) = Some (Z.of_nat tok) ∧
    is_max_index penalised tok ∧
    (Float32.eqb (Sampler.repeat_penalty (Sampler.config_ s)) Float32.one = true ∨
     last_tokens = [] → is_max_index input tok).
Proof.
  intros Hsort Htemp Harr Hsize Hint input penalised Hnan.
  assert (length input = Z.to_nat vocab_size) as Hlen.
  { unfold input. rewrite length_take. lia. }
  destruct (sample_window_greedy P s input last_tokens Hsort (eqb_leb _ _ Htemp))
    as (tok & left & Hrun & _ & Hmax).
  - intros Hnil. rewrite Hnil in Hlen. simpl in Hlen. lia.
  - lia.
  - exact Hnan.
  - exists tok. unfold Sampler.sample. rewrite Harr.
    destruct (Z.ltb_spec vocab_size 0); [lia|].
    destruct (Z.ltb_spec (Z.of_nat (length arr)) vocab_size); [lia|].
    cbn [orb]. cbv zeta. fold input. rewrite Hrun. split; [reflexivity|].
    split; [exact Hmax|].
    intros Hoff. unfold penalised in Hmax.
    now rewrite apply_repetition_penalty_inactive in Hmax.
Qed.

(** The repository's greedy test: logits [0.1, 0.5, 0.2, 0.9, 0.3], an
    empty window, temperature 0. *)
Lemma sample_greedy_argmax_of_penalised_witness :
  let s := example_sampler (sampler_config0 Float32.zero (Float32.ratio 11 10)) in
  let input := take (Z.to_nat 5) logits_greedy_test in
  let penalised := Sampler.apply_repetition_penalty (Sampler.config_ s) input [] in
  ∃ tok : nat,
    sampled example_platform
      (Sampler.sample s 1%positive 5 [] (heap_with logits_greedy_test)) =
      Some (Z.of_nat tok) ∧
    is_max_index penalised tok ∧
    (Float32.eqb (Sampler.repeat_penalty (Sampler.config_ s)) Float32.one = true ∨
     @nil Z = [] → is_max_index input tok).
Proof.
  apply (sample_greedy_argmax_of_penalised example_platform
           (example_sampler (sampler_config0 Float32.zero (Float32.ratio 11 10)))
           1%positive 5 [] (heap_with logits_greedy_test) logits_greedy_test).
  - exact example_platform_sorts.
  - reflexivity.
  - reflexivity.
  - simpl. lia.
  - unfold INT_MAX. lia.
  - repeat constructor.
Defined.

Example greedy_test_returns_3 :
  sampled example_platform
    (Sampler.sample (example_sampler (sampler_config0 Float32.zero (Float32.ratio 11 10)))
       1%positive 5 [] (heap_with logits_greedy_test)) = Some 3.
Proof. vm_compute. reflexivity. Qed.

(** C3 as stated fails: with [temperature == 0], [repeat_penalty = 2] and
    token 0 in the window, the logits [3, 2] become [1.5, 2] and the
    greedy choice is token 1, which is not a maximum of the input (the
    filters are switched off, so that only the penalty and the argmax
    run). *)
Lemma sample_greedy_not_argmax_of_input :
  sampled example_platform
    (Sampler.sample (example_sampler sampler_config_greedy_penalty)
       1%positive 2 [0] (heap_with logits_3_2)) = Some 1 ∧
  Sampler.max_element logits_3_2 = 0%nat ∧
  ¬ is_max_index logits_3_2 1.
Proof.
  split; [vm_compute; reflexivity|]. split; [reflexivity|].
  intros (x & Hx & Hdom). injection Hx as <-.
  specialize (Hdom (Float32.of_Z 3) ltac:(left)). vm_compute in Hdom. discriminate.
Qed.

(** The same on every platform: with the filters off neither the sort
    nor [exp] is called. *)
Example greedy_follows_penalty_on_every_platform (P : Sampler.Platform) (g : Sampler.rng) :
  sampled P
    (Sampler.sample (@Sampler.Build_t P sampler_config_greedy_penalty g)
       1%positive 2 [0] (heap_with logits_3_2)) = Some 1.
Proof. reflexivity. Qed.

(** And with the filters of the test configuration ([top_k = 40],
    [top_p = 0.9]) on the example platform. *)
Example greedy_follows_penalty_under_filters :
  sampled example_platform
    (Sampler.sample (example_sampler (sampler_config0 Float32.zero (Float32.of_Z 2)))
       1%positive 2 [0] (heap_with logits_3_2)) = Some 1.
Proof. vm_compute. reflexivity. Qed.

(** Tied maxima: the logits [3, 3] under [top_p = 0.4]. The insertion
    sort keeps index 0 first, the filter removes index 1, and the choice is
    index 0; a sort that puts index 1 first makes it index 1. Either is a
    maximum. *)
Example greedy_tie_under_top_p :
  sampled example_platform
    (Sampler.sample
       (example_sampler
          {| Sampler.temperature := Float32.zero; Sampler.top_p := Float32.ratio 4 10;
             Sampler.top_k := 40; Sampler.repeat_penalty := Float32.one;
             Sampler.repeat_last_n := 64; Sampler.frequency_penalty := Float32.zero;
             Sampler.presence_penalty := Float32.zero; Sampler.seed := 42 |})
       1%positive 2 [] (heap_with [Float32.of_Z 3; Float32.of_Z 3])) = Some 0.
Proof. vm_compute. reflexivity. Qed.

(** ** Sampler: what the two entry points do to the caller's array *)

Lemma ltb_not_leb x y : Float32.ltb x y = true → Float32.leb y x = false.
Proof.
  intros Hlt.
  destruct (Float32.is_nan x) eqn:Hx; [now rewrite ltb_nan_l in Hlt|].
  destruct (Float32.is_nan y) eqn:Hy; [now rewrite ltb_nan_r in Hlt|].
  apply ltb_key in Hlt; try assumption. revert Hlt.
  unfold Float32.leb, SFleb, SFcompare, key_lt.
  destruct x as [sx|sx| |sx mx ex], y as [sy|sy| |sy my ey]; try discriminate;
    repeat match goal with s : bool |- _ => destruct s end; simpl;
    try (intros; first [lia | reflexivity]).
  all: change (Pos.compare_cont Eq my mx) with (Pos.compare my mx).
  all: destruct (Z.compare_spec ey ex); destruct (Pos.compare_spec my mx); simpl;
    intros; first [lia | reflexivity].
Qed.

(** [sample] writes the window it computed back over the caller's array. *)
Lemma sample_writes_back (P : Sampler.Platform) (s : Sampler.t P) logits vocab_size
    last_tokens m tok s' m' :
  Sampler.sample s logits vocab_size last_tokens m = Some (tok, s', m') →
  ∃ arr window,
    m !! logits = Some arr ∧
    0 ≤ vocab_size ≤ Z.of_nat (length arr) ∧
    Sampler.sample_window s (take (Z.to_nat vocab_size) arr) last_tokens =
      Some (tok, window, s') ∧
    m' = <[logits := window ++ drop (Z.to_nat vocab_size) arr]> m.
Proof.
  unfold Sampler.sample. destruct (m !! logits) as [arr|]; [|discriminate].
  destruct (Z.ltb_spec vocab_size 0); [discriminate|].
  destruct (Z.ltb_spec (Z.of_nat (length arr)) vocab_size); [discriminate|].
  cbn [orb]. cbv zeta.
  destruct (Sampler.sample_window s _ last_tokens) as [[[tok' window] s'']|] eqn:Hrun;
    [|discriminate].
  intros [= <- <- <-]. exists arr, window. repeat split; try lia. exact Hrun.
Qed.

Lemma apply_temperature_length cfg (l : list Float32.float) :
  length (Sampler.apply_temperature cfg l) = length l.
Proof.
  unfold Sampler.apply_temperature. destruct (Float32.leb _ _); [reflexivity|].
  apply length_fmap.
Qed.

Lemma apply_top_k_length (P : Sampler.Platform) cfg (l : list Float32.float) :
  length (Sampler.apply_top_k cfg l) = length l.
Proof.
  unfold Sampler.apply_top_k. destruct (_ || _); [reflexivity|]. cbv zeta.
  destruct (_ !! _); [apply length_fmap | reflexivity].
Qed.

Lemma apply_top_p_length (P : Sampler.Platform) cfg (l l' : list Float32.float) :
  Sampler.apply_top_p cfg l = Some l' → length l' = length l.
Proof.
  unfold Sampler.apply_top_p. destruct (Float32.leb _ _); [now intros [= <-]|].
  cbv zeta. destruct (Sampler.std_sort _ _ _) as [|[max_logit i0] rest]; [discriminate|].
  intros [= <-]. apply fold_left_length. intros l0 a. apply length_insert.
Qed.

Lemma softmax_length (P : Sampler.Platform) (l probs : list Float32.float) :
  Sampler.softmax l = Some probs → length probs = length l.
Proof.
  unfold Sampler.softmax. destruct (_ !! _); [|discriminate].
  intros [= <-]. now rewrite !length_fmap.
Qed.

Lemma sample_window_length (P : Sampler.Platform) (s s' : Sampler.t P)
    (l window : list Float32.float) (last_tokens : list Z) (tok : Z) :
  Sampler.sample_window s l last_tokens = Some (tok, window, s') →
  length window = length l ∧ Sampler.config_ s' = Sampler.config_ s.
Proof.
  unfold Sampler.sample_window. cbv zeta.
  destruct (Sampler.apply_top_p _ _) as [filtered|] eqn:Hp; [|discriminate].
  apply apply_top_p_length in Hp.
  rewrite apply_top_k_length, apply_temperature_length,
    apply_repetition_penalty_length in Hp.
  destruct (Float32.leb _ _).
  - intros [= <- <- <-]. auto.
  - destruct (Sampler.softmax filtered) as [probs|] eqn:Hsoft; [|discriminate].
    apply softmax_length in Hsoft.
    destruct (Sampler.discrete_distribution probs _) as [token g].
    intros [= <- <- <-]. split; [congruence | reflexivity].
Qed.

(** The sign of a rounded result is the sign handed to the rounding. *)
Lemma signbit_round_aux (mx ex : Z) (lx : location) :
  Float32.signbit (binary_round_aux Float32.prec Float32.emax false mx ex lx) = false.
Proof.
  unfold binary_round_aux.
  destruct (shr_fexp _ _ mx ex lx) as [mrs' e'].
  destruct (shr_fexp _ _ _ e' loc_Exact) as [mrs'' e''].
  destruct (shr_m mrs''); [reflexivity | | reflexivity].
  destruct (_ <=? _); reflexivity.
Qed.

Lemma signbit_add (x y : Float32.float) :
  Float32.signbit x = false → Float32.signbit y = false →
  Float32.signbit (Float32.add x y) = false.
Proof.
  destruct x as [sx|sx| |sx mx ex], y as [sy|sy| |sy my ey]; simpl;
    intros Hx Hy; subst; try reflexivity.
  change (cond_Zopp false ?z) with z.
  change (Z.pos ?a + Z.pos ?b) with (Z.pos (a + b)).
  unfold binary_normalize, binary_round.
  destruct (shl_align (_ + _) _ _) as [mz ez]. apply signbit_round_aux.
Qed.

Lemma signbit_div (x y : Float32.float) :
  Float32.signbit x = false → Float32.signbit y = false →
  Float32.signbit (Float32.div x y) = false.
Proof.
  destruct x as [sx|sx| |sx mx ex], y as [sy|sy| |sy my ey]; simpl;
    intros Hx Hy; subst; try reflexivity.
  destruct (SFdiv_core_binary _ _ _ _ _ _) as [[mz ez] lz]. apply signbit_round_aux.
Qed.

Lemma signbit_mul_self (x : Float32.float) :
  Float32.signbit (Float32.mul x x) = false.
Proof.
  destruct x as [sx|sx| |sx mx ex]; simpl; rewrite ?xorb_nilpotent; try reflexivity.
  apply signbit_round_aux.
Qed.

Lemma signbit_float_sum (l : list Float32.float) : ∀ acc,
  Float32.signbit acc = false →
  Forall (λ y, Float32.signbit y = false) l →
  Float32.signbit (float_sum acc l) = false.
Proof.
  induction l as [|y l IH]; intros acc Hacc Hall; [exact Hacc|].
  apply Forall_cons_1 in Hall as [Hy Hall]. simpl.
  apply IH; [now apply signbit_add | exact Hall].
Qed.

(** A float with a clear sign bit is not below zero, and a float below
    zero has its sign bit set. *)
Lemma signbit_not_negative (x : Float32.float) :
  Float32.signbit x = false → Float32.ltb x Float32.zero = false.
Proof. destruct x as [s|s| |s m e]; simpl; intros Hs; subst; reflexivity. Qed.

Lemma fold_left_float_sum (l : list Float32.float) : ∀ acc,
  fold_left Float32.add l acc = float_sum acc l.
Proof. induction l as [|y l IH]; intros acc; [reflexivity | apply IH]. Qed.

(** The loops of [softmax] compute the softmax of the specification, and
    what they leave in the array is never negative. *)
Lemma softmax_is_softmax (P : Sampler.Platform) (x probs : list Float32.float) :
  Sampler.exp_not_negative P →
  Sampler.softmax x = Some probs →
  is_softmax P x probs ∧ Forall (λ p, Float32.signbit p = false) probs.
Proof.
  intros Hexp. unfold Sampler.softmax.
  destruct (x !! Sampler.max_element x) as [M|] eqn:HM; [|discriminate].
  cbv zeta. rewrite fold_left_float_sum. intros [= <-].
  assert (Hne : x ≠ []) by (intros ->; discriminate HM).
  destruct (max_element_is_max x Hne) as (M' & HM' & Hdom).
  rewrite HM in HM'. injection HM' as <-.
  set (exps := (λ z, Sampler.std_exp (Float32.sub z M)) <$> x).
  assert (Hsum : Float32.signbit (float_sum Float32.zero exps) = false).
  { apply signbit_float_sum; [reflexivity|].
    apply Forall_fmap, Forall_forall. intros z _. apply Hexp. }
  split.
  - exists M. split; [eapply list_elem_of_lookup_2, HM|]. split; [exact Hdom|].
    split; [unfold exps; now rewrite !length_fmap|].
    intros i y Hy. unfold exps. now rewrite !list_lookup_fmap, Hy.
  - apply Forall_fmap, Forall_fmap, Forall_forall. intros z _. simpl.
    apply signbit_div; [apply Hexp | exact Hsum].
Qed.

(** C9. [Sampler::sample] rewrites the caller's array in place: after a
    call with [temperature > 0] its first [vocab_size] elements are the
    softmax probabilities of the penalised, scaled and filtered logits,
    none of them below zero, and the rest of the memory is as before; so
    an array that held a negative logit is not what it was.
    [Sampler::sample_with_prob] works on a copy of its own and returns
    with the memory, the caller's array included, exactly as it found it.
    ([expf] never returns a negative number.) *)
Theorem sample_mutates_sample_with_prob_preserves (P : Sampler.Platform)
    (s : Sampler.t P) (logits : Sampler.loc) (vocab_size : Z) (last_tokens : list Z)
    (m : Sampler.heap) :
  Sampler.exp_not_negative P →
  (∀ tok s' m',
     Sampler.sample s logits vocab_size last_tokens m = Some (tok, s', m') →
     Float32.ltb Float32.zero (Sampler.temperature (Sampler.config_ s)) = true →
     ∃ arr filtered probs,
       m !! logits = Some arr ∧
       Sampler.apply_top_p (Sampler.config_ s)
         (Sampler.apply_top_k (Sampler.config_ s)
            (Sampler.apply_temperature (Sampler.config_ s)
               (Sampler.apply_repetition_penalty (Sampler.config_ s)
                  (take (Z.to_nat vocab_size) arr) last_tokens))) = Some filtered ∧
       m' = <[logits := probs ++ drop (Z.to_nat vocab_size) arr]> m ∧
       is_softmax P filtered probs ∧
       Z.of_nat (length probs) = vocab_size ∧
       Forall (λ p, Float32.ltb p Float32.zero = false) probs ∧
       ((∃ x, x ∈ take (Z.to_nat vocab_size) arr ∧ Float32.ltb x Float32.zero = true) →
        m' !! logits ≠ m !! logits)) ∧
  (∀ tok out_prob s' m',
     Sampler.sample_with_prob s logits vocab_size last_tokens m =
       Some (tok, out_prob, s', m') →
     m' = m).
Proof.
  intros Hexp. split.
  - intros tok s' m' Hrun Htemp.
    apply sample_writes_back in Hrun as (arr & window & Harr & Hsize & Hwin & ->).
    pose proof (sample_window_length _ _ _ _ _ _ _ Hwin) as [Hlen _].
    rewrite length_take in Hlen.
    exists arr. revert Hwin. unfold Sampler.sample_window. cbv zeta.
    destruct (Sampler.apply_top_p _ _) as [filtered|]; [|discriminate].
    rewrite (ltb_not_leb _ _ Htemp).
    destruct (Sampler.softmax filtered) as [probs|] eqn:Hsoft; [|discriminate].
    destruct (Sampler.discrete_distribution probs _) as [token g].
    intros [= <- <- <-]. exists filtered, probs.
    destruct (softmax_is_softmax P filtered probs Hexp Hsoft) as [Hspec Hsign].
    assert (Hpos : Forall (λ p, Float32.ltb p Float32.zero = false) probs).
    { eapply Forall_impl; [exact Hsign|]. intros p. apply signbit_not_negative. }
    split; [exact Harr|]. split; [reflexivity|]. split; [reflexivity|].
    split; [exact Hspec|]. split; [lia|]. split; [exact Hpos|].
    intros (x & Hx & Hneg) Heq.
    unfold Sampler.heap, Sampler.loc in *.
    rewrite lookup_insert_eq, Harr in Heq. injection Heq as Heq.
    assert (Hsame : probs = take (Z.to_nat vocab_size) arr).
    { apply (f_equal (take (Z.to_nat vocab_size))) in Heq.
      rewrite take_app_length' in Heq by lia. exact Heq. }
    rewrite <- Hsame in Hx.
    apply (proj1 (Forall_forall _ _) Hpos) in Hx. congruence.
  - intros tok out_prob s' m'. unfold Sampler.sample_with_prob.
    destruct (m !! logits) as [arr|]; [|discriminate].
    destruct (_ || _); [discriminate|]. cbv zeta.
    set (copy := fresh (dom m)).
    destruct (Sampler.sample s copy vocab_size last_tokens _)
      as [[[tok' s''] m'']|] eqn:Hrun; [|discriminate].
    apply sample_writes_back in Hrun as (arr' & window & _ & _ & _ & ->).
    destruct (tok' <? 0); [discriminate|].
    destruct (_ ≫= _); [|discriminate].
    intros [= <- <- <- <-].
    unfold Sampler.heap, Sampler.loc in *.
    rewrite insert_insert_eq. apply delete_insert_id.
    apply not_elem_of_dom. apply is_fresh.
Qed.

(** The exponential of the examples is a product of squares. *)
Lemma example_platform_exp_not_negative : Sampler.exp_not_negative example_platform.
Proof.
  intros x. change (Float32.signbit (exp_by_squaring x) = false).
  unfold exp_by_squaring.
  destruct x as [s|s| |s mx ex]; try destruct s; try reflexivity;
    rewrite Nat.iter_succ; apply signbit_mul_self.
Qed.

(** [sample] at temperature 1 on the logits [-1, 2]: top-p masks the
    first, and the array holds the probabilities [0, 1] afterwards. *)
Example sample_replaces_negative_logit :
  heap_after
    (Sampler.sample (example_sampler (sampler_config0 Float32.one (Float32.ratio 11 10)))
       1%positive 2 [] (heap_with logits_m1_2)) =
  Some (heap_with [Float32.zero; Float32.one]).
Proof. vm_compute. reflexivity. Qed.

Example sample_with_prob_keeps_m1_2 :
  heap_after
    (Sampler.sample_with_prob
       (example_sampler (sampler_config0 Float32.one (Float32.ratio 11 10)))
       1%positive 2 [] (heap_with logits_m1_2)) =
  Some (heap_with logits_m1_2).
Proof. vm_compute. reflexivity. Qed.

(** The two entry points at temperature 1 on the logits [-1, 2]: [sample]
    returns and has changed the array, [sample_with_prob] returns and has
    not. *)
Lemma sample_mutates_sample_with_prob_preserves_witness :
  let s := example_sampler (sampler_config0 Float32.one (Float32.ratio 11 10)) in
  let m := heap_with logits_m1_2 in
  (∃ m', heap_after (Sampler.sample s 1%positive 2 [] m) = Some m' ∧
         m' !! 1%positive ≠ m !! 1%positive) ∧
  (∃ m', heap_after (Sampler.sample_with_prob s 1%positive 2 [] m) = Some m' ∧
         m' = m).
Proof.
  intros s m.
  destruct (sample_mutates_sample_with_prob_preserves example_platform s 1%positive 2 []
              m example_platform_exp_not_negative) as [Hsample Hwith_prob].
  split.
  - pose proof sample_replaces_negative_logit as Hrun. fold s m in Hrun.
    destruct (Sampler.sample s 1%positive 2 [] m) as [[[tok s'] m']|];
      [|discriminate Hrun].
    exists m'. split; [reflexivity|].
    destruct (Hsample tok s' m' eq_refl eq_refl)
      as (arr & filtered & probs & Harr & _ & _ & _ & _ & _ & Hchanged).
    apply Hchanged. injection Harr as <-.
    exists (Float32.of_Z (-1)). split; [apply list_elem_of_here | reflexivity].
  - pose proof sample_with_prob_keeps_m1_2 as Hrun. fold s m in Hrun.
    destruct (Sampler.sample_with_prob s 1%positive 2 [] m) as [[[[tok p] s'] m']|];
      [|discriminate Hrun].
    exists m'. split; [reflexivity|]. exact (Hwith_prob tok p s' m' eq_refl).
Defined.

(** The rewritten array need not differ from the old one: the single
    logit [1] has the probability [1]. *)
Example sample_rewrites_one_with_one :
  heap_after
    (Sampler.sample (example_sampler (sampler_config0 Float32.one (Float32.ratio 11 10)))
       1%positive 1 [] (heap_with [Float32.one])) =
  Some (heap_with [Float32.one]).
Proof. vm_compute. reflexivity. Qed.

(** A call of each on the logits [0.1, 0.5, 0.2, 0.9, 0.3] at
    temperature 1: [sample] leaves probabilities in the array,
    [sample_with_prob] leaves the array alone. *)
Example sample_overwrites_logits :
  heap_after
    (Sampler.sample (example_sampler (sampler_config0 Float32.one (Float32.ratio 11 10)))
       1%positive 5 [] (heap_with logits_greedy_test)) =
  Some (heap_with
          [S754_finite false 9527172 (-26); S754_finite false 14212898 (-26);
           S754_finite false 10529108 (-26); S754_finite false 10601596 (-25);
           S754_finite false 11636492 (-26)]).
Proof. vm_compute. reflexivity. Qed.

Example sample_with_prob_keeps_logits :
  heap_after
    (Sampler.sample_with_prob
       (example_sampler (sampler_config0 Float32.one (Float32.ratio 11 10)))
       1%positive 5 [] (heap_with logits_greedy_test)) =
  Some (heap_with logits_greedy_test).
Proof. vm_compute. reflexivity. Qed.

(** * Part III: further properties of the code *)

(** ** KVCacheManager: serialize and deserialize *)

Lemma length_flat_map_le_split (toks : list Z) :
  length (flat_map (le_split 4) toks) = (4 * length toks)%nat.
Proof.
  induction toks as [|tok toks IH]; [reflexivity|].
  cbn [flat_map length]. rewrite length_app, length_le_split, IH. lia.
Qed.

(** The four bytes of token [i] in the serialized token array. *)
Lemma take_drop_flat_map_le_split (toks : list Z) : ∀ (i : nat) x,
  toks !! i = Some x →
  take 4 (drop (4 * i) (flat_map (le_split 4) toks)) = le_split 4 x.
Proof.
  induction toks as [|tok toks IH]; intros i x Hi; [discriminate|].
  cbn [flat_map]. destruct i as [|i].
  - injection Hi as ->. rewrite Nat.mul_0_r, drop_0.
    now rewrite take_app_length' by (symmetry; apply length_le_split).
  - replace (4 * S i)%nat with (4 + 4 * i)%nat by lia.
    rewrite <- drop_drop.
    rewrite drop_app_length' by (symmetry; apply length_le_split).
    now apply IH.
Qed.

Lemma length_serialize c :
  length (KVCacheManager.serialize c) =
  (8 + 4 * length (KVCacheManager.token_history_ c))%nat.
Proof.
  unfold KVCacheManager.serialize.
  now rewrite length_app, length_le_split, length_flat_map_le_split.
Qed.

(** X1. Round trip: [deserialize] of what [serialize] produced returns
    true and leaves the receiving cache with the sender's token history
    and its length as the cached-token count, that is in the state
    [update] of that history gives. The tokens are [int32_t] values and
    the history is no longer than a vector can be. *)
Theorem deserialize_serialize_round_trip (c1 c2 : KVCacheManager.t) :
  Forall (λ tok, INT_MIN ≤ tok ≤ INT_MAX) (KVCacheManager.token_history_ c1) →
  Z.of_nat (length (KVCacheManager.token_history_ c1)) ≤ KVCacheManager.max_size →
  KVCacheManager.deserialize c2 (KVCacheManager.serialize c1) =
    (KVCacheManager.Deserialized true,
     KVCacheManager.update c2 (KVCacheManager.token_history_ c1)).
Proof.
  intros Hall Hlen. rewrite max_size_value in Hlen.
  unfold KVCacheManager.deserialize.
  rewrite length_serialize.
  destruct (Z.ltb_spec (Z.of_nat (8 + 4 * length (KVCacheManager.token_history_ c1))) 8);
    [lia|].
  assert (Hn : le_combine (take 8 (KVCacheManager.serialize c1)) =
               Z.of_nat (length (KVCacheManager.token_history_ c1))).
  { unfold KVCacheManager.serialize.
    rewrite take_app_length' by (symmetry; apply length_le_split).
    rewrite le_combine_split. change (Z.of_nat 8 * 8) with 64.
    apply Z.mod_small. lia. }
  rewrite Hn. unfold to_size_t.
  rewrite (Z.mod_small (_ * 4)) by lia. rewrite Z.mod_small by lia.
  destruct (Z.ltb_spec (Z.of_nat (8 + 4 * length (KVCacheManager.token_history_ c1)))
              (8 + Z.of_nat (length (KVCacheManager.token_history_ c1)) * 4)); [lia|].
  rewrite max_size_value.
  destruct (Z.ltb_spec (2 ^ 61 - 1)
              (Z.of_nat (length (KVCacheManager.token_history_ c1)))); [lia|].
  rewrite Nat2Z.id. unfold KVCacheManager.update. do 2 f_equal.
  apply list_eq. intros i. rewrite list_lookup_fmap.
  destruct (KVCacheManager.token_history_ c1 !! i) as [x|] eqn:Hi.
  - rewrite lookup_seq_lt by (eapply lookup_lt_Some, Hi). simpl. f_equal.
    unfold KVCacheManager.token_at, KVCacheManager.serialize.
    rewrite <- drop_drop.
    rewrite drop_app_length' by (symmetry; apply length_le_split).
    rewrite (take_drop_flat_map_le_split _ i x Hi).
    apply to_int_le_combine_split.
    rewrite Forall_forall in Hall. apply Hall. eapply list_elem_of_lookup_2, Hi.
  - rewrite lookup_seq_ge by (apply lookup_ge_None, Hi). reflexivity.
Qed.

Lemma deserialize_serialize_round_trip_witness :
  KVCacheManager.deserialize (KVCacheManager.create cache_config0)
    (KVCacheManager.serialize cache12345) =
    (KVCacheManager.Deserialized true,
     KVCacheManager.update (KVCacheManager.create cache_config0)
       (KVCacheManager.token_history_ cache12345)).
Proof.
  apply deserialize_serialize_round_trip.
  - repeat constructor; vm_compute; discriminate.
  - vm_compute. discriminate.
Defined.

(** X2. [deserialize] returns true only for a blob that holds the header
    and all the tokens the header announces: the second [memcpy] never
    reads past the end of [data], although the length check adds in
    [size_t]. The cache then holds exactly the announced number of
    tokens, each read from its four bytes. *)
Theorem deserialize_true_reads_inside_blob (c c' : KVCacheManager.t) (data : list byte) :
  KVCacheManager.deserialize c data = (KVCacheManager.Deserialized true, c') →
  let n := le_combine (take 8 data) in
  8 + 4 * n ≤ Z.of_nat (length data) ∧
  Z.of_nat (length (KVCacheManager.token_history_ c')) = n ∧
  (∀ i : nat, Z.of_nat i < n →
     KVCacheManager.token_history_ c' !! i = Some (KVCacheManager.token_at data i)) ∧
  KVCacheManager.cached_tokens_ c' = to_int n.
Proof.
  unfold KVCacheManager.deserialize. intros Hd.
  pose proof (le_combine_bound (take 8 data)) as Hb.
  set (n := le_combine (take 8 data)) in *.
  destruct (Z.ltb_spec (Z.of_nat (length data)) 8) as [|H8]; [discriminate|].
  destruct (Z.ltb_spec (Z.of_nat (length data)) (to_size_t (8 + to_size_t (n * 4))))
    as [|Hcheck]; [discriminate|].
  rewrite max_size_value in Hd.
  destruct (Z.ltb_spec (2 ^ 61 - 1) n) as [|Hmax]; [discriminate|].
  injection Hd as <-. cbn [KVCacheManager.token_history_ KVCacheManager.cached_tokens_].
  unfold to_size_t in Hcheck.
  rewrite (Z.mod_small (n * 4)) in Hcheck by lia.
  rewrite Z.mod_small in Hcheck by lia.
  rewrite length_fmap, length_seq.
  repeat split; try lia.
  intros i Hi. rewrite list_lookup_fmap, lookup_seq_lt by lia. reflexivity.
Qed.

Lemma deserialize_true_reads_inside_blob_witness :
  let data := KVCacheManager.serialize cache12345 in
  let c' := KVCacheManager.update (KVCacheManager.create cache_config0) [1; 2; 3; 4; 5] in
  let n := le_combine (take 8 data) in
  8 + 4 * n ≤ Z.of_nat (length data) ∧
  Z.of_nat (length (KVCacheManager.token_history_ c')) = n ∧
  (∀ i : nat, Z.of_nat i < n →
     KVCacheManager.token_history_ c' !! i = Some (KVCacheManager.token_at data i)) ∧
  KVCacheManager.cached_tokens_ c' = to_int n.
Proof.
  apply (deserialize_true_reads_inside_blob (KVCacheManager.create cache_config0)).
  vm_compute. reflexivity.
Defined.

(** X3. A header that announces [2^62] tokens or more is not always
    answered with false: the byte count [8 + 4 * n] wraps around in
    [size_t], and when the blob is at least as long as the wrapped sum the
    check passes and [token_history_.resize] throws. The cache is left as
    it was. *)
Theorem deserialize_wrapped_count_throws (c : KVCacheManager.t) (data : list byte) :
  8 ≤ Z.of_nat (length data) →
  2 ^ 62 ≤ le_combine (take 8 data) →
  (8 + 4 * le_combine (take 8 data)) mod 2 ^ 64 ≤ Z.of_nat (length data) →
  KVCacheManager.deserialize c data = (KVCacheManager.ResizeThrew, c).
Proof.
  intros H8 Hn Hwrap. unfold KVCacheManager.deserialize.
  destruct (Z.ltb_spec (Z.of_nat (length data)) 8); [lia|].
  unfold to_size_t. rewrite Z.add_mod_idemp_r by lia.
  rewrite (Z.mul_comm _ 4).
  destruct (Z.ltb_spec (Z.of_nat (length data))
              ((8 + 4 * le_combine (take 8 data)) mod 2 ^ 64)); [lia|].
  rewrite max_size_value.
  destruct (Z.ltb_spec (2 ^ 61 - 1) (le_combine (take 8 data))); [reflexivity|lia].
Qed.

Lemma deserialize_wrapped_count_throws_witness :
  KVCacheManager.deserialize cache12345 (le_split 8 (2 ^ 62)) =
    (KVCacheManager.ResizeThrew, cache12345).
Proof.
  apply deserialize_wrapped_count_throws; vm_compute; discriminate.
Defined.

(** ** KVCacheManager: truncate *)

Lemma lcp_len_take_r (a : list Z) : ∀ b (n : nat),
  lcp_len a (take n b) = Nat.min (lcp_len a b) n.
Proof.
  induction a as [|x a IH]; intros [|y b] [|n]; simpl; try reflexivity; try lia.
  destruct (Z.eqb x y); [|reflexivity]. rewrite IH. lia.
Qed.

(** What [truncate] leaves of the history of a consistent cache. *)
Lemma truncate_token_history (c : KVCacheManager.t) (len : Z) :
  KVCacheManager.consistent c →
  KVCacheManager.token_history_ (KVCacheManager.truncate c len) =
    take (Z.to_nat len) (KVCacheManager.token_history_ c).
Proof.
  unfold KVCacheManager.consistent, KVCacheManager.truncate. intros Hc.
  destruct (Z.ltb_spec len 0).
  - replace (Z.to_nat len) with 0%nat by lia.
    destruct (Z.ltb_spec 0 (KVCacheManager.cached_tokens_ c)); simpl.
    + change (Z.to_nat 0) with 0%nat. now rewrite resize_0, take_0.
    + rewrite take_0. destruct (KVCacheManager.token_history_ c);
        [reflexivity | simpl in Hc; lia].
  - destruct (Z.ltb_spec len (KVCacheManager.cached_tokens_ c)); simpl.
    + apply resize_le. lia.
    + rewrite take_ge by lia. reflexivity.
Qed.

(** X4. In a consistent cache [truncate(length)] keeps the first [length]
    tokens of the history (all of it when [length] is not smaller than
    the count, none when [length] is negative): it never grows the cache,
    never pads the history, and the cache stays consistent. *)
Theorem truncate_keeps_prefix (c : KVCacheManager.t) (len : Z) :
  KVCacheManager.consistent c →
  KVCacheManager.token_history_ (KVCacheManager.truncate c len) =
    take (Z.to_nat len) (KVCacheManager.token_history_ c) ∧
  KVCacheManager.get_cached_tokens (KVCacheManager.truncate c len) =
    Z.min (KVCacheManager.get_cached_tokens c) (Z.max 0 len) ∧
  KVCacheManager.consistent (KVCacheManager.truncate c len).
Proof.
  intros Hc.
  split; [now apply truncate_token_history|].
  split; [|now apply truncate_consistent].
  revert Hc. unfold KVCacheManager.consistent, KVCacheManager.truncate,
    KVCacheManager.get_cached_tokens. intros Hc.
  destruct (Z.ltb_spec len 0).
  - destruct (Z.ltb_spec 0 (KVCacheManager.cached_tokens_ c)); simpl; lia.
  - destruct (Z.ltb_spec len (KVCacheManager.cached_tokens_ c)); simpl; lia.
Qed.

Lemma truncate_keeps_prefix_witness :
  KVCacheManager.token_history_ (KVCacheManager.truncate cache12345 3) =
    take (Z.to_nat 3) (KVCacheManager.token_history_ cache12345) ∧
  KVCacheManager.get_cached_tokens (KVCacheManager.truncate cache12345 3) =
    Z.min (KVCacheManager.get_cached_tokens cache12345) (Z.max 0 3) ∧
  KVCacheManager.consistent (KVCacheManager.truncate cache12345 3).
Proof.
  apply truncate_keeps_prefix. reflexivity.
Defined.

(** X5. After [truncate(length)] the cache offers for reuse what it
    offered before, capped at [length] (at 0 for a negative [length]):
    [check_reusable] composes with [truncate] as a minimum. *)
Theorem check_reusable_after_truncate (c : KVCacheManager.t) (len : Z) (Q : list Z) :
  KVCacheManager.consistent c →
  Z.of_nat (length (KVCacheManager.token_history_ c)) ≤ INT_MAX →
  KVCacheManager.check_reusable (KVCacheManager.truncate c len) Q =
  Z.min (KVCacheManager.check_reusable c Q) (Z.max 0 len).
Proof.
  intros Hc Hlen.
  pose proof (truncate_token_history c len Hc) as Hhist.
  pose proof (truncate_consistent c len Hc) as Hc'.
  rewrite (check_reusable_consistent _ Q Hc').
  - rewrite (check_reusable_consistent c Q Hc Hlen), Hhist, lcp_len_take_r. lia.
  - rewrite Hhist, length_take. lia.
Qed.

Lemma check_reusable_after_truncate_witness :
  KVCacheManager.check_reusable (KVCacheManager.truncate cache12345 2) [1; 2; 3; 6; 7] =
  Z.min (KVCacheManager.check_reusable cache12345 [1; 2; 3; 6; 7]) (Z.max 0 2).
Proof.
  apply check_reusable_after_truncate; [reflexivity | vm_compute; discriminate].
Defined.

(** ** PrefixCacheManager: lookup after insertion *)

(** X6. Insert, then look up: after [add_prefix(tokens, cache_data)] with a
    non-empty token sequence, [find_prefix(tokens)] returns the index of an
    entry that holds exactly these tokens, the blob just given and the
    clock reading of the call, whether the call refreshed an entry or
    appended one (after an eviction or not). *)
Theorem add_prefix_then_find_prefix (c : PrefixCacheManager.t) (T : list Z)
    (data : list byte) (now : Z) :
  T ≠ [] →
  PrefixCacheManager.size c < INT_MAX →
  ∃ (i : nat) e,
    PrefixCacheManager.find_prefix (PrefixCacheManager.add_prefix c T data now) T =
      Z.of_nat i ∧
    PrefixCacheManager.entries_ (PrefixCacheManager.add_prefix c T data now) !! i =
      Some e ∧
    PrefixCacheManager.tokens e = T ∧
    PrefixCacheManager.cache_data e = data ∧
    PrefixCacheManager.last_access_time e = now.
Proof.
  intros HT Hsize. unfold PrefixCacheManager.add_prefix.
  destruct (PrefixCacheManager.find_existing c T) as [i|] eqn:Hex.
  - destruct (find_existing_Some c T i) as (e & Hi & Htok & Hfind); [lia | exact Hex |].
    exists i, (PrefixCacheManager.refresh data now e).
    split; [|split; [|split; [exact Htok | split; reflexivity]]].
    + rewrite <- Hfind. unfold PrefixCacheManager.find_prefix. simpl.
      apply find_prefix_loop_tokens, fmap_tokens_alter. reflexivity.
    + simpl. now rewrite list_lookup_alter_eq, Hi.
  - cbv zeta.
    set (c1 := if PrefixCacheManager.max_entries_ c <=? PrefixCacheManager.size c
               then PrefixCacheManager.evict_lru c else c).
    assert (Hsub : ∀ e, e ∈ PrefixCacheManager.entries_ c1 →
                        e ∈ PrefixCacheManager.entries_ c).
    { subst c1. destruct (_ <=? _); [apply evict_lru_subseteq | auto]. }
    assert (Hsize1 : PrefixCacheManager.size c1 ≤ PrefixCacheManager.size c).
    { subst c1. destruct (_ <=? _); [apply evict_lru_size_le | lia]. }
    set (e1 := PrefixCacheManager.new_entry T data now).
    set (c' := {| PrefixCacheManager.max_entries_ := PrefixCacheManager.max_entries_ c1;
                  PrefixCacheManager.entries_ := PrefixCacheManager.entries_ c1 ++ [e1] |}).
    assert (Hlast : PrefixCacheManager.entries_ c' !!
                      length (PrefixCacheManager.entries_ c1) = Some e1).
    { simpl. now rewrite lookup_app_r, Nat.sub_diag by lia. }
    destruct (find_prefix_cases c' T) as [[_ Hempty] | (k & e & Hr & Hk & _ & Hpre & Hmax)].
    + unfold PrefixCacheManager.size in *. simpl. rewrite length_app. simpl. lia.
    + exfalso. apply HT. apply (Hempty e1); [|reflexivity].
      eapply list_elem_of_lookup_2, Hlast.
    + exists k, e. split; [exact Hr|]. split; [exact Hk|].
      assert (Htok : PrefixCacheManager.tokens e = T).
      { apply prefix_length_eq; [exact Hpre|].
        destruct (Hmax _ e1 Hlast) as [Hle _]; [reflexivity | exact Hle]. }
      simpl in Hk. apply lookup_app_Some in Hk as [Hk | [_ Hk]].
      * exfalso. eapply (find_existing_None c T); [lia | exact HT | exact Hex | | exact Htok].
        apply Hsub. eapply list_elem_of_lookup_2, Hk.
      * apply list_lookup_singleton_Some in Hk as [_ <-]. repeat split.
Qed.

Lemma add_prefix_then_find_prefix_witness :
  ∃ (i : nat) e,
    PrefixCacheManager.find_prefix
      (PrefixCacheManager.add_prefix store_lru_test [3] blob0 3) [3] = Z.of_nat i ∧
    PrefixCacheManager.entries_
      (PrefixCacheManager.add_prefix store_lru_test [3] blob0 3) !! i = Some e ∧
    PrefixCacheManager.tokens e = [3] ∧
    PrefixCacheManager.cache_data e = blob0 ∧
    PrefixCacheManager.last_access_time e = 3.
Proof.
  apply add_prefix_then_find_prefix; [discriminate | vm_compute; reflexivity].
Defined.

(** ** PrefixCacheManager: the empty sequence, duplicates and refreshes *)

Lemma find_prefix_loop_empty_query (es : list PrefixCacheManager.PrefixEntry) :
  ∀ i best, PrefixCacheManager.find_prefix_loop [] es i best 0 = best.
Proof.
  induction es as [|e es IH]; intros i best; [reflexivity|].
  simpl. rewrite andb_false_r. apply IH.
Qed.

(** X7. The empty token sequence is never found: [find_prefix({})] is
    [-1] in every store, also in one that holds an entry with empty
    tokens. So [add_prefix({}, blob)] never refreshes an entry: each call
    appends a new one (after an eviction when the store is full). *)
Theorem find_prefix_empty_query_misses (c : PrefixCacheManager.t) :
  PrefixCacheManager.find_prefix c [] = -1 ∧
  ∀ (data : list byte) (now : Z),
    PrefixCacheManager.entries_ (PrefixCacheManager.add_prefix c [] data now) =
    PrefixCacheManager.entries_
      (if PrefixCacheManager.max_entries_ c <=? PrefixCacheManager.size c
       then PrefixCacheManager.evict_lru c else c) ++
    [PrefixCacheManager.new_entry [] data now].
Proof.
  assert (Hfind : PrefixCacheManager.find_prefix c [] = -1)
    by apply find_prefix_loop_empty_query.
  split; [exact Hfind|]. intros data now.
  unfold PrefixCacheManager.add_prefix, PrefixCacheManager.find_existing.
  rewrite Hfind. reflexivity.
Qed.

(** X8. The store never comes to hold two entries with the same
    non-empty token sequence: if the token sequences of the entries are
    pairwise distinct, they still are after [add_prefix] of a non-empty
    sequence. *)
Theorem add_prefix_keeps_tokens_distinct (c : PrefixCacheManager.t) (T : list Z)
    (data : list byte) (now : Z) :
  T ≠ [] →
  PrefixCacheManager.size c ≤ INT_MAX →
  NoDup (PrefixCacheManager.tokens <$> PrefixCacheManager.entries_ c) →
  NoDup (PrefixCacheManager.tokens <$>
           PrefixCacheManager.entries_ (PrefixCacheManager.add_prefix c T data now)).
Proof.
  intros HT Hsize Hnd. unfold PrefixCacheManager.add_prefix.
  destruct (PrefixCacheManager.find_existing c T) as [i|] eqn:Hex.
  - simpl. now rewrite fmap_tokens_alter.
  - cbv zeta. simpl. rewrite fmap_app. apply NoDup_app. split; [|split].
    + destruct (_ <=? _); [|exact Hnd].
      unfold PrefixCacheManager.evict_lru.
      destruct (PrefixCacheManager.entries_ c) eqn:Hes; simpl.
      * now rewrite Hes.
      * rewrite list_fmap_delete. eapply sublist_NoDup; [exact Hnd | apply sublist_delete].
    + intros toks Hin Hin'. apply list_elem_of_singleton in Hin'. simpl in Hin'. subst toks.
      apply list_elem_of_fmap in Hin as (e & Htok & He).
      eapply (find_existing_None c T Hsize HT Hex e); [|now symmetry].
      destruct (_ <=? _); [now apply evict_lru_subseteq | exact He].
    + apply NoDup_singleton.
Qed.

Lemma add_prefix_keeps_tokens_distinct_witness :
  NoDup (PrefixCacheManager.tokens <$>
           PrefixCacheManager.entries_
             (PrefixCacheManager.add_prefix store_lru_test [2] blob0 3)).
Proof.
  apply add_prefix_keeps_tokens_distinct.
  - discriminate.
  - vm_compute. discriminate.
  - apply NoDup_cons. split; [|apply NoDup_singleton].
    intros Hin. apply list_elem_of_singleton in Hin. discriminate.
Defined.

(** X9. Adding a token sequence that the store already holds refreshes
    the first entry that holds it and nothing else: no entry is evicted
    and none appended, also when the store is full. The refreshed entry
    takes the new blob and clock reading and counts one access more. *)
Theorem add_prefix_stored_tokens_refresh (c : PrefixCacheManager.t) (T : list Z)
    (data : list byte) (now : Z) :
  T ≠ [] →
  PrefixCacheManager.size c ≤ INT_MAX →
  T ∈ PrefixCacheManager.tokens <$> PrefixCacheManager.entries_ c →
  ∃ (i : nat) e,
    PrefixCacheManager.entries_ c !! i = Some e ∧
    PrefixCacheManager.tokens e = T ∧
    (∀ (j : nat) e', PrefixCacheManager.entries_ c !! j = Some e' →
       PrefixCacheManager.tokens e' = T → (i ≤ j)%nat) ∧
    PrefixCacheManager.entries_ (PrefixCacheManager.add_prefix c T data now) =
      <[i := {| PrefixCacheManager.tokens := T;
                PrefixCacheManager.cache_data := data;
                PrefixCacheManager.last_access_time := now;
                PrefixCacheManager.access_count :=
                  to_int (PrefixCacheManager.access_count e + 1) |}]>
        (PrefixCacheManager.entries_ c).
Proof.
  intros HT Hsize Hin. apply list_elem_of_fmap in Hin as (e0 & Htok0 & He0).
  unfold PrefixCacheManager.add_prefix.
  destruct (PrefixCacheManager.find_existing c T) as [i|] eqn:Hex.
  - destruct (find_existing_Some c T i Hsize Hex) as (e & Hi & Htok & Hfind).
    exists i, e. split; [exact Hi|]. split; [exact Htok|]. split.
    + intros j e' Hj Htok'.
      destruct (find_prefix_cases c T Hsize)
        as [[Hr _] | (k & e2 & Hr & Hk & _ & Hpre & Hmax)]; [lia|].
      assert (k = i) as -> by lia.
      rewrite Hi in Hk. injection Hk as <-.
      apply (Hmax j e' Hj); [now rewrite Htok' | now rewrite Htok, Htok'].
    + simpl. rewrite list_insert_alter. unfold PrefixCacheManager.refresh.
      rewrite <- Htok.
      apply list_eq. intros j. destruct (decide (i = j)) as [<-|Hne].
      * now rewrite !list_lookup_alter_eq, Hi.
      * now rewrite !list_lookup_alter_ne.
  - exfalso. now apply (find_existing_None c T Hsize HT Hex e0 He0).
Qed.

Lemma add_prefix_stored_tokens_refresh_witness :
  ∃ (i : nat) e,
    PrefixCacheManager.entries_ store_lru_test !! i = Some e ∧
    PrefixCacheManager.tokens e = [2] ∧
    (∀ (j : nat) e', PrefixCacheManager.entries_ store_lru_test !! j = Some e' →
       PrefixCacheManager.tokens e' = [2] → (i ≤ j)%nat) ∧
    PrefixCacheManager.entries_ (PrefixCacheManager.add_prefix store_lru_test [2] blob0 3) =
      <[i := {| PrefixCacheManager.tokens := [2];
                PrefixCacheManager.cache_data := blob0;
                PrefixCacheManager.last_access_time := 3;
                PrefixCacheManager.access_count :=
                  to_int (PrefixCacheManager.access_count e + 1) |}]>
        (PrefixCacheManager.entries_ store_lru_test).
Proof.
  apply add_prefix_stored_tokens_refresh.
  - discriminate.
  - vm_compute. discriminate.
  - apply list_elem_of_fmap.
    exists (PrefixCacheManager.new_entry [2] blob0 2). split; [reflexivity|].
    apply list_elem_of_lookup. exists 1%nat. reflexivity.
Defined.

(** ** PrefixCacheManager: what get_entry changes *)

(** X10. [get_entry] is const as far as lookups go: whatever the index,
    the store afterwards has the same capacity and the same number of
    entries, every entry has the tokens and the blob it had, and
    [find_prefix] answers every query as before. *)
Theorem get_entry_keeps_lookups (c : PrefixCacheManager.t) (index now : Z) :
  let c' := (PrefixCacheManager.get_entry c index now).2 in
  PrefixCacheManager.max_entries_ c' = PrefixCacheManager.max_entries_ c ∧
  PrefixCacheManager.tokens <$> PrefixCacheManager.entries_ c' =
    PrefixCacheManager.tokens <$> PrefixCacheManager.entries_ c ∧
  PrefixCacheManager.cache_data <$> PrefixCacheManager.entries_ c' =
    PrefixCacheManager.cache_data <$> PrefixCacheManager.entries_ c ∧
  ∀ query, PrefixCacheManager.find_prefix c' query = PrefixCacheManager.find_prefix c query.
Proof.
  assert (Htok : PrefixCacheManager.tokens <$>
                   PrefixCacheManager.entries_ (PrefixCacheManager.get_entry c index now).2 =
                 PrefixCacheManager.tokens <$> PrefixCacheManager.entries_ c).
  { unfold PrefixCacheManager.get_entry. destruct (_ || _); [reflexivity|].
    destruct (PrefixCacheManager.entries_ c !! Z.to_nat index) as [e|] eqn:He;
      [|reflexivity].
    simpl. rewrite list_fmap_insert. simpl. apply list_insert_id.
    now rewrite list_lookup_fmap, He. }
  cbv zeta. split; [|split; [exact Htok | split]].
  - unfold PrefixCacheManager.get_entry. destruct (_ || _); [reflexivity|].
    now destruct (PrefixCacheManager.entries_ c !! Z.to_nat index).
  - unfold PrefixCacheManager.get_entry. destruct (_ || _); [reflexivity|].
    destruct (PrefixCacheManager.entries_ c !! Z.to_nat index) as [e|] eqn:He;
      [|reflexivity].
    simpl. rewrite list_fmap_insert. simpl. apply list_insert_id.
    now rewrite list_lookup_fmap, He.
  - intros query. unfold PrefixCacheManager.find_prefix.
    now apply find_prefix_loop_tokens.
Qed.

(** X11. Reading an entry protects it from the next eviction: after
    [get_entry(index)] at a clock reading later than every stored access
    time, [evict_lru] on a store of two entries or more removes an entry
    other than the one just read. *)
Theorem get_entry_protects_from_eviction (c : PrefixCacheManager.t) (index now : Z) :
  2 ≤ PrefixCacheManager.size c ≤ INT_MAX →
  0 ≤ index < PrefixCacheManager.size c →
  (∀ e, e ∈ PrefixCacheManager.entries_ c → PrefixCacheManager.last_access_time e < now) →
  let c' := (PrefixCacheManager.get_entry c index now).2 in
  ∃ (j : nat) e,
    j ≠ Z.to_nat index ∧
    PrefixCacheManager.entries_ c !! j = Some e ∧
    PrefixCacheManager.entries_ (PrefixCacheManager.evict_lru c') =
      delete j (PrefixCacheManager.entries_ c').
Proof.
  unfold PrefixCacheManager.size. intros Hsize Hidx Hnow. cbv zeta.
  unfold PrefixCacheManager.get_entry, PrefixCacheManager.size.
  rewrite to_int_of_nat by lia.
  destruct (Z.ltb_spec index 0); [lia|].
  destruct (Z.leb_spec (Z.of_nat (length (PrefixCacheManager.entries_ c))) index); [lia|].
  destruct (lookup_lt_is_Some_2 (PrefixCacheManager.entries_ c) (Z.to_nat index))
    as [e He]; [lia|].
  rewrite He. cbn [orb snd PrefixCacheManager.entries_].
  set (es' := <[Z.to_nat index := PrefixCacheManager.touch now e]>
                (PrefixCacheManager.entries_ c)).
  assert (Hlen : length es' = length (PrefixCacheManager.entries_ c))
    by apply length_insert.
  assert (Hne : es' ≠ []) by (intros Hnil; rewrite Hnil in Hlen; simpl in Hlen; lia).
  destruct (min_element_spec es' Hne) as (em & Hm & Hmin).
  exists (PrefixCacheManager.min_element es').
  destruct (decide (PrefixCacheManager.min_element es' = Z.to_nat index)) as [Heq|Hneq].
  - exfalso. rewrite Heq in Hm. unfold es' in Hm.
    rewrite list_lookup_insert_eq in Hm by lia. injection Hm as <-.
    destruct (lookup_lt_is_Some_2 (PrefixCacheManager.entries_ c)
                (if decide (Z.to_nat index = 0%nat) then 1%nat else 0%nat))
      as [e2 He2]; [destruct (decide _); lia|].
    assert (He2' : e2 ∈ es').
    { apply list_elem_of_lookup.
      exists (if decide (Z.to_nat index = 0%nat) then 1%nat else 0%nat).
      unfold es'. rewrite list_lookup_insert_ne; [exact He2|].
      destruct (decide _); lia. }
    specialize (Hmin e2 He2'). simpl in Hmin.
    assert (PrefixCacheManager.last_access_time e2 < now); [|lia].
    apply Hnow. eapply list_elem_of_lookup_2, He2.
  - assert (Hm' : PrefixCacheManager.entries_ c !! PrefixCacheManager.min_element es' =
                  Some em).
    { unfold es' in Hm. rewrite list_lookup_insert_ne in Hm by auto. exact Hm. }
    exists em. split; [exact Hneq|]. split; [exact Hm'|].
    unfold PrefixCacheManager.evict_lru. cbn [PrefixCacheManager.entries_].
    destruct es'; [contradiction | reflexivity].
Qed.

Lemma get_entry_protects_from_eviction_witness :
  let c' := (PrefixCacheManager.get_entry store_lru_test 0 7).2 in
  ∃ (j : nat) e,
    j ≠ Z.to_nat 0 ∧
    PrefixCacheManager.entries_ store_lru_test !! j = Some e ∧
    PrefixCacheManager.entries_ (PrefixCacheManager.evict_lru c') =
      delete j (PrefixCacheManager.entries_ c').
Proof.
  apply get_entry_protects_from_eviction.
  - vm_compute. split; discriminate.
  - vm_compute. split; [discriminate | reflexivity].
  - intros e He. apply list_elem_of_lookup in He as [i Hi].
    destruct i as [|[|i]]; [| |discriminate Hi]; injection Hi as <-; reflexivity.
Defined.

(** ** GreedySampler *)

(** [std::max_element] returns the first of the greatest elements: every
    element before it is smaller. *)
Lemma max_element_loop_first l : ∀ i s v,
  no_nan l →
  let r := Sampler.max_element_loop l i s v in
  r = s ∨
  (∃ (k : nat) x, r = (i + k)%nat ∧ l !! k = Some x ∧
     Float32.ltb v x = true ∧
     ∀ (j : nat) y, (j < k)%nat → l !! j = Some y → Float32.ltb y x = true).
Proof.
  induction l as [|x l IH]; intros i s v Hnan; simpl; [now left|].
  apply Forall_cons_1 in Hnan as [Hx Hnan].
  destruct (Float32.ltb v x) eqn:Hvx.
  - right. destruct (IH (S i) i x Hnan) as [-> | (k & x2 & -> & Hk & Hlt & Hbefore)].
    + exists 0%nat, x. rewrite Nat.add_0_r. repeat split; try assumption. lia.
    + exists (S k), x2. replace (i + S k)%nat with (S i + k)%nat by lia.
      repeat split; try assumption.
      * now apply (ltb_trans v x x2).
      * intros [|j] y Hj Hy; simpl in Hy; [now injection Hy as <-|].
        apply (Hbefore j y); [lia | exact Hy].
  - destruct (IH (S i) s v Hnan) as [-> | (k & x2 & -> & Hk & Hlt & Hbefore)];
      [now left|].
    right. exists (S k), x2. replace (i + S k)%nat with (S i + k)%nat by lia.
    repeat split; try assumption.
    intros [|j] y Hj Hy; simpl in Hy.
    + injection Hy as <-. destruct (Float32.ltb x x2) eqn:Hxx2; [reflexivity|].
      rewrite (ltb_neg_trans v x x2 Hx Hvx Hxx2) in Hlt. discriminate.
    + apply (Hbefore j y); [lia | exact Hy].
Qed.

(** X12. [GreedySampler::sample] returns the lowest index of a maximum
    logit: no logit is greater than the one at the returned index, and
    every logit before it is smaller (a tie goes to the first). The
    vocabulary is not empty and holds no NaN. *)
Theorem greedy_sampler_first_maximum (logits : list Float32.float) :
  no_nan logits →
  logits ≠ [] →
  Z.of_nat (length logits) ≤ INT_MAX →
  ∃ (i : nat) x,
    GreedySampler.sample logits = Z.of_nat i ∧
    logits !! i = Some x ∧
    (∀ y, y ∈ logits → Float32.ltb x y = false) ∧
    (∀ (j : nat) y, (j < i)%nat → logits !! j = Some y → Float32.ltb y x = true).
Proof.
  intros Hnan Hne Hlen.
  destruct (max_element_is_max logits Hne) as (x & Hx & Hdom).
  exists (Sampler.max_element logits), x.
  pose proof (lookup_lt_Some _ _ _ Hx) as Hlt.
  split; [|split; [exact Hx | split; [exact Hdom|]]].
  - unfold GreedySampler.sample. apply to_int_of_nat. lia.
  - destruct logits as [|x0 l]; [contradiction|].
    apply Forall_cons_1 in Hnan as [_ Hnan].
    unfold Sampler.max_element in *.
    pose proof (max_element_loop_first l 1 0 x0 Hnan) as Hfirst. cbv zeta in Hfirst.
    destruct Hfirst as [Heq | (k & x2 & Heq & Hk & Hlt0 & Hbefore)]; rewrite Heq in *.
    + intros j y Hj. lia.
    + simpl in Hx. rewrite Hk in Hx. injection Hx as <-.
      intros [|j] y Hj Hy; simpl in Hy.
      * now injection Hy as <-.
      * apply (Hbefore j y); [lia | exact Hy].
Qed.

Lemma greedy_sampler_first_maximum_witness :
  ∃ (i : nat) x,
    GreedySampler.sample logits_greedy_test = Z.of_nat i ∧
    logits_greedy_test !! i = Some x ∧
    (∀ y, y ∈ logits_greedy_test → Float32.ltb x y = false) ∧
    (∀ (j : nat) y, (j < i)%nat → logits_greedy_test !! j = Some y →
       Float32.ltb y x = true).
Proof.
  apply greedy_sampler_first_maximum.
  - repeat constructor.
  - discriminate.
  - vm_compute. discriminate.
Defined.

(** X13. With every stage switched off (temperature not above 0, a
    repetition penalty of 1 or no last tokens, [top_k] not positive or
    not below the vocabulary size, [top_p] not below 1) [Sampler::sample]
    is [GreedySampler::sample]: it returns the same token, draws nothing
    from its generator and leaves the logits array as it found it. *)
Theorem sample_plain_greedy_is_greedy_sampler (P : Sampler.Platform) (s : Sampler.t P)
    (logits : Sampler.loc) (vocab_size : Z) (last_tokens : list Z)
    (m : Sampler.heap) (arr : list Float32.float) :
  Float32.leb (Sampler.temperature (Sampler.config_ s)) Float32.zero = true →
  Float32.eqb (Sampler.repeat_penalty (Sampler.config_ s)) Float32.one = true ∨
    last_tokens = [] →
  Sampler.top_k (Sampler.config_ s) ≤ 0 ∨ vocab_size ≤ Sampler.top_k (Sampler.config_ s) →
  Float32.leb Float32.one (Sampler.top_p (Sampler.config_ s)) = true →
  m !! logits = Some arr →
  0 ≤ vocab_size ≤ Z.of_nat (length arr) →
  Sampler.sample s logits vocab_size last_tokens m =
    Some (GreedySampler.sample (take (Z.to_nat vocab_size) arr), s, m).
Proof.
  intros Htemp Hpen Htopk Htopp Hm Hsize.
  unfold Sampler.sample. rewrite Hm.
  destruct (Z.ltb_spec vocab_size 0); [lia|].
  destruct (Z.ltb_spec (Z.of_nat (length arr)) vocab_size); [lia|].
  cbn [orb]. unfold Sampler.sample_window.
  rewrite (apply_repetition_penalty_inactive _ _ _ Hpen).
  unfold Sampler.apply_temperature. rewrite Htemp.
  assert (Hk : Sampler.apply_top_k (Sampler.config_ s) (take (Z.to_nat vocab_size) arr) =
               take (Z.to_nat vocab_size) arr).
  { unfold Sampler.apply_top_k. rewrite length_take.
    destruct (Z.leb_spec (Sampler.top_k (Sampler.config_ s)) 0); [reflexivity|].
    destruct (Z.leb_spec (Z.of_nat (Z.to_nat vocab_size `min` length arr))
                (Sampler.top_k (Sampler.config_ s))); [reflexivity | lia]. }
  rewrite Hk. unfold Sampler.apply_top_p. rewrite Htopp.
  rewrite take_drop. unfold Sampler.heap, Sampler.loc in *.
  rewrite insert_id by exact Hm. reflexivity.
Qed.

Lemma sample_plain_greedy_is_greedy_sampler_witness :
  Sampler.sample (example_sampler sampler_config_plain_greedy) 1%positive 5 [3]
    (heap_with logits_greedy_test) =
    Some (GreedySampler.sample (take (Z.to_nat 5) logits_greedy_test),
          example_sampler sampler_config_plain_greedy, heap_with logits_greedy_test).
Proof.
  apply sample_plain_greedy_is_greedy_sampler.
  - reflexivity.
  - left. reflexivity.
  - left. vm_compute. discriminate.
  - reflexivity.
  - reflexivity.
  - vm_compute. split; discriminate.
Defined.

(** ** Sampler: get_top_k_tokens *)

Lemma pair_greater_strict_weak_on {I : Type} (l : list (Float32.float * I)) :
  no_nan l.*1 → Sampler.strict_weak_on (λ a b, Float32.ltb b.1 a.1) l.
Proof.
  unfold no_nan. rewrite Forall_forall. intros Hnan. repeat split.
  - intros x _. apply ltb_irrefl.
  - intros x y z _ _ _ Hyx Hzy. now apply (ltb_trans z.1 y.1 x.1).
  - intros x y z _ Hy _ Hyx Hzy. apply (ltb_neg_trans z.1 y.1 x.1); auto.
    apply Hnan. now apply list_elem_of_fmap_2.
Qed.

Lemma StronglySorted_lookup_lt {A : Type} (R : relation A) (l : list A) :
  StronglySorted R l →
  ∀ (a b : nat) u v, (a < b)%nat → l !! a = Some u → l !! b = Some v → R u v.
Proof.
  induction 1 as [|x l Hs IH Hall]; intros a b u v Hab Ha Hb; [discriminate|].
  destruct b as [|b]; [lia|]. simpl in Hb. destruct a as [|a]; simpl in Ha.
  - injection Ha as <-. rewrite Forall_forall in Hall.
    apply Hall. eapply list_elem_of_lookup_2, Hb.
  - apply (IH a b); [lia | assumption | assumption].
Qed.

(** The pairs that [get_top_k_tokens] sorts, once sorted: a permutation
    of the logits with their indices, no pair before one with a greater
    logit. *)
Lemma sorted_logit_idx (P : Sampler.Platform) (logits : list Float32.float) :
  Sampler.sorts P →
  no_nan logits →
  Z.of_nat (length logits) ≤ INT_MAX →
  let sorted :=
    Sampler.std_sort _ (λ a b : Float32.float * Z, Float32.ltb b.1 a.1)
      (imap (λ (i : nat) x, (x, to_int (Z.of_nat i))) logits) in
  sorted ≡ₚ imap (λ (i : nat) x, (x, Z.of_nat i)) logits ∧
  StronglySorted (λ a b : Float32.float * Z, Float32.ltb a.1 b.1 = false) sorted.
Proof.
  intros Hsort Hnan Hlen.
  assert (Hpairs : imap (λ (i : nat) x, (x, to_int (Z.of_nat i))) logits =
                   imap (λ (i : nat) x, (x, Z.of_nat i)) logits).
  { apply imap_ext. intros i x Hi. simpl. f_equal. apply to_int_of_nat.
    apply lookup_lt_Some in Hi. lia. }
  rewrite Hpairs. cbv zeta. apply Hsort.
  apply pair_greater_strict_weak_on.
  rewrite fmap_imap.
  replace (imap (λ (n : nat), fst ∘ (λ x, (x, Z.of_nat n))) logits) with logits; [exact Hnan|].
  apply list_eq. intros i. rewrite list_lookup_imap. now destruct (logits !! i).
Qed.

(** X14. [get_top_k_tokens] returns the [min(k, vocab_size)] tokens with
    the greatest logits, the greatest first: the tokens are distinct
    indices of the vocabulary, no token has a greater logit than a token
    listed before it, and no token left out has a greater logit than a
    listed one. For every [std::partial_sort] that meets its contract, a
    non-empty vocabulary without NaN and [k >= 0]. *)
Theorem get_top_k_tokens_are_the_k_largest (P : Sampler.Platform)
    (logits : list Float32.float) (k : Z) :
  Sampler.sorts P →
  no_nan logits →
  logits ≠ [] →
  Z.of_nat (length logits) ≤ INT_MAX →
  0 ≤ k →
  ∃ (result : list (Z * Float32.float)) (idxs : list nat),
    Sampler.get_top_k_tokens logits k = Some result ∧
    result.*1 = Z.of_nat <$> idxs ∧
    Z.of_nat (length idxs) = Z.min k (Z.of_nat (length logits)) ∧
    NoDup idxs ∧
    (∀ i, i ∈ idxs → (i < length logits)%nat) ∧
    (∀ (a b i j : nat) x y, (a < b)%nat →
       idxs !! a = Some i → idxs !! b = Some j →
       logits !! i = Some x → logits !! j = Some y → Float32.ltb x y = false) ∧
    (∀ (i j : nat) x y, i ∈ idxs → j ∉ idxs →
       logits !! i = Some x → logits !! j = Some y → Float32.ltb x y = false).
Proof.
  intros Hsort Hnan Hne Hlen Hk.
  destruct (sorted_logit_idx P logits Hsort Hnan Hlen) as [Hperm Hsorted].
  unfold Sampler.get_top_k_tokens.
  destruct (Z.ltb_spec (Z.min k (Z.of_nat (length logits))) 0); [lia|].
  set (kk := Z.to_nat (Z.min k (Z.of_nat (length logits)))).
  destruct (Sampler.std_sort _ _ _) as [|[max_logit i0] rest] eqn:Hs.
  { symmetry in Hperm. apply Permutation_nil_r in Hperm.
    apply (f_equal length) in Hperm. rewrite length_imap in Hperm.
    destruct logits; [contradiction | discriminate]. }
  set (sorted := (max_logit, i0) :: rest) in *.
  assert (F1 : ∀ p, p ∈ sorted → ∃ i : nat, p.2 = Z.of_nat i ∧ logits !! i = Some p.1).
  { intros p Hin. rewrite Hperm in Hin.
    apply elem_of_lookup_imap_1 in Hin as (i & y & -> & Hy). eauto. }
  assert (F2 : NoDup sorted.*2).
  { rewrite Hperm, fmap_imap.
    change (imap _ logits) with (imap (λ (n : nat) (_ : Float32.float), Z.of_nat n) logits).
    rewrite (imap_seq_0 logits (λ n : nat, Z.of_nat n)).
    apply NoDup_fmap_2; [apply Nat2Z.inj' | apply NoDup_seq]. }
  assert (F3 : ∀ (i : nat) x, logits !! i = Some x → (x, Z.of_nat i) ∈ sorted).
  { intros i x Hi. rewrite Hperm.
    apply (elem_of_lookup_imap_2 (λ (i : nat) x, (x, Z.of_nat i)) logits x i Hi). }
  assert (F4 : length sorted = length logits).
  { rewrite Hperm. apply length_imap. }
  assert (F5 : ∀ (a i : nat), (Z.to_nat <$> (take kk sorted).*2) !! a = Some i →
                 ∃ x, sorted !! a = Some (x, Z.of_nat i) ∧ (a < kk)%nat ∧
                      logits !! i = Some x).
  { intros a i Ha. rewrite !list_lookup_fmap in Ha.
    destruct (take kk sorted !! a) as [[x z]|] eqn:Hta; [|discriminate].
    apply lookup_take_Some in Hta as [Hsa Hlt].
    destruct (F1 (x, z)) as (i' & Hz & Hx); [eapply list_elem_of_lookup_2, Hsa|].
    simpl in Ha, Hz, Hx. subst z. rewrite Nat2Z.id in Ha. injection Ha as <-.
    exists x. auto. }
  eexists. exists (Z.to_nat <$> (take kk sorted).*2).
  split; [reflexivity|]. split; [|split; [|split; [|split; [|split]]]].
  - rewrite <- !list_fmap_compose. apply list_fmap_ext. intros a p Hp. simpl.
    apply lookup_take_Some in Hp as [Hp _].
    destruct (F1 p) as (i & -> & _); [eapply list_elem_of_lookup_2, Hp|].
    now rewrite Nat2Z.id.
  - rewrite !length_fmap, length_take, F4. unfold kk. lia.
  - apply NoDup_fmap_2_strong.
    + intros z1 z2 Hz1 Hz2 Heq.
      apply list_elem_of_fmap in Hz1 as (p1 & -> & Hp1).
      apply list_elem_of_fmap in Hz2 as (p2 & -> & Hp2).
      apply subseteq_take in Hp1, Hp2.
      destruct (F1 p1 Hp1) as (i1 & Hi1 & _). destruct (F1 p2 Hp2) as (i2 & Hi2 & _).
      rewrite Hi1, Hi2 in *. rewrite !Nat2Z.id in Heq. now subst.
    + rewrite fmap_take. eapply sublist_NoDup; [exact F2 | apply sublist_take].
  - intros i Hi. apply list_elem_of_lookup_1 in Hi as [a Ha].
    destruct (F5 a i Ha) as (x & _ & _ & Hx). eapply lookup_lt_Some, Hx.
  - intros a b i j x y Hab Ha Hb Hx Hy.
    destruct (F5 a i Ha) as (x' & Hsa & _ & Hx').
    destruct (F5 b j Hb) as (y' & Hsb & _ & Hy').
    rewrite Hx in Hx'. injection Hx' as <-. rewrite Hy in Hy'. injection Hy' as <-.
    apply (StronglySorted_lookup_lt _ _ Hsorted a b _ _ Hab Hsa Hsb).
  - intros i j x y Hi Hj Hx Hy.
    apply list_elem_of_lookup_1 in Hi as [a Ha].
    destruct (F5 a i Ha) as (x' & Hsa & Hlt & Hx').
    rewrite Hx in Hx'. injection Hx' as <-.
    pose proof (F3 j y Hy) as Hin. apply list_elem_of_lookup_1 in Hin as [b Hsb].
    destruct (decide (b < kk)%nat) as [Hb|Hb].
    + exfalso. apply Hj. apply list_elem_of_lookup. exists b.
      rewrite !list_lookup_fmap, lookup_take_lt, Hsb by exact Hb. simpl.
      now rewrite Nat2Z.id.
    + apply (StronglySorted_lookup_lt _ _ Hsorted a b _ _ ltac:(lia) Hsa Hsb).
Qed.

Lemma get_top_k_tokens_are_the_k_largest_witness :
  ∃ (result : list (Z * Float32.float)) (idxs : list nat),
    @Sampler.get_top_k_tokens example_platform logits_greedy_test 3 = Some result ∧
    result.*1 = Z.of_nat <$> idxs ∧
    Z.of_nat (length idxs) = Z.min 3 (Z.of_nat (length logits_greedy_test)) ∧
    NoDup idxs ∧
    (∀ i, i ∈ idxs → (i < length logits_greedy_test)%nat) ∧
    (∀ (a b i j : nat) x y, (a < b)%nat →
       idxs !! a = Some i → idxs !! b = Some j →
       logits_greedy_test !! i = Some x → logits_greedy_test !! j = Some y →
       Float32.ltb x y = false) ∧
    (∀ (i j : nat) x y, i ∈ idxs → j ∉ idxs →
       logits_greedy_test !! i = Some x → logits_greedy_test !! j = Some y →
       Float32.ltb x y = false).
Proof.
  apply get_top_k_tokens_are_the_k_largest.
  - apply example_platform_sorts.
  - repeat constructor.
  - discriminate.
  - vm_compute. discriminate.
  - lia.
Defined.

(** The repository's test: the first of the three candidates for the
    logits [0.1, 0.5, 0.2, 0.9, 0.3] is token 3. *)
Example get_top_k_tokens_test :
  (λ r, r.*1) <$> @Sampler.get_top_k_tokens example_platform logits_greedy_test 3 =
  Some [3; 1; 4].
Proof. vm_compute. reflexivity. Qed.

(** ** Sampler: what top-k keeps *)

Lemma length_filter_all {A : Type} (Q : A → Prop) `{∀ x, Decision (Q x)} (l : list A) :
  Forall Q l → length (filter Q l) = length l.
Proof.
  induction 1 as [|x l Hx Hl IH]; [reflexivity|].
  rewrite filter_cons_True by exact Hx. simpl. now rewrite IH.
Qed.

Lemma length_filter_none {A : Type} (Q : A → Prop) `{∀ x, Decision (Q x)} (l : list A) :
  Forall (λ x, ¬ Q x) l → length (filter Q l) = 0%nat.
Proof.
  induction 1 as [|x l Hx Hl IH]; [reflexivity|].
  rewrite filter_cons_False by exact Hx. exact IH.
Qed.

(** X15. When [0 < top_k < vocab_size], [apply_top_k] masks with minus
    infinity exactly the logits below a threshold taken from the logits,
    and that threshold is the [top_k]-th greatest: at least [top_k] logits
    are not below it (so at least [top_k] tokens survive) and fewer than
    [top_k] are above it. *)
Theorem apply_top_k_keeps_k_largest (P : Sampler.Platform) (cfg : Sampler.SamplerConfig)
    (l : list Float32.float) :
  Sampler.sorts P →
  no_nan l →
  0 < Sampler.top_k cfg < Z.of_nat (length l) →
  ∃ threshold,
    threshold ∈ l ∧
    Sampler.apply_top_k cfg l =
      (λ x, if Float32.ltb x threshold then Float32.neg_infinity else x) <$> l ∧
    Sampler.top_k cfg ≤
      Z.of_nat (length (filter (λ x, Float32.ltb x threshold = false) l)) ∧
    Z.of_nat (length (filter (λ x, Float32.ltb threshold x = true) l)) <
      Sampler.top_k cfg.
Proof.
  intros Hsort Hnan Hk. unfold Sampler.apply_top_k.
  destruct (Z.leb_spec (Sampler.top_k cfg) 0); [lia|].
  destruct (Z.leb_spec (Z.of_nat (length l)) (Sampler.top_k cfg)); [lia|].
  cbn [orb]. cbv zeta.
  destruct (Hsort _ (λ a b, Float32.ltb b a) l (float_greater_strict_weak l Hnan))
    as [Hperm Hsorted].
  set (sorted := Sampler.std_sort _ _ l) in *.
  set (kn := Z.to_nat (Sampler.top_k cfg - 1)).
  destruct (lookup_lt_is_Some_2 sorted kn) as [thr Hthr].
  { rewrite Hperm. unfold kn. lia. }
  rewrite Hthr. exists thr.
  split; [rewrite <- Hperm; eapply list_elem_of_lookup_2, Hthr|].
  split; [reflexivity|].
  pose proof (take_drop_middle sorted kn thr Hthr) as Hsplit.
  assert (Hlen : length (take kn sorted) = kn).
  { apply length_take_le. apply lookup_lt_Some in Hthr. lia. }
  assert (Hbefore : Forall (λ x, Float32.ltb x thr = false) (take kn sorted)).
  { apply Forall_forall. intros x Hx. apply elem_of_take in Hx as (a & Ha & Hlt).
    apply (StronglySorted_lookup_lt _ _ Hsorted a kn x thr Hlt Ha Hthr). }
  assert (Hafter : Forall (λ x, ¬ Float32.ltb thr x = true) (drop (S kn) sorted)).
  { apply Forall_forall. intros x Hx. apply list_elem_of_lookup_1 in Hx as [b Hb].
    rewrite lookup_drop in Hb.
    rewrite (StronglySorted_lookup_lt _ _ Hsorted kn (S kn + b) thr x ltac:(lia) Hthr Hb).
    discriminate. }
  split.
  - rewrite <- Hperm, <- Hsplit, filter_app, length_app.
    rewrite (length_filter_all _ _ Hbefore), Hlen.
    rewrite filter_cons_True by apply ltb_irrefl. simpl. unfold kn. lia.
  - rewrite <- Hperm, <- Hsplit, filter_app, length_app.
    rewrite filter_cons_False by (rewrite ltb_irrefl; discriminate).
    rewrite (length_filter_none _ _ Hafter).
    pose proof (length_filter (λ x, Float32.ltb thr x = true) (take kn sorted)).
    unfold kn in *. lia.
Qed.

Lemma apply_top_k_keeps_k_largest_witness :
  ∃ threshold,
    threshold ∈ logits_greedy_test ∧
    @Sampler.apply_top_k example_platform sampler_config_top_2 logits_greedy_test =
      (λ x, if Float32.ltb x threshold then Float32.neg_infinity else x) <$>
      logits_greedy_test ∧
    Sampler.top_k sampler_config_top_2 ≤
      Z.of_nat (length (filter (λ x, Float32.ltb x threshold = false) logits_greedy_test)) ∧
    Z.of_nat (length (filter (λ x, Float32.ltb threshold x = true) logits_greedy_test)) <
      Sampler.top_k sampler_config_top_2.
Proof.
  apply apply_top_k_keeps_k_largest.
  - apply example_platform_sorts.
  - repeat constructor.
  - vm_compute. split; reflexivity.
Defined.

(** ** Sampler: the reach of the repetition penalty *)

Lemma penalize_lookup_ne cfg (l : list Float32.float) (token : Z) (j : nat) :
  token ≠ Z.of_nat j → Sampler.penalize cfg l token !! j = l !! j.
Proof.
  intros Hne. unfold Sampler.penalize.
  destruct (Z.ltb_spec token 0); [reflexivity|]. cbn [orb].
  destruct (_ <=? _); [reflexivity|].
  destruct (l !! Z.to_nat token); [|reflexivity].
  apply list_lookup_insert_ne. lia.
Qed.

Lemma penalize_frequency_lookup_ne cfg window (l : list Float32.float) (token : Z) (j : nat) :
  token ≠ Z.of_nat j → Sampler.penalize_frequency cfg window l token !! j = l !! j.
Proof.
  intros Hne. unfold Sampler.penalize_frequency.
  destruct (Z.ltb_spec token 0); [reflexivity|]. cbn [orb].
  destruct (_ <=? _); [reflexivity|].
  destruct (l !! Z.to_nat token); [|reflexivity].
  apply list_lookup_insert_ne. lia.
Qed.

Lemma fold_left_lookup_ne (f : list Float32.float → Z → list Float32.float)
    (tokens : list Z) (j : nat) :
  (∀ l token, token ≠ Z.of_nat j → f l token !! j = l !! j) →
  Z.of_nat j ∉ tokens →
  ∀ l, fold_left f tokens l !! j = l !! j.
Proof.
  intros Hf. induction tokens as [|token tokens IH]; intros Hnotin l; [reflexivity|].
  simpl. rewrite IH.
  - apply Hf. intros ->. apply Hnotin. left.
  - intros Hin. apply Hnotin. now right.
Qed.

(** X16. [apply_repetition_penalty] changes no logit but those of the
    tokens among the last [repeat_last_n] of [last_tokens]: the logit of
    any other token, older tokens of the window included, is left as it
    was, and the array keeps its length (tokens outside the vocabulary
    are skipped, never written). *)
Theorem apply_repetition_penalty_only_recent_tokens (cfg : Sampler.SamplerConfig)
    (logits : list Float32.float) (last_tokens : list Z) (j : nat) :
  0 ≤ Sampler.repeat_last_n cfg ≤ INT_MAX →
  Z.of_nat (length last_tokens) ≤ INT_MAX →
  Z.of_nat j ∉
    drop (length last_tokens - Z.to_nat (Sampler.repeat_last_n cfg)) last_tokens →
  Sampler.apply_repetition_penalty cfg logits last_tokens !! j = logits !! j ∧
  length (Sampler.apply_repetition_penalty cfg logits last_tokens) = length logits.
Proof.
  intros Hn Hlen Hnotin. split; [|apply apply_repetition_penalty_length].
  unfold Sampler.apply_repetition_penalty.
  destruct (_ || _); [reflexivity|]. cbv zeta.
  rewrite (to_int_of_nat _ Hlen).
  rewrite to_int_small by (unfold INT_MIN, INT_MAX in *; lia).
  rewrite Nat2Z.id, firstn_all.
  replace (Z.to_nat (Z.max 0 (Z.of_nat (length last_tokens) - Sampler.repeat_last_n cfg)))
    with (length last_tokens - Z.to_nat (Sampler.repeat_last_n cfg))%nat by lia.
  set (window := drop _ last_tokens) in *.
  assert (Hfirst : fold_left (Sampler.penalize cfg) window logits !! j = logits !! j).
  { apply fold_left_lookup_ne; [|exact Hnotin].
    intros l token. apply penalize_lookup_ne. }
  destruct (_ || _); [|exact Hfirst].
  rewrite fold_left_lookup_ne; [exact Hfirst | |].
  - intros l token. apply penalize_frequency_lookup_ne.
  - intros Hin. apply Hnotin. now rewrite elem_of_remove_dups in Hin.
Qed.

Lemma apply_repetition_penalty_only_recent_tokens_witness :
  Sampler.apply_repetition_penalty sampler_config_greedy_penalty logits_3_2 [0] !! 1%nat =
    logits_3_2 !! 1%nat ∧
  length (Sampler.apply_repetition_penalty sampler_config_greedy_penalty logits_3_2 [0]) =
    length logits_3_2.
Proof.
  apply apply_repetition_penalty_only_recent_tokens.
  - vm_compute. split; discriminate.
  - vm_compute. discriminate.
  - vm_compute. intros Hin. apply list_elem_of_singleton in Hin. discriminate.
Defined.

(** ** Sampler: what sample_with_prob reports *)

(** X18. In greedy mode ([temperature <= 0]) the value that
    [sample_with_prob] stores in [out_prob] is not a probability: it is
    the logit of the returned token as the penalty and the two filters
    left it (softmax is never run), the greatest of these logits. *)
Theorem sample_with_prob_greedy_reports_logit (P : Sampler.Platform) (s s' : Sampler.t P)
    (logits : Sampler.loc) (vocab_size : Z) (last_tokens : list Z)
    (m m' : Sampler.heap) (tok : Z) (out_prob : Float32.float) :
  Float32.leb (Sampler.temperature (Sampler.config_ s)) Float32.zero = true →
  Sampler.sample_with_prob s logits vocab_size last_tokens m =
    Some (tok, out_prob, s', m') →
  ∃ arr filtered,
    m !! logits = Some arr ∧
    Sampler.apply_top_p (Sampler.config_ s)
      (Sampler.apply_top_k (Sampler.config_ s)
         (Sampler.apply_repetition_penalty (Sampler.config_ s)
            (take (Z.to_nat vocab_size) arr) last_tokens)) = Some filtered ∧
    tok = to_int (Z.of_nat (Sampler.max_element filtered)) ∧
    filtered !! Z.to_nat tok = Some out_prob.
Proof.
  intros Htemp. unfold Sampler.sample_with_prob.
  destruct (m !! logits) as [arr|]; [|discriminate].
  destruct (_ || _); [discriminate|]. cbv zeta.
  set (copy := fresh (dom m)).
  destruct (Sampler.sample s copy vocab_size last_tokens _)
    as [[[tok' s''] m'']|] eqn:Hrun; [|discriminate].
  apply sample_writes_back in Hrun as (arr' & window & Harr' & Hsize & Hwin & ->).
  unfold Sampler.heap, Sampler.loc in *.
  rewrite lookup_insert_eq in Harr'. injection Harr' as <-.
  rewrite take_take, Nat.min_id in Hwin.
  destruct (Z.ltb_spec tok' 0); [discriminate|].
  rewrite lookup_insert_eq. cbn [mbind option_bind].
  rewrite drop_ge, app_nil_r by (rewrite length_take; lia).
  destruct (window !! Z.to_nat tok') as [p|] eqn:Hp; [|discriminate].
  intros [= <- <- <- <-].
  revert Hwin. unfold Sampler.sample_window, Sampler.apply_temperature. cbv zeta.
  rewrite Htemp.
  destruct (Sampler.apply_top_p _ _) as [filtered|] eqn:Hfilt; [|discriminate].
  intros [= Htok <- _]. exists arr, filtered. repeat split; auto.
Qed.

Lemma sample_with_prob_greedy_reports_logit_witness :
  ∃ arr filtered,
    heap_with logits_3_2 !! 1%positive = Some arr ∧
    @Sampler.apply_top_p example_platform
      (Sampler.config_ (example_sampler sampler_config_plain_greedy))
      (@Sampler.apply_top_k example_platform
         (Sampler.config_ (example_sampler sampler_config_plain_greedy))
         (Sampler.apply_repetition_penalty
            (Sampler.config_ (example_sampler sampler_config_plain_greedy))
            (take (Z.to_nat 2) arr) [])) = Some filtered ∧
    0 = to_int (Z.of_nat (Sampler.max_element filtered)) ∧
    filtered !! Z.to_nat 0 = Some (Float32.of_Z 3).
Proof.
  apply (sample_with_prob_greedy_reports_logit example_platform
           (example_sampler sampler_config_plain_greedy)
           (example_sampler sampler_config_plain_greedy)
           1%positive 2 [] (heap_with logits_3_2) (heap_with logits_3_2)).
  - reflexivity.
  - reflexivity.
Defined.

(** ** LLMEngine: what every run of the generation loop keeps *)

Lemma callbacks_app (tr1 tr2 : list LLMEngine.event) :
  callbacks (tr1 ++ tr2) = callbacks tr1 ++ callbacks tr2.
Proof. apply omap_app. Qed.

Lemma streamed_snoc w (callback : bool) (g : list Z) (tok : Z) :
  streamed w callback (g ++ [tok]) =
  streamed w callback g ++
  (if callback then [(LLMEngine.decode_token w tok, false)] else []).
Proof.
  unfold streamed. destruct callback; [|reflexivity]. now rewrite fmap_app.
Qed.

(** One pass through the body: it leaves the loop with [loop_left], or
    arrives at the head of the next iteration with [loop_keeps]. *)
Lemma loop_body_keeps w (callback : bool) cfg e0 (i : nat) (s : LLMEngine.loop_state) :
  loop_keeps w callback e0 i s →
  match LLMEngine.loop_body w callback cfg i s with
  | inl (why, s') => why ≠ LLMEngine.MaxTokens ∧ loop_left w callback e0 why i s'
  | inr s' => loop_keeps w callback e0 (S i) s'
  end.
Proof.
  unfold loop_keeps, loop_left, LLMEngine.loop_body. cbv zeta.
  intros (Hlen & Hres & Hhist & Hcb & Heos & Hstats & Hflag & Hpolls).
  cbn [LLMEngine.stop_flag_ LLMEngine.set_stop_flag]. rewrite Hflag. cbn [orb].
  destruct (LLMEngine.stop_requested w i) eqn:Hstop.
  { split; [discriminate|]. cbn. repeat split; auto. congruence. }
  destruct (LLMEngine.is_eos_token w _) eqn:Htok.
  { split; [discriminate|]. cbn. repeat split; auto. }
  destruct (LLMEngine.find_stop _ _) as [pos|].
  { split; [discriminate|]. cbn. repeat split; auto. congruence. }
  set (tok := LLMEngine.sample w i (LLMEngine.generated_tokens s)) in *.
  assert (Hpieces : (LLMEngine.result s ++ LLMEngine.decode_token w tok)%string =
                    pieces w (LLMEngine.generated_tokens s ++ [tok]))
    by (now rewrite pieces_snoc, Hres).
  assert (Hall : Forall (λ t, LLMEngine.is_eos_token w t = false)
                   (LLMEngine.generated_tokens s ++ [tok]))
    by (apply Forall_app; split; [exact Heos | now constructor]).
  assert (Hpolls' : ∀ j : nat, (j < S i)%nat → LLMEngine.stop_requested w j = false).
  { intros j Hj. destruct (decide (j = i)) as [->|]; [exact Hstop | apply Hpolls; lia]. }
  destruct (LLMEngine.token_decode_ok w i _).
  - destruct callback; cbn -[streamed callbacks pieces String.append];
      rewrite ?callbacks_app, Hcb, Hhist, streamed_snoc, ?length_app, Hlen,
        <- ?app_assoc;
      cbn -[pieces String.append]; repeat split; auto; try lia;
      now rewrite ?app_nil_r.
  - split; [discriminate|].
    destruct callback; cbn -[streamed callbacks pieces String.append];
      rewrite ?callbacks_app, Hcb, Hhist, streamed_snoc, ?length_app, Hlen,
        <- ?app_assoc;
      cbn -[pieces String.append]; repeat split; auto; try lia;
      now rewrite ?app_nil_r.
Qed.

Lemma generate_loop_keeps w (callback : bool) cfg e0 (fuel : nat) :
  ∀ (i : nat) (s : LLMEngine.loop_state),
  loop_keeps w callback e0 i s →
  ∃ why k s',
    LLMEngine.generate_loop w callback cfg fuel i s = (why, k, s') ∧
    loop_left w callback e0 why k s' ∧
    (i ≤ k ≤ i + fuel)%nat ∧
    (why ≠ LLMEngine.MaxTokens → (k < i + fuel)%nat).
Proof.
  induction fuel as [|fuel IH]; intros i s Hkeeps.
  - exists LLMEngine.MaxTokens, i, s. split; [reflexivity|].
    split; [|split; [lia | congruence]].
    destruct Hkeeps as (Hlen & Hres & Hhist & Hcb & Heos & Hstats & Hflag & Hpolls).
    unfold loop_left. repeat split; auto. congruence.
  - simpl. pose proof (loop_body_keeps w callback cfg e0 i s Hkeeps) as Hbody.
    destruct (LLMEngine.loop_body w callback cfg i s) as [[why s']|s'].
    + destruct Hbody as [Hwhy Hleft]. exists why, i, s'.
      split; [reflexivity|]. split; [exact Hleft|]. split; lia.
    + destruct (IH (S i) s' Hbody) as (why & k & s'' & Hrun & Hleft & Hk & Hlt).
      exists why, k, s''. split; [exact Hrun|]. split; [exact Hleft|].
      split; [lia|]. intros Hwhy. specialize (Hlt Hwhy). lia.
Qed.

(** The engine as [prepare] hands it to the loop. *)
Lemma prepare_hands_over w msgs e e1 :
  LLMEngine.prepare w msgs e = inr e1 →
  LLMEngine.token_history e1 = LLMEngine.encode_prompt w msgs ∧
  callbacks (LLMEngine.trace e1) = callbacks (LLMEngine.trace e) ∧
  LLMEngine.stats_ e1 =
    LLMEngine.set_prompt_tokens
      (to_int (Z.of_nat (length (LLMEngine.encode_prompt w msgs)))) (LLMEngine.stats_ e) ∧
  LLMEngine.stop_flag_ e1 = false.
Proof.
  unfold LLMEngine.prepare.
  destruct (LLMEngine.initialized e); [|discriminate]. cbn [negb]. cbv zeta.
  destruct (_ <=? _); [discriminate|].
  destruct (_ <? LLMEngine.n_past _);
    (destruct (_ <? _);
     [destruct (LLMEngine.n_batch _ <? _); [discriminate|];
      destruct (LLMEngine.prompt_decode_ok w _); [|discriminate]|]);
    intros [= <-]; cbn; rewrite ?callbacks_app; cbn; rewrite ?app_nil_r; auto.
Qed.

(** The course of a call of [generate_stream] that returns. *)
Lemma generate_stream_course w msgs (callback : bool) cfg e text why k g e' :
  LLMEngine.generate_stream w msgs callback cfg e =
    (LLMEngine.Returned text why k g, e') →
  ∃ e1 s,
    LLMEngine.prepare w msgs e = inr e1 ∧
    loop_left w callback e1 why k s ∧
    (k ≤ Z.to_nat (LLMEngine.max_tokens cfg))%nat ∧
    (why ≠ LLMEngine.MaxTokens → (k < Z.to_nat (LLMEngine.max_tokens cfg))%nat) ∧
    text = LLMEngine.result s ∧
    g = LLMEngine.generated_tokens s ∧
    e' = (let ef := if callback
                    then LLMEngine.emit (LLMEngine.Callback "" true) (LLMEngine.eng s)
                    else LLMEngine.eng s in
          LLMEngine.set_stats (LLMEngine.final_stats w ef g) ef).
Proof.
  unfold LLMEngine.generate_stream.
  destruct (LLMEngine.prepare w msgs e) as [[[what|] e0]|e1] eqn:Hprep;
    [discriminate | discriminate |].
  destruct (prepare_hands_over w msgs e e1 Hprep) as (Hhist & Hcb & Hstats & Hflag).
  destruct (generate_loop_keeps w callback cfg e1
              (Z.to_nat (LLMEngine.max_tokens cfg)) 0
              {| LLMEngine.eng := e1; LLMEngine.result := "";
                 LLMEngine.generated_tokens := [] |})
    as (why' & k' & s & Hrun & Hleft & Hk & Hlt).
  { unfold loop_keeps, streamed. cbn. rewrite !app_nil_r.
    repeat split; auto; [destruct callback; now rewrite app_nil_r | lia]. }
  rewrite Hrun. intros [= <- <- <- <- <-].
  exists e1, s. split; [reflexivity|]. split; [exact Hleft|]. split; [lia|].
  split; [intros Hwhy; specialize (Hlt Hwhy); lia|]. repeat split.
Qed.

(** ** LLMEngine: what a returning generate_stream has done *)

(** X19. Streaming: a call of [generate_stream] that returns has invoked
    the callback once for each generated token, in order, with that
    token's text and [is_end = false], and then once with the empty text
    and [is_end = true]; without a callback (as in [generate]) nothing is
    invoked. Unless a stop sequence ended the call, the returned text is
    the concatenation of the generated tokens' texts, that is of the
    streamed pieces. *)
Theorem generate_stream_streams_generated_tokens w msgs (callback : bool) cfg e
    text why k g e' :
  LLMEngine.generate_stream w msgs callback cfg e =
    (LLMEngine.Returned text why k g, e') →
  callbacks (LLMEngine.trace e') =
    callbacks (LLMEngine.trace e) ++ streamed w callback g ++
    (if callback then [("", true)] else []) ∧
  (why ≠ LLMEngine.StopSequence → text = pieces w g).
Proof.
  intros Hrun.
  destruct (generate_stream_course _ _ _ _ _ _ _ _ _ _ Hrun)
    as (e1 & s & Hprep & Hleft & _ & _ & -> & -> & ->).
  destruct (prepare_hands_over _ _ _ _ Hprep) as (_ & Hcb1 & _ & _).
  destruct Hleft as (_ & Hres & _ & Hcb & _).
  split; [|exact Hres].
  destruct callback; cbn -[callbacks streamed].
  - rewrite callbacks_app, Hcb, Hcb1, <- app_assoc. reflexivity.
  - now rewrite Hcb, Hcb1, !app_nil_r.
Qed.

Lemma generate_stream_streams_generated_tokens_witness :
  callbacks (LLMEngine.trace
    (LLMEngine.generate_stream world_stop_sequence hello true
       (generation_config0 4) (engine0 8)).2) =
    callbacks (LLMEngine.trace (engine0 8)) ++ streamed world_stop_sequence true [7] ++
    [("", true)] ∧
  (LLMEngine.StopSequence ≠ LLMEngine.StopSequence → "" = pieces world_stop_sequence [7]).
Proof.
  eapply (generate_stream_streams_generated_tokens world_stop_sequence hello true
            (generation_config0 4) (engine0 8) "" LLMEngine.StopSequence 1 [7]).
  vm_compute. reflexivity.
Defined.

(** The run of the witness: the piece [</] was streamed, the text
    returned is empty. *)
Example stop_sequence_streams_more_than_it_returns :
  (LLMEngine.generate_stream world_stop_sequence hello true
     (generation_config0 4) (engine0 8)).1 =
    LLMEngine.Returned "" LLMEngine.StopSequence 1 [7] ∧
  callbacks (LLMEngine.trace
    (LLMEngine.generate_stream world_stop_sequence hello true
       (generation_config0 4) (engine0 8)).2) = [("</", false); ("", true)].
Proof. split; vm_compute; reflexivity. Qed.

(** X20. After every returning call of [generate_stream], on every exit
    of the loop, the token history is the tokenised prompt followed by
    the generated tokens, and none of these is an end-of-sequence token:
    a sampled EOS token is never appended. *)
Theorem generate_stream_history_is_prompt_then_generated w msgs (callback : bool) cfg e
    text why k g e' :
  LLMEngine.generate_stream w msgs callback cfg e =
    (LLMEngine.Returned text why k g, e') →
  LLMEngine.token_history e' = LLMEngine.encode_prompt w msgs ++ g ∧
  Forall (λ tok, LLMEngine.is_eos_token w tok = false) g.
Proof.
  intros Hrun.
  destruct (generate_stream_course _ _ _ _ _ _ _ _ _ _ Hrun)
    as (e1 & s & Hprep & Hleft & _ & _ & -> & -> & ->).
  destruct (prepare_hands_over _ _ _ _ Hprep) as (Hhist1 & _).
  destruct Hleft as (_ & _ & Hhist & _ & Heos & _).
  split; [|exact Heos]. rewrite <- Hhist1, <- Hhist. now destruct callback.
Qed.

Lemma generate_stream_history_is_prompt_then_generated_witness :
  LLMEngine.token_history
    (LLMEngine.generate_stream world_decode_fails hello false
       (generation_config0 4) (engine0 8)).2 =
    LLMEngine.encode_prompt world_decode_fails hello ++ [7] ∧
  Forall (λ tok, LLMEngine.is_eos_token world_decode_fails tok = false) [7].
Proof.
  eapply (generate_stream_history_is_prompt_then_generated world_decode_fails hello false
            (generation_config0 4) (engine0 8) "a" LLMEngine.DecodeFailed 0 [7]).
  vm_compute. reflexivity.
Defined.

(** X21. A returning call of [generate_stream] generates at most
    [max_tokens] tokens, and at most [j] tokens when [stop_generation]
    has been called by the time iteration [j] polls the flag. *)
Theorem generate_stream_output_bounded w msgs (callback : bool) cfg e
    text why k g e' :
  LLMEngine.generate_stream w msgs callback cfg e =
    (LLMEngine.Returned text why k g, e') →
  (length g ≤ Z.to_nat (LLMEngine.max_tokens cfg))%nat ∧
  ∀ j : nat, LLMEngine.stop_requested w j = true → (length g ≤ j)%nat.
Proof.
  intros Hrun.
  destruct (generate_stream_course _ _ _ _ _ _ _ _ _ _ Hrun)
    as (e1 & s & _ & Hleft & Hk & Hlt & -> & -> & ->).
  destruct Hleft as (Hlen & _ & _ & _ & _ & _ & Hpolls & Hpoll).
  split.
  - rewrite Hlen. destruct why; try lia.
    assert (k < Z.to_nat (LLMEngine.max_tokens cfg))%nat by (apply Hlt; discriminate). lia.
  - intros j Hj. rewrite Hlen.
    assert (k ≤ j)%nat as Hkj.
    { destruct (decide (j < k)%nat) as [Hjk|]; [|lia].
      rewrite (Hpolls j Hjk) in Hj. discriminate. }
    destruct why; try exact Hkj.
    destruct (decide (k = j)) as [->|]; [|lia].
    rewrite Hpoll in Hj; discriminate.
Qed.

Lemma generate_stream_output_bounded_witness :
  (length [7] ≤ Z.to_nat (LLMEngine.max_tokens (generation_config0 4)))%nat ∧
  ∀ j : nat, LLMEngine.stop_requested world_decode_fails j = true → (length [7] ≤ j)%nat.
Proof.
  apply (generate_stream_output_bounded world_decode_fails hello false
           (generation_config0 4) (engine0 8) "a" LLMEngine.DecodeFailed 0 [7]
           (LLMEngine.generate_stream world_decode_fails hello false
              (generation_config0 4) (engine0 8)).2).
  vm_compute. reflexivity.
Defined.

(** X22. The statistics are those of the last call: after a returning
    call of [generate_stream] every field of [get_stats()] is determined
    by this call alone (the generated tokens, the elapsed milliseconds,
    the prompt and the context position), whatever the statistics were
    before; nothing is accumulated. *)
Theorem generate_stream_statistics_are_per_call w msgs (callback : bool) cfg e
    text why k g e' :
  LLMEngine.generate_stream w msgs callback cfg e =
    (LLMEngine.Returned text why k g, e') →
  LLMEngine.get_stats e' =
    {| LLMEngine.tokens_generated := to_int (Z.of_nat (length g));
       LLMEngine.generation_time_ms := Float32.of_Z (LLMEngine.elapsed_ms w);
       LLMEngine.tokens_per_second :=
         Float32.div (Float32.of_Z (to_int (Z.of_nat (length g))))
           (Float32.div (Float32.of_Z (LLMEngine.elapsed_ms w)) (Float32.of_Z 1000));
       LLMEngine.prompt_tokens :=
         to_int (Z.of_nat (length (LLMEngine.encode_prompt w msgs)));
       LLMEngine.context_tokens := LLMEngine.get_context_usage e' |}.
Proof.
  intros Hrun.
  destruct (generate_stream_course _ _ _ _ _ _ _ _ _ _ Hrun)
    as (e1 & s & Hprep & Hleft & _ & _ & -> & -> & ->).
  destruct (prepare_hands_over _ _ _ _ Hprep) as (_ & _ & Hstats1 & _).
  destruct Hleft as (_ & _ & _ & _ & _ & Hstats & _).
  unfold LLMEngine.get_stats, LLMEngine.get_context_usage, LLMEngine.final_stats.
  destruct callback; cbn; rewrite Hstats, Hstats1; reflexivity.
Qed.

Lemma generate_stream_statistics_are_per_call_witness :
  LLMEngine.get_stats
    (LLMEngine.generate_stream world_decode_fails hello false
       (generation_config0 4) (engine0 8)).2 =
    {| LLMEngine.tokens_generated := to_int (Z.of_nat (length [7]));
       LLMEngine.generation_time_ms := Float32.of_Z (LLMEngine.elapsed_ms world_decode_fails);
       LLMEngine.tokens_per_second :=
         Float32.div (Float32.of_Z (to_int (Z.of_nat (length [7]))))
           (Float32.div (Float32.of_Z (LLMEngine.elapsed_ms world_decode_fails))
              (Float32.of_Z 1000));
       LLMEngine.prompt_tokens :=
         to_int (Z.of_nat (length (LLMEngine.encode_prompt world_decode_fails hello)));
       LLMEngine.context_tokens :=
         LLMEngine.get_context_usage
           (LLMEngine.generate_stream world_decode_fails hello false
              (generation_config0 4) (engine0 8)).2 |}.
Proof.
  eapply (generate_stream_statistics_are_per_call world_decode_fails hello false
            (generation_config0 4) (engine0 8) "a" LLMEngine.DecodeFailed 0 [7]).
  vm_compute. reflexivity.
Defined.

Lemma div_by_zero_not_finite (x : Float32.float) (s : bool) :
  is_finite (Float32.div x (S754_zero s)) = false.
Proof. destruct x; reflexivity. Qed.

(** X23. The division that computes [tokens_per_second] is not guarded:
    when a returning call of [generate_stream] took less than one
    millisecond, the rate it reports is not a number but an infinity
    or a NaN. *)
Theorem tokens_per_second_not_finite_within_a_millisecond w msgs (callback : bool) cfg e
    text why k g e' :
  LLMEngine.generate_stream w msgs callback cfg e =
    (LLMEngine.Returned text why k g, e') →
  LLMEngine.elapsed_ms w = 0 →
  is_finite (LLMEngine.tokens_per_second (LLMEngine.get_stats e')) = false.
Proof.
  intros Hrun Hms.
  destruct (generate_stream_course _ _ _ _ _ _ _ _ _ _ Hrun)
    as (e1 & s & _ & _ & _ & _ & _ & _ & ->).
  unfold LLMEngine.get_stats, LLMEngine.final_stats. cbv zeta.
  cbn [LLMEngine.stats_ LLMEngine.set_stats LLMEngine.tokens_per_second].
  rewrite Hms.
  change (Float32.div (Float32.of_Z 0) (Float32.of_Z 1000)) with (S754_zero false).
  apply div_by_zero_not_finite.
Qed.

Lemma tokens_per_second_not_finite_within_a_millisecond_witness :
  is_finite
    (LLMEngine.tokens_per_second
       (LLMEngine.get_stats
          (LLMEngine.generate_stream world_instant_eos hello false
             (generation_config0 4) (engine0 8)).2)) = false.
Proof.
  eapply (tokens_per_second_not_finite_within_a_millisecond world_instant_eos hello false
            (generation_config0 4) (engine0 8) "" LLMEngine.EosToken 0 []).
  - vm_compute. reflexivity.
  - reflexivity.
Defined.

(** X24. Context accounting: after a returning call of [generate_stream]
    [get_context_usage()] is the number of prompt tokens plus the number
    of generated tokens that the backend decoded (all of them, or all but
    the last after a failed decode). The prompt fits the context window,
    the generated tokens are not checked against it: the usage is bounded
    by the prompt length plus [max_tokens] only. The statistic
    [context_tokens] is the same number. *)
Theorem context_usage_after_generation w msgs (callback : bool) cfg e
    text why k g e' :
  ints_in_range e cfg →
  LLMEngine.generate_stream w msgs callback cfg e =
    (LLMEngine.Returned text why k g, e') →
  LLMEngine.get_context_usage e' =
    Z.of_nat (length (LLMEngine.encode_prompt w msgs)) + Z.of_nat (length g) -
    (match why with LLMEngine.DecodeFailed => 1 | _ => 0 end) ∧
  LLMEngine.get_context_usage e' ≤
    Z.of_nat (length (LLMEngine.encode_prompt w msgs)) +
    Z.max 0 (LLMEngine.max_tokens cfg) ∧
  Z.of_nat (length (LLMEngine.encode_prompt w msgs)) < LLMEngine.get_max_context e ∧
  LLMEngine.context_tokens (LLMEngine.get_stats e') = LLMEngine.get_context_usage e'.
Proof.
  intros Hrange Hrun.
  destruct (LLMEngine.prepare w msgs e) as [[[what|] e0]|e1] eqn:Hprep.
  1, 2: unfold LLMEngine.generate_stream in Hrun; rewrite Hprep in Hrun; discriminate.
  destruct (prepare_ready w msgs e e1 ltac:(destruct Hrange; unfold INT_MAX in *; lia) Hprep)
    as (_ & Hpast & Hfit).
  destruct (generate_stream_returns w msgs callback cfg e e1 Hrange Hprep)
    as (why' & k' & s & Hexit & Hk & Hrun').
  rewrite Hrun' in Hrun. injection Hrun as _ <- <- <- <-.
  assert (LLMEngine.n_past (LLMEngine.eng s) = LLMEngine.n_past e1 + Z.of_nat k' ∧
          Z.of_nat (length (LLMEngine.generated_tokens s)) =
            Z.of_nat k' + (match why' with LLMEngine.DecodeFailed => 1 | _ => 0 end))
    as [Hn Hg].
  { destruct why'; simpl in Hexit; unfold committed in Hexit;
      [destruct Hexit as [(Hg & _ & Hn & _) _] ..
      | destruct Hexit as (Hg & _ & Hn & _)];
      rewrite Hg, ?length_app, sampled_tokens_length; cbn [length];
      split; try exact Hn; lia. }
  unfold LLMEngine.get_context_usage, LLMEngine.get_max_context, LLMEngine.get_stats.
  destruct callback; cbn -[Z.of_nat]; rewrite Hn, Hg, Hpast;
    repeat split; try exact Hfit; destruct why'; lia.
Qed.

Lemma context_usage_after_generation_witness :
  let e' := (LLMEngine.generate_stream world_decode_fails hello false
               (generation_config0 4) (engine0 8)).2 in
  LLMEngine.get_context_usage e' =
    Z.of_nat (length (LLMEngine.encode_prompt world_decode_fails hello)) +
    Z.of_nat (length [7]) - 1 ∧
  LLMEngine.get_context_usage e' ≤
    Z.of_nat (length (LLMEngine.encode_prompt world_decode_fails hello)) +
    Z.max 0 (LLMEngine.max_tokens (generation_config0 4)) ∧
  Z.of_nat (length (LLMEngine.encode_prompt world_decode_fails hello)) <
    LLMEngine.get_max_context (engine0 8) ∧
  LLMEngine.context_tokens (LLMEngine.get_stats e') = LLMEngine.get_context_usage e'.
Proof.
  eapply (context_usage_after_generation world_decode_fails hello false
            (generation_config0 4) (engine0 8) "a" LLMEngine.DecodeFailed 0 [7]).
  - unfold ints_in_range, INT_MAX. simpl. lia.
  - vm_compute. reflexivity.
Defined.

(** ** LLMEngine: the prompt and the cached prefix *)

(** X25. Prefix reuse: of the tokenised prompt [generate_stream] submits
    to the backend only the tokens from position [q] on, where [q] is the
    length of the longest common prefix of prompt and token history,
    capped at [n_past]; the backend's cache is cut back to that prefix
    first when it holds more. These new tokens go into one batch
    allocated for [n_batch] tokens: when there are more of them the batch
    is overrun (and the call has no defined outcome); when they fit and
    the backend accepts them, the history afterwards is the prompt and
    [n_past] its length. A prompt that is a prefix of what the backend
    holds is not decoded at all, whatever [n_batch]. *)
Theorem prepare_decodes_only_the_new_suffix w msgs e :
  LLMEngine.initialized e = true →
  0 ≤ LLMEngine.n_past e →
  Z.of_nat (length (LLMEngine.encode_prompt w msgs)) < LLMEngine.n_ctx (LLMEngine.config e) →
  LLMEngine.n_ctx (LLMEngine.config e) ≤ INT_MAX →
  let T := LLMEngine.encode_prompt w msgs in
  let p := Z.of_nat (lcp_len T (LLMEngine.token_history e)) in
  let q := Z.min p (LLMEngine.n_past e) in
  (q < Z.of_nat (length T) →
   LLMEngine.n_batch (LLMEngine.config e) < Z.of_nat (length T) - q →
   ∀ callback cfg,
     (LLMEngine.generate_stream w msgs callback cfg e).1 = LLMEngine.BatchOverrun) ∧
  ((q < Z.of_nat (length T) →
    Z.of_nat (length T) - q ≤ LLMEngine.n_batch (LLMEngine.config e) ∧
    LLMEngine.prompt_decode_ok w (LLMEngine.prompt_batch q (drop (Z.to_nat q) T)) = true) →
   ∃ e1,
     LLMEngine.prepare w msgs e = inr e1 ∧
     LLMEngine.trace e1 =
       LLMEngine.trace e ++
       (if p <? LLMEngine.n_past e then [LLMEngine.KvSeqRm p (-1)] else []) ++
       (if q <? Z.of_nat (length T)
        then [LLMEngine.Decode (LLMEngine.prompt_batch q (drop (Z.to_nat q) T))]
        else []) ∧
     LLMEngine.token_history e1 = T ∧
     LLMEngine.n_past e1 = Z.of_nat (length T)).
Proof.
  intros Hinit Hpast Hfit Hctx T p q.
  change (LLMEngine.encode_prompt w msgs) with T in Hfit.
  pose proof (lcp_len_le_l T (LLMEngine.token_history e)) as Hlcp.
  assert (Hq : 0 ≤ q ≤ Z.of_nat (length T)) by (unfold q, p; lia).
  assert (Hnew : Z.of_nat (length (drop (Z.to_nat q) T)) = Z.of_nat (length T) - q)
    by (rewrite length_drop; lia).
  assert (Hprep : LLMEngine.prepare w msgs e =
    let e0 := LLMEngine.set_stats
                (LLMEngine.set_prompt_tokens (Z.of_nat (length T)) (LLMEngine.stats_ e))
                (LLMEngine.set_stop_flag false e) in
    let e0 := if p <? LLMEngine.n_past e
              then LLMEngine.set_n_past p (LLMEngine.emit (LLMEngine.KvSeqRm p (-1)) e0)
              else e0 in
    if q <? Z.of_nat (length T) then
      if LLMEngine.n_batch (LLMEngine.config e) <? Z.of_nat (length T) - q
      then inl (LLMEngine.Overrun, e0)
      else
        let batch := LLMEngine.prompt_batch q (drop (Z.to_nat q) T) in
        if LLMEngine.prompt_decode_ok w batch
        then inr (LLMEngine.set_token_history T
                    (LLMEngine.set_n_past (Z.of_nat (length T))
                       (LLMEngine.emit (LLMEngine.Decode batch) e0)))
        else inl (LLMEngine.Exception "Failed to decode prompt",
                  LLMEngine.emit (LLMEngine.Decode batch) e0)
    else inr (LLMEngine.set_token_history T e0)).
  { unfold LLMEngine.prepare.
    rewrite Hinit. cbv zeta. cbn -[to_int to_size_t Z.of_nat match_prefix].
    rewrite to_size_t_small by (unfold INT_MAX in Hctx; lia).
    fold T.
    destruct (Z.leb_spec (LLMEngine.n_ctx (LLMEngine.config e)) (Z.of_nat (length T)));
      [lia|].
    rewrite match_prefix_lcp, !to_int_of_nat by lia. fold p.
    rewrite <- Hnew.
    destruct (Z.ltb_spec p (LLMEngine.n_past e)) as [Hcut|Hkeep]; cbn -[Z.of_nat].
    - now replace q with p by (unfold q; lia).
    - now replace q with (LLMEngine.n_past e) by (unfold q; lia). }
  split.
  - intros Hlt Hover callback cfg. unfold LLMEngine.generate_stream.
    rewrite Hprep. cbv zeta.
    destruct (Z.ltb_spec q (Z.of_nat (length T))); [|lia].
    destruct (Z.ltb_spec (LLMEngine.n_batch (LLMEngine.config e))
                (Z.of_nat (length T) - q)); [reflexivity | lia].
  - intros Hok. rewrite Hprep. cbv zeta.
    destruct (Z.ltb_spec q (Z.of_nat (length T))) as [Hlt|Hge].
    + destruct (Hok Hlt) as [Hroom Hdec]. rewrite Hdec.
      destruct (Z.ltb_spec (LLMEngine.n_batch (LLMEngine.config e))
                  (Z.of_nat (length T) - q)); [lia|].
      eexists. split; [reflexivity|].
      destruct (p <? LLMEngine.n_past e); cbn -[Z.of_nat];
        rewrite <- ?app_assoc; repeat split.
    + eexists. split; [reflexivity|].
      destruct (Z.ltb_spec p (LLMEngine.n_past e)); cbn -[Z.of_nat];
        rewrite ?app_nil_r; repeat split; unfold q in *; lia.
Qed.

Lemma prepare_decodes_only_the_new_suffix_witness :
  let T := LLMEngine.encode_prompt world_prompt_129 hello in
  let p := Z.of_nat (lcp_len T (LLMEngine.token_history engine123)) in
  let q := Z.min p (LLMEngine.n_past engine123) in
  ∃ e1,
    LLMEngine.prepare world_prompt_129 hello engine123 = inr e1 ∧
    LLMEngine.trace e1 =
      LLMEngine.trace engine123 ++
      (if p <? LLMEngine.n_past engine123 then [LLMEngine.KvSeqRm p (-1)] else []) ++
      (if q <? Z.of_nat (length T)
       then [LLMEngine.Decode (LLMEngine.prompt_batch q (drop (Z.to_nat q) T))]
       else []) ∧
    LLMEngine.token_history e1 = T ∧
    LLMEngine.n_past e1 = Z.of_nat (length T).
Proof.
  apply prepare_decodes_only_the_new_suffix.
  - reflexivity.
  - vm_compute. discriminate.
  - vm_compute. reflexivity.
  - vm_compute. discriminate.
  - intros _. split; [vm_compute; discriminate | reflexivity].
Defined.

(** The run of the witness: the history [1, 2, 3] and the prompt
    [1, 2, 9] share two tokens; the cache is cut back to them and the one
    new token is decoded at position 2. *)
Example prepare_after_divergence :
  (λ e1, LLMEngine.trace e1) <$>
    (match LLMEngine.prepare world_prompt_129 hello engine123 with
     | inr e1 => Some e1
     | inl _ => None
     end) =
  Some [LLMEngine.KvSeqRm 2 (-1); LLMEngine.Decode [(9, 2, true)]].
Proof. vm_compute. reflexivity. Qed.

(** A first prompt of three tokens on an engine configured with
    [n_batch = 2]: the third [llama_batch_add] writes past the batch. *)
Example prompt_longer_than_n_batch :
  (LLMEngine.generate_stream world_decode_fails hello false (generation_config0 4)
     (engine_n_batch 2)).1 = LLMEngine.BatchOverrun.
Proof. reflexivity. Qed.

(** X26. [stop_generation()] acts on a generation in progress only: a
    stop requested before [generate_stream] is called is forgotten, the
    call clears the flag before it looks at it and runs exactly as on an
    engine that was never stopped. *)
Theorem stop_generation_before_call_is_forgotten w msgs (callback : bool) cfg e :
  LLMEngine.initialized e = true →
  LLMEngine.generate_stream w msgs callback cfg (LLMEngine.stop_generation e) =
  LLMEngine.generate_stream w msgs callback cfg e.
Proof.
  intros Hinit.
  assert (Hprep : LLMEngine.prepare w msgs (LLMEngine.stop_generation e) =
                  LLMEngine.prepare w msgs e).
  { unfold LLMEngine.prepare, LLMEngine.stop_generation.
    cbn [LLMEngine.initialized LLMEngine.set_stop_flag]. rewrite Hinit. reflexivity. }
  unfold LLMEngine.generate_stream. now rewrite Hprep.
Qed.

Lemma stop_generation_before_call_is_forgotten_witness :
  LLMEngine.generate_stream world_stop_sequence hello true (generation_config0 4)
    (LLMEngine.stop_generation (engine0 8)) =
  LLMEngine.generate_stream world_stop_sequence hello true (generation_config0 4)
    (engine0 8).
Proof.
  apply stop_generation_before_call_is_forgotten. reflexivity.
Defined.

(** ** Tokenizer: the chat templates *)

Lemma string_app_nil_l (a : string) : ("" ++ a)%string = a.
Proof. reflexivity. Qed.

(** A loop that only appends to its stream can be run on the empty
    stream and appended afterwards. *)
Lemma fold_left_string_app {A : Type} (f : A → string) (l : list A) :
  ∀ acc : string,
    fold_left (λ ss m, ss ++ f m)%string l acc =
    (acc ++ fold_left (λ ss m, ss ++ f m)%string l "")%string.
Proof.
  induction l as [|m l IH]; intros acc; simpl.
  - now rewrite string_app_nil_r.
  - rewrite (IH (acc ++ f m)%string), (IH ("" ++ f m)%string).
    now rewrite string_app_nil_l, string_app_assoc.
Qed.

Lemma llama2_ss_grows (l : list (string * string)) :
  ∀ st, ∃ rest,
    Tokenizer.ss (fold_left Tokenizer.llama2_step l st) = (Tokenizer.ss st ++ rest)%string.
Proof.
  induction l as [|m l IH]; intros st; simpl.
  - exists ""%string. now rewrite string_app_nil_r.
  - destruct (IH (Tokenizer.llama2_step st m)) as [rest ->].
    unfold Tokenizer.llama2_step.
    destruct (String.eqb m.1 "system"); [now exists rest|].
    destruct (String.eqb m.1 "user");
      [cbn [Tokenizer.ss]; rewrite !string_app_assoc; eauto|].
    destruct (String.eqb m.1 "assistant");
      [cbn [Tokenizer.ss]; rewrite !string_app_assoc; eauto|].
    now exists rest.
Qed.

(** X27. The prompt of the next turn extends the prompt of this turn:
    whatever the chat template, the text [format_messages] produces for a
    conversation continued by the assistant's reply (and any further
    messages) begins with the text it produced for the conversation (its
    generation prompt included), then the reply (after one space under
    the Llama 2 template). The common prefix of two consecutive prompts
    is therefore the whole earlier prompt. *)
Theorem format_messages_extends_with_reply (tokenizer : Tokenizer.t)
    (messages more : list LLMEngine.Message) (reply : string) :
  ∃ rest,
    format_messages tokenizer
      (messages ++
       {| LLMEngine.role := "assistant"; LLMEngine.content := reply |} :: more) =
    (format_messages tokenizer messages ++
     (match Tokenizer.template_type_ tokenizer with
      | Tokenizer.LLAMA2 => " "
      | _ => ""
      end) ++
     reply ++ rest)%string.
Proof.
  unfold format_messages, Tokenizer.apply_chat_template.
  rewrite fmap_app, fmap_cons. cbn [LLMEngine.role LLMEngine.content].
  set (ms := (λ msg, (LLMEngine.role msg, LLMEngine.content msg)) <$> messages).
  set (mo := (λ msg, (LLMEngine.role msg, LLMEngine.content msg)) <$> more).
  assert (Hchatml : ∃ rest,
    Tokenizer.apply_chatml_template (ms ++ ("assistant"%string, reply) :: mo) true =
    (Tokenizer.apply_chatml_template ms true ++ "" ++ reply ++ rest)%string).
  { unfold Tokenizer.apply_chatml_template.
    rewrite fold_left_app. cbn [fold_left fst snd].
    rewrite (fold_left_string_app _ mo).
    eexists. rewrite !string_app_assoc. reflexivity. }
  destruct (Tokenizer.template_type_ tokenizer); try exact Hchatml.
  - unfold Tokenizer.apply_llama2_template.
    rewrite fold_left_app. cbn [fold_left].
    destruct (llama2_ss_grows mo
                (Tokenizer.llama2_step
                   (fold_left Tokenizer.llama2_step ms
                      {| Tokenizer.ss := ""; Tokenizer.first_user := true;
                         Tokenizer.system_msg := "" |})
                   ("assistant"%string, reply))) as [rest ->].
    unfold Tokenizer.llama2_step at 1. cbn [fst snd Tokenizer.ss].
    change (String.eqb "assistant" "system") with false.
    change (String.eqb "assistant" "user") with false.
    change (String.eqb "assistant" "assistant") with true.
    cbn [Tokenizer.ss]. eexists. rewrite !string_app_assoc. reflexivity.
  - unfold Tokenizer.apply_llama3_template.
    rewrite fold_left_app. cbn [fold_left fst snd].
    rewrite (fold_left_string_app _ mo).
    eexists. rewrite !string_app_assoc. reflexivity.
Qed.

(** The ChatML prompts of a first turn and of the turn after it. *)
Example format_messages_two_turns :
  format_messages Tokenizer.create hello =
    ("<|im_start|>user" ++ Tokenizer.nl ++ "hello<|im_end|>" ++ Tokenizer.nl ++
     "<|im_start|>assistant" ++ Tokenizer.nl)%string ∧
  format_messages Tokenizer.create
    (hello ++ [{| LLMEngine.role := "assistant"; LLMEngine.content := "hi" |};
               {| LLMEngine.role := "user"; LLMEngine.content := "bye" |}]) =
    (format_messages Tokenizer.create hello ++ "hi" ++
     "<|im_end|>" ++ Tokenizer.nl ++
     "<|im_start|>user" ++ Tokenizer.nl ++ "bye<|im_end|>" ++ Tokenizer.nl ++
     "<|im_start|>assistant" ++ Tokenizer.nl)%string.
Proof. split; vm_compute; reflexivity. Qed.

Lemma llama2_step_unknown_role (st : Tokenizer.llama2_state) (m : string * string) :
  m.1 ∉ ["system"; "user"; "assistant"]%string → Tokenizer.llama2_step st m = st.
Proof.
  intros Hrole. unfold Tokenizer.llama2_step.
  destruct (String.eqb_spec m.1 "system") as [Heq|_].
  { exfalso. apply Hrole. rewrite Heq. set_solver. }
  destruct (String.eqb_spec m.1 "user") as [Heq|_].
  { exfalso. apply Hrole. rewrite Heq. set_solver. }
  destruct (String.eqb_spec m.1 "assistant") as [Heq|_]; [|reflexivity].
  exfalso. apply Hrole. rewrite Heq. set_solver.
Qed.

(** X28. The Llama 2 template drops every message whose role is not
    [system], [user] or [assistant], and it never writes a generation
    prompt: the text is the same with such messages removed and with
    either value of [add_generation_prompt]. *)
Theorem apply_llama2_template_ignores_unknown_roles
    (messages : list (string * string)) (add_generation_prompt flag : bool) :
  Tokenizer.apply_llama2_template messages add_generation_prompt =
  Tokenizer.apply_llama2_template
    (filter (λ m, m.1 ∈ ["system"; "user"; "assistant"]%string) messages) flag.
Proof.
  unfold Tokenizer.apply_llama2_template. f_equal.
  generalize {| Tokenizer.ss := ""; Tokenizer.first_user := true;
                Tokenizer.system_msg := "" |}.
  induction messages as [|m messages IH]; intros st; [reflexivity|].
  destruct (decide (m.1 ∈ ["system"; "user"; "assistant"]%string)) as [Hin|Hout].
  - rewrite filter_cons_True by exact Hin. simpl. apply IH.
  - rewrite filter_cons_False by exact Hout. simpl.
    rewrite (llama2_step_unknown_role st m Hout). apply IH.
Qed.

(** A tool message between the system prompt and the first user turn
    leaves no trace in the Llama 2 prompt. *)
Example apply_llama2_template_drops_tool_message :
  Tokenizer.apply_llama2_template messages_with_tool true =
  ("<s>[INST] <<SYS>>" ++ Tokenizer.nl ++ "be brief" ++ Tokenizer.nl ++ "<</SYS>>" ++
   Tokenizer.nl ++ Tokenizer.nl ++ "hi [/INST] hello </s>")%string.
Proof. vm_compute. reflexivity. Qed.

(** ** Tokenizer: the template chosen for a model *)

(** The loop that looks up the ChatML tokens leaves in each of the two
    fields the last token of that text, when the vocabulary has one. *)
Lemma find_chatml_loop_finds (tk : Tokenizer.t) (fuel : nat) :
  ∀ (i0 : Z) (sp : Tokenizer.SpecialTokens),
  let sp' := Tokenizer.find_chatml_loop tk fuel i0 sp in
  (Tokenizer.im_start sp' = Tokenizer.im_start sp ∨
   (i0 ≤ Tokenizer.im_start sp' < i0 + Z.of_nat fuel ∧
    Tokenizer.get_token_text tk (Tokenizer.im_start sp') = "<|im_start|>"%string)) ∧
  (Tokenizer.im_end sp' = Tokenizer.im_end sp ∨
   (i0 ≤ Tokenizer.im_end sp' < i0 + Z.of_nat fuel ∧
    Tokenizer.get_token_text tk (Tokenizer.im_end sp') = "<|im_end|>"%string)) ∧
  (∀ i, i0 ≤ i < i0 + Z.of_nat fuel →
     Tokenizer.get_token_text tk i = "<|im_start|>"%string →
     i ≤ Tokenizer.im_start sp' < i0 + Z.of_nat fuel ∧
     Tokenizer.get_token_text tk (Tokenizer.im_start sp') = "<|im_start|>"%string) ∧
  (∀ i, i0 ≤ i < i0 + Z.of_nat fuel →
     Tokenizer.get_token_text tk i = "<|im_end|>"%string →
     i ≤ Tokenizer.im_end sp' < i0 + Z.of_nat fuel ∧
     Tokenizer.get_token_text tk (Tokenizer.im_end sp') = "<|im_end|>"%string).
Proof.
  induction fuel as [|fuel IH]; intros i0 sp; cbv zeta.
  - simpl. repeat split; auto; intros; lia.
  - cbn [Tokenizer.find_chatml_loop]. cbv zeta.
    set (sp1 := if String.eqb (Tokenizer.get_token_text tk i0) "<|im_start|>" then _ else _).
    destruct (IH (i0 + 1) sp1) as (Hs & He & Hsall & Heall).
    assert (Hs1 : Tokenizer.im_start sp1 = Tokenizer.im_start sp ∨
                  (Tokenizer.im_start sp1 = i0 ∧
                   Tokenizer.get_token_text tk i0 = "<|im_start|>"%string)).
    { subst sp1. destruct (String.eqb_spec (Tokenizer.get_token_text tk i0) "<|im_start|>");
        [right; auto|].
      destruct (String.eqb _ "<|im_end|>"); left; reflexivity. }
    assert (He1 : Tokenizer.im_end sp1 = Tokenizer.im_end sp ∨
                  (Tokenizer.im_end sp1 = i0 ∧
                   Tokenizer.get_token_text tk i0 = "<|im_end|>"%string)).
    { subst sp1. destruct (String.eqb_spec (Tokenizer.get_token_text tk i0) "<|im_start|>");
        [left; reflexivity|].
      destruct (String.eqb_spec (Tokenizer.get_token_text tk i0) "<|im_end|>");
        [right; auto | left; reflexivity]. }
    assert (Hs0 : Tokenizer.get_token_text tk i0 = "<|im_start|>"%string →
                  Tokenizer.im_start sp1 = i0).
    { intros Heq. subst sp1. rewrite Heq. reflexivity. }
    assert (He0 : Tokenizer.get_token_text tk i0 = "<|im_end|>"%string →
                  Tokenizer.im_end sp1 = i0).
    { intros Heq. subst sp1. rewrite Heq. reflexivity. }
    clearbody sp1.
    split; [|split; [|split]].
    + destruct Hs as [Hs | (Hr & Ht)].
      * rewrite Hs. destruct Hs1 as [-> | [-> Ht]]; [now left | right; split; [lia | exact Ht]].
      * right. split; [lia | exact Ht].
    + destruct He as [He | (Hr & Ht)].
      * rewrite He. destruct He1 as [-> | [-> Ht]]; [now left | right; split; [lia | exact Ht]].
      * right. split; [lia | exact Ht].
    + intros i Hi Ht. destruct (decide (i = i0)) as [->|Hne].
      * destruct Hs as [Hs | (Hr & Ht')].
        -- rewrite Hs, (Hs0 Ht). split; [lia | exact Ht].
        -- split; [lia | exact Ht'].
      * destruct (Hsall i ltac:(lia) Ht) as [Hr Ht']. split; [lia | exact Ht'].
    + intros i Hi Ht. destruct (decide (i = i0)) as [->|Hne].
      * destruct He as [He | (Hr & Ht')].
        -- rewrite He, (He0 Ht). split; [lia | exact Ht].
        -- split; [lia | exact Ht'].
      * destruct (Heall i ltac:(lia) Ht) as [Hr Ht']. split; [lia | exact Ht'].
Qed.

(** X29. ChatML wins: when the vocabulary of the model holds a token
    whose text is [<|im_start|>] and one whose text is [<|im_end|>],
    [init_from_llama_model] records the last token of each text and sets
    the chat template to ChatML, whatever else the vocabulary holds
    (also tokens of the Llama templates) and whatever the tokenizer was
    set to before. The end token then counts as an end-of-sequence
    token. *)
Theorem init_from_llama_model_prefers_chatml (tk : Tokenizer.t)
    (model : Tokenizer.llama_model) (i j : Z) :
  0 ≤ i < Tokenizer.llama_n_vocab model →
  0 ≤ j < Tokenizer.llama_n_vocab model →
  Tokenizer.llama_token_to_piece model i false = Some "<|im_start|>"%string →
  Tokenizer.llama_token_to_piece model j false = Some "<|im_end|>"%string →
  let tk' := Tokenizer.init_from_llama_model tk model in
  Tokenizer.template_type_ tk' = Tokenizer.CHATML ∧
  i ≤ Tokenizer.im_start (Tokenizer.special_tokens_ tk') < Tokenizer.llama_n_vocab model ∧
  j ≤ Tokenizer.im_end (Tokenizer.special_tokens_ tk') < Tokenizer.llama_n_vocab model ∧
  Tokenizer.get_token_text tk' (Tokenizer.im_start (Tokenizer.special_tokens_ tk')) =
    "<|im_start|>"%string ∧
  Tokenizer.get_token_text tk' (Tokenizer.im_end (Tokenizer.special_tokens_ tk')) =
    "<|im_end|>"%string ∧
  Tokenizer.is_eos_token tk' (Tokenizer.im_end (Tokenizer.special_tokens_ tk')) = true.
Proof.
  intros Hi Hj Hti Htj. cbv zeta.
  pose (sp0 := {| Tokenizer.bos_token := Tokenizer.llama_token_bos model;
                  Tokenizer.eos_token := Tokenizer.llama_token_eos model;
                  Tokenizer.pad_token := Tokenizer.llama_token_pad model;
                  Tokenizer.unk_token := Tokenizer.unk_token (Tokenizer.special_tokens_ tk);
                  Tokenizer.im_start := Tokenizer.im_start (Tokenizer.special_tokens_ tk);
                  Tokenizer.im_end := Tokenizer.im_end (Tokenizer.special_tokens_ tk) |}).
  pose (tk1 := {| Tokenizer.llama_model_ := Some model;
                  Tokenizer.vocab_size_ := Tokenizer.llama_n_vocab model;
                  Tokenizer.special_tokens_ := sp0;
                  Tokenizer.template_type_ := Tokenizer.template_type_ tk;
                  Tokenizer.custom_template_ := Tokenizer.custom_template_ tk |}).
  pose (sp := Tokenizer.find_chatml_loop tk1
                (Z.to_nat (Tokenizer.llama_n_vocab model)) 0 sp0).
  pose (tk2 := {| Tokenizer.llama_model_ := Some model;
                  Tokenizer.vocab_size_ := Tokenizer.llama_n_vocab model;
                  Tokenizer.special_tokens_ := sp;
                  Tokenizer.template_type_ := Tokenizer.template_type_ tk;
                  Tokenizer.custom_template_ := Tokenizer.custom_template_ tk |}).
  change (Tokenizer.init_from_llama_model tk model) with
    {| Tokenizer.llama_model_ := Some model;
       Tokenizer.vocab_size_ := Tokenizer.llama_n_vocab model;
       Tokenizer.special_tokens_ := sp;
       Tokenizer.template_type_ := Tokenizer.detect_template_type tk2;
       Tokenizer.custom_template_ := Tokenizer.custom_template_ tk |}.
  cbn [Tokenizer.special_tokens_ Tokenizer.template_type_].
  assert (Htext : ∀ tk0 x, Tokenizer.llama_model_ tk0 = Some model →
            Tokenizer.get_token_text tk0 x =
            default ""%string (Tokenizer.llama_token_to_piece model x false)).
  { intros tk0 x Hm. unfold Tokenizer.get_token_text. now rewrite Hm. }
  destruct (find_chatml_loop_finds tk1 (Z.to_nat (Tokenizer.llama_n_vocab model)) 0 sp0)
    as (_ & _ & Hsall & Heall).
  fold sp in Hsall, Heall.
  destruct (Hsall i) as [Hsr Hst];
    [lia | rewrite Htext by reflexivity; now rewrite Hti |].
  destruct (Heall j) as [Her Het];
    [lia | rewrite Htext by reflexivity; now rewrite Htj |].
  rewrite Htext in Hst, Het by reflexivity.
  rewrite !Htext by reflexivity.
  split; [|split; [lia | split; [lia | split; [exact Hst | split; [exact Het|]]]]].
  - unfold Tokenizer.detect_template_type. cbn [Tokenizer.special_tokens_ tk2].
    destruct (Z.leb_spec 0 (Tokenizer.im_start sp)); [|lia].
    destruct (Z.leb_spec 0 (Tokenizer.im_end sp)); [reflexivity | lia].
  - unfold Tokenizer.is_eos_token. cbn [Tokenizer.special_tokens_].
    rewrite Z.eqb_refl. apply orb_true_r.
Qed.

Lemma init_from_llama_model_prefers_chatml_witness :
  let tk' :=
    Tokenizer.init_from_llama_model
      (Tokenizer.set_chat_template Tokenizer.create Tokenizer.LLAMA2) model_inst_chatml in
  Tokenizer.template_type_ tk' = Tokenizer.CHATML ∧
  1 ≤ Tokenizer.im_start (Tokenizer.special_tokens_ tk') <
    Tokenizer.llama_n_vocab model_inst_chatml ∧
  2 ≤ Tokenizer.im_end (Tokenizer.special_tokens_ tk') <
    Tokenizer.llama_n_vocab model_inst_chatml ∧
  Tokenizer.get_token_text tk' (Tokenizer.im_start (Tokenizer.special_tokens_ tk')) =
    "<|im_start|>"%string ∧
  Tokenizer.get_token_text tk' (Tokenizer.im_end (Tokenizer.special_tokens_ tk')) =
    "<|im_end|>"%string ∧
  Tokenizer.is_eos_token tk' (Tokenizer.im_end (Tokenizer.special_tokens_ tk')) = true.
Proof.
  apply init_from_llama_model_prefers_chatml.
  - vm_compute. split; [discriminate | reflexivity].
  - vm_compute. split; [discriminate | reflexivity].
  - reflexivity.
  - reflexivity.
Defined.

(** ** LLMEngine and Tokenizer: the returned text *)

Lemma decode_all_is_pieces w (tk : Tokenizer.t) (toks : list Z) :
  (∀ tok, LLMEngine.decode_token w tok = Tokenizer.decode_token tk tok) →
  Tokenizer.decode tk toks false = pieces w toks.
Proof.
  intros Hpiece. unfold Tokenizer.decode. cbn [andb].
  induction toks as [|tok toks IH]; [reflexivity|].
  cbn [fold_left pieces].
  rewrite (fold_left_string_app (Tokenizer.decode_token tk) toks).
  rewrite string_app_nil_l, IH, Hpiece. reflexivity.
Qed.

(** X30. The text is the decoding of the generated tokens: with the
    engine's tokenizer supplying the pieces, the text that a call of
    [generate_stream] returns, unless a stop sequence cut it, is
    [Tokenizer::decode] of the generated tokens with [skip_special]
    off. *)
Theorem generate_stream_text_is_tokenizer_decode w (tk : Tokenizer.t) msgs
    (callback : bool) cfg e text why k g e' :
  (∀ tok, LLMEngine.decode_token w tok = Tokenizer.decode_token tk tok) →
  LLMEngine.generate_stream w msgs callback cfg e =
    (LLMEngine.Returned text why k g, e') →
  why ≠ LLMEngine.StopSequence →
  text = Tokenizer.decode tk g false.
Proof.
  intros Hpiece Hrun Hwhy.
  destruct (generate_stream_course _ _ _ _ _ _ _ _ _ _ Hrun)
    as (e1 & s & _ & Hleft & _ & _ & -> & -> & _).
  destruct Hleft as (_ & Hres & _).
  rewrite (Hres Hwhy). symmetry. now apply decode_all_is_pieces.
Qed.

Lemma generate_stream_text_is_tokenizer_decode_witness :
  "a"%string = Tokenizer.decode tokenizer_all_a [7] false.
Proof.
  eapply (generate_stream_text_is_tokenizer_decode world_decode_fails tokenizer_all_a
            hello false (generation_config0 4) (engine0 8) "a" LLMEngine.DecodeFailed 0 [7]).
  - intros tok. reflexivity.
  - vm_compute. reflexivity.
  - discriminate.
Defined.
